(** * Token manager of the GitHub action: credential cache, single-flight
      refresh, bounded retry with backoff and the reauthentication hook.

    Shallow embedding of [src/github/token-manager.ts].

    The TypeScript class is asynchronous code running on one event loop.  An
    [async] function is embedded as a tree of type [Async A]: its leaves are
    [return]/[throw], its nodes are the effects the body performs, in program
    order.  A turn of a call is its uninterrupted run from where it starts
    or is resumed to its next suspension point.  Effects that complete within
    the turn ([SyncE]: field reads and writes on [this], [Date.now()],
    [process.env], [console]) are separated from the suspension points
    ([AwaitE]: every [await]).

    Two readings of a tree are used.  [path] lists the executions of one
    call, whatever the rest of the world does: the properties of a single
    method (the retry executor, the exchange, [doRefresh], the request hook)
    are stated over all its paths.  [run] executes a tree up to its next
    suspension point against an explicit [State], and [step] is the event
    loop, one label for one turn: the properties that involve several calls
    (the cache, the single-flight refresh, reset) are stated over all
    sequences of turns.  [run_path] relates the two.

    Numbers are JavaScript numbers that hold integers (attempt counters,
    milliseconds, HTTP status codes); they are modelled as [Z]. *)

From Stdlib Require Import ZArith String List Bool Lia.
From stdpp Require Import base list.
Import ListNotations.
Local Open Scope string_scope.
Local Open Scope Z_scope.
Local Open Scope list_scope.

(** ** Values *)

(** An instance of [Error]: its [name], its [message] and, for the request
    errors of the API clients, the numeric [status] property. *)
Record JsError := mkError {
  name : string;
  message : string;
  status : option Z
}.

(** [new Error(msg)] *)
Definition newError (msg : string) : JsError := mkError "Error" msg None.

(** What a [throw] (or a rejected promise) carries: JavaScript can throw any
    value.  [Undef] is [undefined], [Null] is [null]; [Plain] is a value that
    is neither an [Error] instance nor one of these two, given by its
    [String()] rendering and its numeric [.status] property when it has
    one. *)
Inductive Thrown :=
| Err (e : JsError)
| Undef
| Null
| Plain (repr : string) (st : option Z).

(** A settled promise. *)
Inductive Settled (A : Type) :=
| Fulfilled (a : A)
| Rejected (e : Thrown).
Arguments Fulfilled {A} a.
Arguments Rejected {A} e.

(** [Error.prototype.toString] *)
Definition errorToString (e : JsError) : string :=
  if String.eqb (name e) EmptyString then message e
  else if String.eqb (message e) EmptyString then name e
  else (name e ++ ": " ++ message e)%string.

(** [String(v)], also what a template literal does to an interpolated value *)
Definition toString (v : Thrown) : string :=
  match v with
  | Err e => errorToString e
  | Undef => "undefined"
  | Null => "null"
  | Plain s _ => s
  end.

(** A string in boolean position: the empty string is falsy. *)
Definition truthy (s : string) : bool := negb (String.eqb s EmptyString).

(** An optional string ([string | undefined | null]) in boolean position. *)
Definition truthyOpt (o : option string) : bool :=
  match o with
  | Some s => truthy s
  | None => false
  end.

(** [a || b] on optional strings *)
Definition orElse (a b : option string) : option string :=
  if truthyOpt a then a else b.

(** The body of the exchange endpoint's response as the two casts of
    [exchangeForAppToken] see it: a JSON object with the optional fields
    [error.message], [token] and [app_token]. *)
Record JsonBody := mkBody {
  error_message : option string;
  body_token : option string;
  body_app_token : option string
}.

(** The [Response] of [fetch]; [json] is what [await response.json()]
    settles to. *)
Record Response := mkResponse {
  ok : bool;
  resp_status : Z;
  statusText : string;
  json : Settled JsonBody
}.

(** The request of [fetch(url, { method, headers: { Authorization } })] *)
Record FetchRequest := mkFetch {
  url : string;
  method : string;
  authorizationHeader : string
}.

(** The [options] object a request hook receives.  The hook only touches
    [options.headers.authorization]; [route] stands for the rest. *)
Record RequestOptions := mkOptions {
  route : string;
  headers_authorization : string
}.

(** What [request(options)] resolves to. *)
Record ApiResponse := mkApiResponse {
  api_status : Z;
  api_data : string
}.

(** Promises created by calling an async function are named by their
    allocation index. *)
Definition pid := nat.

(** ** The fields of [TokenManager] *)

Record Manager := mkManager {
  token : option string;
  tokenExpiry : option Z;        (* the Date's time value, ms *)
  refreshPromise : option pid
}.

Inductive Field : Type -> Type :=
| FToken : Field (option string)
| FTokenExpiry : Field (option Z)
| FRefreshPromise : Field (option pid).

Definition getField {X} (f : Field X) (m : Manager) : X :=
  match f in Field X return X with
  | FToken => token m
  | FTokenExpiry => tokenExpiry m
  | FRefreshPromise => refreshPromise m
  end.

Definition setField {X} (f : Field X) : X -> Manager -> Manager :=
  match f in Field X return X -> Manager -> Manager with
  | FToken => fun v m => mkManager v (tokenExpiry m) (refreshPromise m)
  | FTokenExpiry => fun v m => mkManager (token m) v (refreshPromise m)
  | FRefreshPromise => fun v m => mkManager (token m) (tokenExpiry m) v
  end.

(** ** Console output

    One constructor per [console.log]/[console.error] call site, carrying
    the values the message interpolates. *)
Inductive Client := Rest | GraphQL.

Inductive LogLine :=
| LogWaitingForRefresh                 (* "Token refresh already in progress, waiting..." *)
| LogRefreshing                        (* "Refreshing GitHub token..." *)
| LogUsingProvided                     (* "Using provided GITHUB_TOKEN (no expiry)" *)
| LogOidcObtained                      (* "OIDC token obtained" *)
| LogAppObtained                       (* "App token obtained" *)
| LogRefreshFailed (e : Thrown)        (* "Failed to refresh token:", error *)
| LogOidcFailed (e : Thrown)           (* "Failed to get OIDC token:", error *)
| LogExchangeFailed (st : Z) (txt msg : string)
    (* `App token exchange failed: ${status} ${statusText} - ${message}` *)
| LogAuthError (c : Client) (st : Z)
    (* `Authentication error (${error.status}), refreshing token...`,
       `GraphQL authentication error (...)` on the GraphQL client *)
| LogAttempt (attempt maxAttempts : Z) (* `Attempt ${attempt} of ${maxAttempts}...` *)
| LogAttemptFailed (attempt : Z) (msg : string)
| LogRetrying (delayMs : Z)            (* `Retrying in ${delayMs / 1000} seconds...` *)
| LogOperationFailed (maxAttempts : Z).
    (* `Operation failed after ${maxAttempts} attempts` *)

(** ** Effects *)

(** Effects that complete within the current turn. *)
Inductive SyncE : Type -> Type :=
| ReadField {X} (f : Field X) : SyncE X
| WriteField {X} (f : Field X) (v : X) : SyncE unit
| DateNow : SyncE Z
| EnvOverride : SyncE (option string)   (* process.env.OVERRIDE_GITHUB_TOKEN *)
| Console (l : LogLine) : SyncE unit.

(** Suspension points: what an [await] waits for. *)
Inductive AwaitE : Type -> Type :=
| Promise (p : pid) : AwaitE (Settled string)
| GetIDToken (audience : string) : AwaitE (Settled string)
| Fetch (r : FetchRequest) : AwaitE (Settled Response)
| ResponseJson (r : Response) : AwaitE (Settled JsonBody)
| SetTimeout (ms : Z) : AwaitE unit
| Request (o : RequestOptions) : AwaitE (Settled ApiResponse).

(** ** Asynchronous computations *)

Inductive Async (A : Type) : Type :=
| Ret (a : A)
| Throw (e : Thrown)
| Do {X : Type} (e : SyncE X) (k : X -> Async A)
| Await {X : Type} (e : AwaitE X) (k : X -> Async A)
| CallAsync (body : Async string) (k : pid -> Async A).
    (* call an async function without awaiting it: its body runs up to its
       first suspension point and the caller goes on with the promise *)
Arguments Ret {A} a.
Arguments Throw {A} e.
Arguments Do {A X} e k.
Arguments Await {A X} e k.
Arguments CallAsync {A} body k.

Fixpoint bind {A B} (t : Async A) (f : A -> Async B) : Async B :=
  match t with
  | Ret a => f a
  | Throw e => Throw e
  | Do e k => Do e (fun x => bind (k x) f)
  | Await e k => Await e (fun x => bind (k x) f)
  | CallAsync body k => CallAsync body (fun p => bind (k p) f)
  end.

(** [try { t } catch (error) { h error }] *)
Fixpoint tryCatch {A} (t : Async A) (h : Thrown -> Async A) : Async A :=
  match t with
  | Ret a => Ret a
  | Throw e => h e
  | Do e k => Do e (fun x => tryCatch (k x) h)
  | Await e k => Await e (fun x => tryCatch (k x) h)
  | CallAsync body k => CallAsync body (fun p => tryCatch (k p) h)
  end.

(** [try { t } finally { f }], for a [finally] block that completes
    normally *)
Fixpoint tryFinally {A} (t : Async A) (f : Async unit) : Async A :=
  match t with
  | Ret a => bind f (fun _ => Ret a)
  | Throw e => bind f (fun _ => Throw e)
  | Do e k => Do e (fun x => tryFinally (k x) f)
  | Await e k => Await e (fun x => tryFinally (k x) f)
  | CallAsync body k => CallAsync body (fun p => tryFinally (k p) f)
  end.

Declare Scope async_scope.
Delimit Scope async_scope with async.
Bind Scope async_scope with Async.
Notation "'let!' x ':=' t 'in' k" := (bind t (fun x => k))
  (at level 10, x name, t at level 100, k at level 200) : async_scope.
Notation "t ';;' k" := (bind t (fun _ => k))
  (at level 100, k at level 200, right associativity) : async_scope.
Local Open Scope async_scope.

Definition perform {X} (e : SyncE X) : Async X := Do e Ret.

(** [await e]: a rejection is thrown at the [await]. *)
Definition await {X} (e : AwaitE (Settled X)) : Async X :=
  Await e (fun r => match r with Fulfilled x => Ret x | Rejected err => Throw err end).

Definition sleep (ms : Z) : Async unit := Await (SetTimeout ms) Ret.
Definition log (l : LogLine) : Async unit := perform (Console l).
Definition this_get {X} (f : Field X) : Async X := perform (ReadField f).
Definition this_set {X} (f : Field X) (v : X) : Async unit := perform (WriteField f v).

(** ** The class, method by method *)

Module TokenManager.

(** [TOKEN_LIFETIME_MS = 55 * 60 * 1000] *)
Definition TOKEN_LIFETIME_MS : Z := 55 * 60 * 1000.

(** [const expiryBuffer = 5 * 60 * 1000] *)
Definition expiryBuffer : Z := 5 * 60 * 1000.

(** [365 * 24 * 60 * 60 * 1000], the lifetime given to an override token *)
Definition overrideLifetimeMs : Z := 365 * 24 * 60 * 60 * 1000.

Definition exchangeUrl : string :=
  "https://api.anthropic.com/api/github/github-app-token-exchange".

Definition oidcAudience : string := "claude-code-github-action".

Record RetryOptions := mkRetryOptions {
  maxAttempts : option Z;
  initialDelayMs : option Z;
  maxDelayMs : option Z;
  backoffFactor : option Z
}.

(** [{}] *)
Definition noOptions : RetryOptions := mkRetryOptions None None None None.

(** A destructuring default: [{ x = d } = options] *)
Definition orDefault (o : option Z) (d : Z) : Z :=
  match o with
  | Some v => v
  | None => d
  end.

(** A value of type [string | null | undefined] used where TypeScript has
    narrowed it to [string] (after a truthiness test, or under the [!] of
    [this.token!], which is erased at run time).  Every use below follows a
    test that has seen a non-empty string. *)
Definition nonNull (tok : option string) : string :=
  match tok with
  | Some t => t
  | None => EmptyString
  end.

(** [error instanceof Error ? error : new Error(String(error))] *)
Definition asError (error : Thrown) : JsError :=
  match error with
  | Err e => e
  | _ => newError (toString error)
  end.

Section RetryLoop.
Context {T : Type} (operation : Async T).
Variables (maxAttempts' maxDelayMs' backoffFactor' : Z).

(** What follows the [for] loop. *)
Definition retryExhausted (lastError : Thrown) : Async T :=
  log (LogOperationFailed maxAttempts') ;; Throw lastError.

(** [for (let attempt = 1; attempt <= maxAttempts; attempt++) { ... }]
    followed by the final [throw], entered at [attempt] with the current
    [delayMs] and [lastError].  [fuel] bounds the iterations that remain;
    [retryWithBackoff] passes enough of it (lemma [retryLoop_fuel]). *)
Fixpoint retryLoop (fuel : nat) (attempt delayMs : Z) (lastError : Thrown)
  : Async T :=
  match fuel with
  | O => retryExhausted lastError
  | S fuel' =>
    if attempt <=? maxAttempts' then
      tryCatch
        (log (LogAttempt attempt maxAttempts') ;; operation)
        (fun error =>
           let lastError := asError error in
           log (LogAttemptFailed attempt (message lastError)) ;;
           if attempt <? maxAttempts' then
             log (LogRetrying delayMs) ;;
             sleep delayMs ;;
             retryLoop fuel' (attempt + 1)
               (Z.min (delayMs * backoffFactor') maxDelayMs') (Err lastError)
           else
             retryLoop fuel' (attempt + 1) delayMs (Err lastError))
    else retryExhausted lastError
  end.
End RetryLoop.

Definition retryWithBackoff {T} (operation : Async T) (options : RetryOptions)
  : Async T :=
  let maxAttempts := orDefault (maxAttempts options) 3 in
  let initialDelayMs := orDefault (initialDelayMs options) 5000 in
  let maxDelayMs := orDefault (maxDelayMs options) 20000 in
  let backoffFactor := orDefault (backoffFactor options) 2 in
  retryLoop operation maxAttempts maxDelayMs backoffFactor
    (Z.to_nat maxAttempts) 1 initialDelayMs Undef.

Definition oidcHint : string :=
  "Could not fetch an OIDC token. Did you remember to add `id-token: write` to your workflow permissions?".

Definition getOidcToken : Async string :=
  tryCatch
    (await (GetIDToken oidcAudience))
    (fun error => log (LogOidcFailed error) ;; Throw (Err (newError oidcHint))).

(** [responseJson?.error?.message ?? "Unknown error"] *)
Definition errorMessageOf (responseJson : JsonBody) : string :=
  match error_message responseJson with
  | Some m => m
  | None => "Unknown error"
  end.

Definition exchangeForAppToken (oidcToken : string) : Async string :=
  let! response :=
    await (Fetch (mkFetch exchangeUrl "POST" ("Bearer " ++ oidcToken)%string)) in
  if negb (ok response) then
    let! responseJson := await (ResponseJson response) in
    log (LogExchangeFailed (resp_status response) (statusText response)
           (errorMessageOf responseJson)) ;;
    Throw (Err (newError (errorMessageOf responseJson)))
  else
    let! appTokenData := await (ResponseJson response) in
    let appToken := orElse (body_token appTokenData) (body_app_token appTokenData) in
    if negb (truthyOpt appToken) then
      Throw (Err (newError "App token not found in response"))
    else Ret (nonNull appToken).

Definition doRefresh : Async string :=
  log LogRefreshing ;;
  tryCatch
    (let! providedToken := perform EnvOverride in
     if truthyOpt providedToken then
       log LogUsingProvided ;;
       this_set FToken providedToken ;;
       let! now := perform DateNow in
       this_set FTokenExpiry (Some (now + overrideLifetimeMs)) ;;
       Ret (nonNull providedToken)
     else
       let! oidcToken := retryWithBackoff getOidcToken noOptions in
       log LogOidcObtained ;;
       let! appToken := retryWithBackoff (exchangeForAppToken oidcToken) noOptions in
       log LogAppObtained ;;
       this_set FToken (Some appToken) ;;
       let! now := perform DateNow in
       this_set FTokenExpiry (Some (now + TOKEN_LIFETIME_MS)) ;;
       Ret appToken)
    (fun error =>
       log (LogRefreshFailed error) ;;
       Throw (Err (newError ("Token refresh failed: " ++ toString error)%string))).

Definition refreshToken : Async string :=
  let! inFlight := this_get FRefreshPromise in
  match inFlight with
  | Some p =>
      log LogWaitingForRefresh ;;
      await (Promise p)
  | None =>
      CallAsync doRefresh (fun p =>
      this_set FRefreshPromise (Some p) ;;
      tryFinally
        (await (Promise p))
        (this_set FRefreshPromise None))
  end.

Definition isTokenValid : Async bool :=
  let! tok := this_get FToken in
  if negb (truthyOpt tok) then Ret false
  else
    let! expiry := this_get FTokenExpiry in
    match expiry with
    | None => Ret false
    | Some tokenExpiry =>
        let! now := perform DateNow in
        Ret (now <? tokenExpiry - expiryBuffer)
    end.

Definition getToken : Async string :=
  let! valid := isTokenValid in
  if valid then
    let! tok := this_get FToken in
    Ret (nonNull tok)
  else refreshToken.

(** [error.status === 401 || error.status === 403] *)
Definition isAuthStatus (st : option Z) : bool :=
  match st with
  | Some code => (code =? 401) || (code =? 403)
  | None => false
  end.

(** [error.status]; reading a property of [undefined] or of [null]
    throws. *)
Definition statusOf (error : Thrown) : option (option Z) :=
  match error with
  | Err e => Some (status e)
  | Plain _ st => Some st
  | Undef => None
  | Null => None
  end.

(** The [TypeError] of reading [error.status] when [error] is [undefined]
    or [null], in the wording of Bun, the runtime the file asks for. *)
Definition cannotReadStatus (error : Thrown) : JsError :=
  mkError "TypeError"
    (toString error ++ " is not an object (evaluating 'error.status')")%string
    None.

(** The function passed as [request.hook] for both clients (they differ in
    the line they log): [request(options)] is the suspension point
    [Request options]. *)
Definition hook (client : Client) (options : RequestOptions) : Async ApiResponse :=
  tryCatch
    (await (Request options))
    (fun error =>
       match statusOf error with
       | None => Throw (Err (cannotReadStatus error))
       | Some st =>
         if isAuthStatus st then
           log (LogAuthError client (default 0 st)) ;;
           let! newToken := refreshToken in
           let options := mkOptions (route options) ("token " ++ newToken)%string in
           await (Request options)
         else Throw error
       end).

(** The pair of clients: each is bound to the token it was built with. *)
Record Octokits := mkOctokits {
  rest_auth : string;
  graphql_authorization : string
}.

Definition createOctokitWithRetry (tok : string) : Octokits :=
  mkOctokits tok ("token " ++ tok)%string.

(** A request issued through one of the two clients.  [graphql.defaults]
    keeps the [request.hook] it is given, and every request of the GraphQL
    client goes through it.  [new Octokit] does not: the constructor builds
    the request defaults of the instance as
    [Object.assign({}, options.request, { hook })] with a hook collection of
    its own, so the function passed as [request.hook] is replaced and a
    request of the REST client is the plain [request(options)]. *)
Definition clientRequest (client : Client) (options : RequestOptions)
  : Async ApiResponse :=
  match client with
  | GraphQL => hook GraphQL options
  | Rest => await (Request options)
  end.

Definition createOctokit : Async Octokits :=
  let! tok := getToken in
  Ret (createOctokitWithRetry tok).

Definition resetInstance : Async unit :=
  this_set FToken None ;;
  this_set FTokenExpiry None ;;
  this_set FRefreshPromise None.

End TokenManager.

(** ** The event loop *)

Import TokenManager.

(** What the console and the outside world see, in order. *)
Inductive Event :=
| Logged (l : LogLine)
| Awaited {X} (e : AwaitE X).

(** What a call of the public interface settles to. *)
Inductive Value :=
| VToken (tok : string)
| VClients (o : Octokits)
| VResponse (r : ApiResponse)
| VUnit.

(** A suspended call: what it awaits and the rest of its body.  The result
    of a [TaskOfPromise] settles the promise of an async call made by the
    class itself; the result of a [TaskOfCaller] goes to a consumer. *)
Inductive Task :=
| TaskOfPromise (p : pid) {X} (e : AwaitE X) (k : X -> Async string)
| TaskOfCaller (c : nat) {X} (e : AwaitE X) (k : X -> Async Value).

Record State := mkState {
  this : Manager;                               (* the singleton's fields *)
  override : option string;                     (* process.env.OVERRIDE_GITHUB_TOKEN *)
  clock : Z;                                    (* Date.now() *)
  promises : list (option (Settled string));    (* None: pending *)
  tasks : list (option Task);                   (* None: finished *)
  calls : nat;                                  (* consumer calls made so far *)
  results : list (nat * Settled Value);         (* settled consumer calls *)
  trace : list Event
}.

Definition setThis (m : Manager) (s : State) : State :=
  mkState m (override s) (clock s) (promises s) (tasks s) (calls s) (results s) (trace s).
Definition setOverride (v : option string) (s : State) : State :=
  mkState (this s) v (clock s) (promises s) (tasks s) (calls s) (results s) (trace s).
Definition setClock (now : Z) (s : State) : State :=
  mkState (this s) (override s) now (promises s) (tasks s) (calls s) (results s) (trace s).
Definition setPromises (ps : list (option (Settled string))) (s : State) : State :=
  mkState (this s) (override s) (clock s) ps (tasks s) (calls s) (results s) (trace s).
Definition setTasks (ts : list (option Task)) (s : State) : State :=
  mkState (this s) (override s) (clock s) (promises s) ts (calls s) (results s) (trace s).
Definition setCalls (n : nat) (s : State) : State :=
  mkState (this s) (override s) (clock s) (promises s) (tasks s) n (results s) (trace s).
Definition setResults (rs : list (nat * Settled Value)) (s : State) : State :=
  mkState (this s) (override s) (clock s) (promises s) (tasks s) (calls s) rs (trace s).
Definition emit (ev : Event) (s : State) : State :=
  mkState (this s) (override s) (clock s) (promises s) (tasks s) (calls s) (results s)
    (trace s ++ [ev]).

Definition performSync {X} (e : SyncE X) (s : State) : State * X :=
  match e in SyncE X return State * X with
  | ReadField f => (s, getField f (this s))
  | WriteField f v => (setThis (setField f v (this s)) s, tt)
  | DateNow => (s, clock s)
  | EnvOverride => (s, override s)
  | Console l => (emit (Logged l) s, tt)
  end.

Inductive Paused (A : Type) :=
| Finished (r : Settled A)
| Waiting {X} (e : AwaitE X) (k : X -> Async A).
Arguments Finished {A} r.
Arguments Waiting {A X} e k.

Definition settle (p : pid) (r : Settled string) (s : State) : State :=
  setPromises (<[p := Some r]> (promises s)) s.

Definition park (t : Task) (s : State) : State :=
  setTasks (tasks s ++ [Some t]) s.

(** Run a computation within the current turn, up to its first suspension
    point.  Calling an async function allocates its promise, runs its body
    the same way and settles the promise or parks the rest of the body. *)
Fixpoint run {A : Type} (t : Async A) (s : State) : State * Paused A :=
  match t with
  | Ret a => (s, Finished (Fulfilled a))
  | Throw e => (s, Finished (Rejected e))
  | Do e k => let '(s', x) := performSync e s in run (k x) s'
  | Await e k => (emit (Awaited e) s, Waiting e k)
  | CallAsync body k =>
      let p := length (promises s) in
      let '(s', r) := run body (setPromises (promises s ++ [None]) s) in
      run (k p)
        match r with
        | Finished v => settle p v s'
        | Waiting e k' => park (TaskOfPromise p e k') s'
        end
  end.

(** An answer of the outside world to a suspended call. *)
Inductive Answer :=
| IdToken (r : Settled string)        (* core.getIDToken settles *)
| Fetched (r : Settled Response)      (* fetch settles *)
| Fired                               (* the timer of setTimeout fires *)
| Requested (r : Settled ApiResponse) (* request(options) settles *).

Definition external {X} (e : AwaitE X) (a : Answer) : option X :=
  match e in AwaitE X return option X with
  | GetIDToken _ => match a with IdToken r => Some r | _ => None end
  | Fetch _ => match a with Fetched r => Some r | _ => None end
  | SetTimeout _ => match a with Fired => Some tt | _ => None end
  | Request _ => match a with Requested r => Some r | _ => None end
  | Promise _ => None
  | ResponseJson _ => None
  end.

(** What the event loop itself delivers: a settled promise of the store,
    the parsed body of a response. *)
Definition internal (ps : list (option (Settled string))) {X} (e : AwaitE X)
  : option X :=
  match e in AwaitE X return option X with
  | Promise p => mjoin (ps !! p)
  | ResponseJson r => Some (json r)
  | _ => None
  end.

Definition setTask (i : nat) (t : option Task) (s : State) : State :=
  setTasks (<[i := t]> (tasks s)) s.

Definition record (c : nat) (r : Settled Value) (s : State) : State :=
  setResults (results s ++ [(c, r)]) s.

(** Resume task [i] with the value [deliver] has for what it awaits. *)
Definition advance (deliver : forall X, AwaitE X -> option X)
    (i : nat) (t : Task) (s : State) : option State :=
  match t with
  | TaskOfPromise p e k =>
      x ← deliver _ e;
      let '(s', r) := run (k x) s in
      Some match r with
           | Finished v => setTask i None (settle p v s')
           | Waiting e' k' => setTask i (Some (TaskOfPromise p e' k')) s'
           end
  | TaskOfCaller c e k =>
      x ← deliver _ e;
      let '(s', r) := run (k x) s in
      Some match r with
           | Finished v => setTask i None (record c v s')
           | Waiting e' k' => setTask i (Some (TaskOfCaller c e' k')) s'
           end
  end.

(** The public interface. *)
Inductive Api :=
| GetToken
| CreateOctokit
| ClientRequest (client : Client) (options : RequestOptions)
| ResetInstance.

Definition program (a : Api) : Async Value :=
  match a with
  | GetToken => let! tok := getToken in Ret (VToken tok)
  | CreateOctokit => let! o := createOctokit in Ret (VClients o)
  | ClientRequest client options =>
      let! r := clientRequest client options in Ret (VResponse r)
  | ResetInstance => resetInstance ;; Ret VUnit
  end.

(** One turn of the event loop. *)
Inductive Label :=
| Call (a : Api)                 (* a consumer calls the interface *)
| Resume (i : nat) (a : Answer)  (* the outside world answers task [i] *)
| Wake (i : nat)                 (* task [i] gets what the loop has for it *)
| Tick (now : Z)                 (* time passes *)
| SetEnv (v : option string)     (* the override variable is changed *).

Definition step (l : Label) (s : State) : option State :=
  match l with
  | Call a =>
      let c := calls s in
      let '(s', r) := run (program a) (setCalls (S c) s) in
      Some match r with
           | Finished v => record c v s'
           | Waiting e k => park (TaskOfCaller c e k) s'
           end
  | Resume i a =>
      t ← mjoin (tasks s !! i);
      advance (fun X e => external e a) i t s
  | Wake i =>
      t ← mjoin (tasks s !! i);
      advance (fun X e => internal (promises s) e) i t s
  | Tick now => Some (setClock now s)
  | SetEnv v => Some (setOverride v s)
  end.

Fixpoint steps (ls : list Label) (s : State) : option State :=
  match ls with
  | [] => Some s
  | l :: ls' => s' ← step l s; steps ls' s'
  end.

(** A fresh process: nothing cached, nothing in flight. *)
Definition boot (env : option string) (now : Z) : State :=
  mkState (mkManager None None None) env now [] [] 0 [] [].

(** ** Executions of one call

    [path t π r]: the call [t] can perform the observations [π], in this
    order, and settle to [r].  Every effect is observed together with the
    value it produced; nothing is assumed about these values, so whatever
    the other calls and the outside world do between two steps of [t] is
    covered. *)

Inductive Obs :=
| Did {X} (e : SyncE X) (x : X)
| Got {X} (e : AwaitE X) (x : X)
| Called (p : pid).

Fixpoint path {A} (t : Async A) (π : list Obs) (r : Settled A) : Prop :=
  match t with
  | Ret a => π = [] ∧ r = Fulfilled a
  | Throw e => π = [] ∧ r = Rejected e
  | Do e k => ∃ x π', π = Did e x :: π' ∧ path (k x) π' r
  | Await e k => ∃ x π', π = Got e x :: π' ∧ path (k x) π' r
  | CallAsync _ k => ∃ p π', π = Called p :: π' ∧ path (k p) π' r
  end.

(** [console] output as an observation *)
Definition said (l : LogLine) : Obs := Did (Console l) tt.

(** A timer that has fired *)
Definition slept (ms : Z) : Obs := Got (SetTimeout ms) tt.

Definition isWrite (o : Obs) : bool :=
  match o with
  | Did (WriteField _ _) _ => true
  | _ => false
  end.

Definition isAwait (o : Obs) : bool :=
  match o with
  | Got _ _ => true
  | _ => false
  end.

Definition isCall (o : Obs) : bool :=
  match o with
  | Called _ => true
  | _ => false
  end.

Definition requestOf (o : Obs) : option RequestOptions :=
  match o with
  | Got (Request opts) _ => Some opts
  | _ => None
  end.

Definition isFetch (o : Obs) : bool :=
  match o with
  | Got (Fetch _) _ => true
  | _ => false
  end.

Definition isGetIDToken (o : Obs) : bool :=
  match o with
  | Got (GetIDToken _) _ => true
  | _ => false
  end.

(** ** The retry executor *)

Section RetrySpec.
Context {T : Type}.
Variables (max maxDelay factor : Z).

Definition nextDelay (delay : Z) : Z := Z.min (delay * factor) maxDelay.

(** What one run of the executor looks like from outside, given what each
    invocation of the operation did: [failed] lists the failed attempts that
    were followed by another one (each with its own observations and the
    value it threw), [last] and [lastr] are the observations and the outcome
    of the final invocation. *)
Fixpoint retryLayout (attempt delay : Z) (failed : list (list Obs * Thrown))
    (last : list Obs) (lastr : Settled T) : list Obs :=
  match failed with
  | [] =>
      said (LogAttempt attempt max) :: last ++
      match lastr with
      | Fulfilled _ => []
      | Rejected e =>
          [said (LogAttemptFailed attempt (message (asError e)));
           said (LogOperationFailed max)]
      end
  | (π, e) :: rest =>
      said (LogAttempt attempt max) :: π ++
      [said (LogAttemptFailed attempt (message (asError e)));
       said (LogRetrying delay);
       slept delay] ++
      retryLayout (attempt + 1) (nextDelay delay) rest last lastr
  end.

Definition retryResult (lastr : Settled T) : Settled T :=
  match lastr with
  | Fulfilled a => Fulfilled a
  | Rejected e => Rejected (Err (asError e))
  end.

Definition isRejected {A} (r : Settled A) : Prop :=
  match r with
  | Fulfilled _ => False
  | Rejected _ => True
  end.

Variable operation : Async T.

Definition failedAttempt (f : list Obs * Thrown) : Prop :=
  path operation (fst f) (Rejected (snd f)).
End RetrySpec.

(** ** The exchange endpoint *)

(** The request [exchangeForAppToken] sends. *)
Definition exchangeRequest (oidcToken : string) : FetchRequest :=
  mkFetch exchangeUrl "POST" ("Bearer " ++ oidcToken)%string.

(** [appTokenData.token || appTokenData.app_token], when it is a non-empty
    string: the first non-empty one of the two fields. *)
Definition firstNonEmpty (body : JsonBody) : option string :=
  match body_token body with
  | Some t => if truthy t then Some t else
                match body_app_token body with
                | Some t' => if truthy t' then Some t' else None
                | None => None
                end
  | None => match body_app_token body with
            | Some t' => if truthy t' then Some t' else None
            | None => None
            end
  end.

(** ** The refresh coordinator and the request hook, seen from outside *)

(** What one call of [refreshToken] does, given the [refreshPromise] it
    finds: it joins the promise in flight, or it calls [doRefresh] (whose
    promise is [p]), publishes the promise, awaits it and clears the field
    again.  [out] is what the awaited promise settles to. *)
Definition refreshObs (inFlight : option pid) (p : pid) (out : Settled string)
  : list Obs :=
  match inFlight with
  | Some q =>
      [Did (ReadField FRefreshPromise) (Some q);
       said LogWaitingForRefresh;
       Got (Promise q) out]
  | None =>
      [Did (ReadField FRefreshPromise) None;
       Called p;
       Did (WriteField FRefreshPromise (Some p)) tt;
       Got (Promise p) out;
       Did (WriteField FRefreshPromise None) tt]
  end.

(** [options] after [options.headers.authorization = `token ${newToken}`] *)
Definition withToken (options : RequestOptions) (newToken : string)
  : RequestOptions :=
  mkOptions (route options) ("token " ++ newToken)%string.

(** The requests a call has issued, in order. *)
Definition requests (π : list Obs) : list RequestOptions := omap requestOf π.

(** A call that writes none of the fields of [this]. *)
Definition noWrites (π : list Obs) : Prop := Forall (fun o => isWrite o = false) π.

(** The last three steps of a successful [doRefresh]: both fields of the
    token record are assigned, with nothing but [Date.now()] in between. *)
Definition recordWritten (tok : string) (now lifetime : Z) : list Obs :=
  [Did (WriteField FToken (Some tok)) tt;
   Did DateNow now;
   Did (WriteField FTokenExpiry (Some (now + lifetime))) tt].

(** What [doRefresh] throws when a step of the exchange has failed with
    [error]. *)
Definition refreshFailed (error : Thrown) : Thrown :=
  Err (newError ("Token refresh failed: " ++ toString error)%string).

(** ** Notions used to state the properties of the event loop *)

(** The validity test of [isTokenValid] as a function of the fields and of
    the time. *)
Definition tokenValid (m : Manager) (now : Z) : bool :=
  match token m, tokenExpiry m with
  | Some t, Some expiry => truthy t && (now <? expiry - expiryBuffer)
  | _, _ => false
  end.

(** The validity predicate in the words of the specification:
    [valid(now) <-> token != null /\ now < expiresAt - buffer], with the
    fixed buffer of five minutes. *)
Definition specValid (m : Manager) (now : Z) : Prop :=
  ∃ t expiresAt,
    token m = Some t ∧ tokenExpiry m = Some expiresAt ∧
    now < expiresAt - 5 * 60 * 1000.

Definition mapSettled {A B} (f : A -> B) (r : Settled A) : Settled B :=
  match r with
  | Fulfilled a => Fulfilled (f a)
  | Rejected e => Rejected e
  end.

(** No refresh is in flight. *)
Definition idle (s : State) : Prop := refreshPromise (this s) = None.

(** No call is suspended. *)
Definition quiescent (s : State) : Prop := Forall (fun t => t = None) (tasks s).


(** The states the process can be in: whatever the consumers and the outside
    world have done since it started. *)
Definition reachable (s : State) : Prop :=
  ∃ env now ls, steps ls (boot env now) = Some s.

(** Sync effects that leave [refreshPromise] alone. *)
Definition keepsRefreshPromise {X} (e : SyncE X) : Prop :=
  match e with
  | WriteField FRefreshPromise _ => False
  | _ => True
  end.

(** A computation that calls no async function and never assigns
    [refreshPromise]: the body of [doRefresh] is one. *)
Fixpoint worker {A} (t : Async A) : Prop :=
  match t with
  | Ret _ => True
  | Throw _ => True
  | Do e k => keepsRefreshPromise e ∧ ∀ x, worker (k x)
  | Await _ k => ∀ x, worker (k x)
  | CallAsync _ _ => False
  end.

(** What a turn of a [worker] leaves as it was. *)
Definition sameShape (s s' : State) : Prop :=
  promises s' = promises s ∧ tasks s' = tasks s ∧ results s' = results s ∧
  calls s' = calls s ∧ refreshPromise (this s') = refreshPromise (this s).

(** ** An invariant of the cached token

    The token field is only ever assigned a non-empty string, or [null]. *)

Definition tokenOk (v : option string) : Prop :=
  match v with
  | Some t => truthy t = true
  | None => True
  end.

Definition goodSync {X} (e : SyncE X) : Prop :=
  match e with
  | WriteField f v =>
      match f in Field X return X -> Prop with
      | FToken => tokenOk
      | _ => fun _ => True
      end v
  | _ => True
  end.

(** [ensures t Q]: every assignment [t] and the async functions it calls can
    make to the token field is [tokenOk], and [t] settles only to outcomes
    that satisfy [Q]. *)
Fixpoint ensures {A : Type} (t : Async A) (Q : Settled A -> Prop) : Prop :=
  match t with
  | Ret a => Q (Fulfilled a)
  | Throw e => Q (Rejected e)
  | Do e k => goodSync e ∧ ∀ x, ensures (k x) Q
  | Await _ k => ∀ x, ensures (k x) Q
  | CallAsync body k => ensures body (fun _ => True) ∧ ∀ p, ensures (k p) Q
  end.

Definition taskOk (t : option Task) : Prop :=
  match t with
  | Some (TaskOfPromise _ _ k) => ∀ x, ensures (k x) (fun _ => True)
  | Some (TaskOfCaller _ _ k) => ∀ x, ensures (k x) (fun _ => True)
  | None => True
  end.

Definition stateOk (s : State) : Prop :=
  tokenOk (token (this s)) ∧ Forall taskOk (tasks s).

(** An outcome that, when it is a value, is a non-empty string. *)
Definition truthyOutcome (r : Settled string) : Prop :=
  match r with
  | Fulfilled t => truthy t = true
  | Rejected _ => True
  end.

(** ** Callers of a refresh *)

(** The rest of a call that awaits a refresh it has joined: it takes the
    outcome of the promise and is done, without touching anything. *)
Definition joinerRelay (k : Settled string -> Async Value) : Prop :=
  ∀ out s, run (k out) s = (s, Finished (mapSettled VToken out)).

(** The rest of the call that started the refresh: it takes the outcome of
    the promise, sets [refreshPromise] back to [null] and is done. *)
Definition ownerRelay (k : Settled string -> Async Value) : Prop :=
  ∀ out s,
    run (k out) s =
      (setThis (setField FRefreshPromise None (this s)) s,
       Finished (mapSettled VToken out)).

(** The state in which [refreshToken] leaves a caller that has started a
    refresh: the promise [p] of [doRefresh] is published and awaited. *)
Definition published (p : pid) (s : State) : State :=
  emit (Awaited (Promise p))
    (setThis (setField FRefreshPromise (Some p) (this s)) s).

(** The state after the first turn of a [doRefresh] that goes to the
    identity provider: its promise is pending and the rest of it, [k], is
    parked. *)
Definition exchangeStarted (k : Settled string -> Async string) (s : State)
  : State :=
  park (TaskOfPromise (length (promises s)) (GetIDToken oidcAudience) k)
    (emit (Awaited (GetIDToken oidcAudience))
       (emit (Logged (LogAttempt 1 3))
          (emit (Logged LogRefreshing)
             (setPromises (promises s ++ [None]) s)))).

(** The state after a [doRefresh] that has adopted the override
    [provided]: its promise is fulfilled, the token record is written. *)
Definition overrideAdopted (provided : string) (s : State) : State :=
  settle (length (promises s)) (Fulfilled provided)
    (setThis (mkManager (Some provided) (Some (clock s + overrideLifetimeMs))
                (refreshPromise (this s)))
       (emit (Logged LogUsingProvided)
          (emit (Logged LogRefreshing)
             (setPromises (promises s ++ [None]) s)))).

(** ** One refresh and the calls that share it *)


Section Flight.
(** [p]: the promise of the refresh; [lo]: the call that started it;
    [w]: where the rest of [doRefresh] is parked while it is suspended;
    [base]: the results that were there before. *)
Variables (p : pid) (lo w : nat) (base : list (nat * Settled Value)).





End Flight.

(** ** The scenario of the test suite

    The identity provider answers ["mock-oidc-token"], the exchange endpoint
    answers [200] with [{ token: "mock-app-token" }]; five calls of
    [getToken] are made back to back. *)
Definition mockResponse : Response :=
  mkResponse true 200 "OK" (Fulfilled (mkBody None (Some "mock-app-token") None)).

Definition fiveCallers : list Label :=
  repeat (Call GetToken) 5 ++
  [Resume 0 (IdToken (Fulfilled "mock-oidc-token"));
   Resume 0 (Fetched (Fulfilled mockResponse));
   Wake 0;
   Wake 1; Wake 2; Wake 3; Wake 4; Wake 5].

Definition isFetchEvent (ev : Event) : bool :=
  match ev with
  | Awaited (Fetch _) => true
  | _ => false
  end.

(** The number of requests sent to the exchange endpoint. *)
Definition fetches (tr : list Event) : nat :=
  length (List.filter isFetchEvent tr).

(** The state at the end of that scenario: the token is cached, nothing is
    suspended. *)
Definition warmState : State :=
  Eval vm_compute in
    match steps fiveCallers (boot None 1000) with
    | Some s => s
    | None => boot None 1000
    end.

(** A request through the GraphQL client with a token that has gone
    stale: the API answers 401 both times. *)
Definition staleRequest : RequestOptions :=
  mkOptions "POST /graphql" "token stale".

Definition unauthorized : Thrown :=
  Err (mkError "HttpError" "Bad credentials" (Some 401)).

Definition staleClient : list Label :=
  [Call (ClientRequest GraphQL staleRequest);
   Resume 0 (Requested (Rejected unauthorized));
   Resume 1 (IdToken (Fulfilled "mock-oidc-token"));
   Resume 1 (Fetched (Fulfilled mockResponse));
   Wake 1;
   Wake 0;
   Resume 0 (Requested (Rejected unauthorized))].

(** The same answer to a request through the REST client. *)
Definition staleRestRequest : RequestOptions :=
  mkOptions "GET /user" "token stale".

Definition staleRestClient : list Label :=
  [Call (ClientRequest Rest staleRestRequest);
   Resume 0 (Requested (Rejected unauthorized))].

(** The requests sent to the API, in order. *)
Definition requested (tr : list Event) : list RequestOptions :=
  omap (fun ev => match ev with
                  | Awaited (Request o) => Some o
                  | _ => None
                  end) tr.

(** ** Turns and executions

    What a list of observations has written to the fields. *)
Fixpoint written (π : list Obs) (m : Manager) : Manager :=
  match π with
  | [] => m
  | Did e _ :: π' =>
      written π' match e with
                 | WriteField f v => setField f v m
                 | _ => m
                 end
  | _ :: π' => written π' m
  end.

(** ** The token record is whole between turns *)

Definition isSome {X} (o : option X) : bool :=
  match o with
  | Some _ => true
  | None => false
  end.

(** Both fields of the record are set, or both are [null]. *)
Definition recordWhole (m : Manager) : Prop :=
  isSome (token m) = isSome (tokenExpiry m).

(** Where a turn is with the record: [None], it is whole; [Some b], the
    token has been assigned ([b]: to a string) and the expiry is to follow. *)
Definition Pending := option bool.

Definition recordAt (pend : Pending) (m : Manager) : Prop :=
  match pend with
  | None => recordWhole m
  | Some b => isSome (token m) = b
  end.

(** The effect of a sync effect on this: [None] when it would break the
    discipline (a second assignment of the token, an expiry without a token
    before it or of the other kind). *)
Definition pendingAfter {X} (e : SyncE X) (pend : Pending) : option Pending :=
  match e with
  | WriteField f v =>
      match f in Field X return X -> option Pending with
      | FToken => fun v =>
          match pend with
          | None => Some (Some (isSome v))
          | Some _ => None
          end
      | FTokenExpiry => fun v =>
          match pend with
          | Some b => if Bool.eqb b (isSome v) then Some None else None
          | None => None
          end
      | FRefreshPromise => fun _ => Some pend
      end v
  | _ => Some pend
  end.

(** [whole pend t]: started at [pend], [t] assigns the two fields of the
    record only in pairs, token first, within one turn: it reaches a
    suspension point, a call of an async function or its end only with the
    record whole. *)
Fixpoint whole {A : Type} (pend : Pending) (t : Async A) : Prop :=
  match t with
  | Ret _ => pend = None
  | Throw _ => pend = None
  | Do e k =>
      match pendingAfter e pend with
      | Some pend' => ∀ x, whole pend' (k x)
      | None => False
      end
  | Await _ k => pend = None ∧ ∀ x, whole None (k x)
  | CallAsync body k => pend = None ∧ whole None body ∧ ∀ p, whole None (k p)
  end.

Definition taskWhole (t : option Task) : Prop :=
  match t with
  | Some (TaskOfPromise _ _ k) => ∀ x, whole None (k x)
  | Some (TaskOfCaller _ _ k) => ∀ x, whole None (k x)
  | None => True
  end.

(** ** What a call asks of the outside world *)

Definition sleepOf (o : Obs) : option Z :=
  match o with
  | Got (SetTimeout ms) _ => Some ms
  | _ => None
  end.

(** The timers a call has waited for, in order (ms). *)
Definition sleeps (π : list Obs) : list Z := omap sleepOf π.

Definition fetchOf (o : Obs) : option FetchRequest :=
  match o with
  | Got (Fetch r) _ => Some r
  | _ => None
  end.

(** The requests a call has sent with [fetch], in order. *)
Definition fetched (π : list Obs) : list FetchRequest := omap fetchOf π.

Definition idTokenOf (o : Obs) : option string :=
  match o with
  | Got (GetIDToken audience) _ => Some audience
  | _ => None
  end.

(** The audiences a call has asked the identity provider a token for. *)
Definition idTokensAsked (π : list Obs) : list string := omap idTokenOf π.

Definition clockOf (o : Obs) : option Z :=
  match o with
  | Did DateNow now => Some now
  | _ => None
  end.

(** The values [Date.now()] has returned to a call. *)
Definition clockReads (π : list Obs) : list Z := omap clockOf π.

(** The waits of the retry executor: [n] of them, the first one [delay],
    each next one [min (delay * factor) maxDelay]. *)
Fixpoint backoff (maxDelay factor delay : Z) (n : nat) : list Z :=
  match n with
  | O => []
  | S n' => delay :: backoff maxDelay factor (nextDelay maxDelay factor delay) n'
  end.

Definition totalMs (l : list Z) : Z := fold_right Z.add 0 l.

(** An operation that sets no timer of its own. *)
Definition neverSleeps {T} (operation : Async T) : Prop :=
  ∀ π r, path operation π r → sleeps π = [].

(** ** Two refreshes, observed

    In a workflow without the [id-token: write] permission the identity
    provider fails every time. *)
Definition oidcDenied : Thrown :=
  Plain "Error: Unable to get ACTIONS_ID_TOKEN_REQUEST_URL env variable" None.

Definition deniedRefresh : list Obs :=
  [said LogRefreshing; Did EnvOverride None;
   said (LogAttempt 1 3);
   Got (GetIDToken oidcAudience) (Rejected oidcDenied);
   said (LogOidcFailed oidcDenied);
   said (LogAttemptFailed 1 oidcHint); said (LogRetrying 5000); slept 5000;
   said (LogAttempt 2 3);
   Got (GetIDToken oidcAudience) (Rejected oidcDenied);
   said (LogOidcFailed oidcDenied);
   said (LogAttemptFailed 2 oidcHint); said (LogRetrying 10000); slept 10000;
   said (LogAttempt 3 3);
   Got (GetIDToken oidcAudience) (Rejected oidcDenied);
   said (LogOidcFailed oidcDenied);
   said (LogAttemptFailed 3 oidcHint); said (LogOperationFailed 3);
   said (LogRefreshFailed (Err (newError oidcHint)))].

(** The exchange endpoint cannot be reached at first and answers the
    second request. *)
Definition exchangedRefresh : list Obs :=
  [said LogRefreshing; Did EnvOverride None;
   said (LogAttempt 1 3);
   Got (GetIDToken oidcAudience) (Fulfilled "mock-oidc-token");
   said LogOidcObtained;
   said (LogAttempt 1 3);
   Got (Fetch (exchangeRequest "mock-oidc-token")) (Rejected (Plain "ECONNRESET" None));
   said (LogAttemptFailed 1 "ECONNRESET"); said (LogRetrying 5000); slept 5000;
   said (LogAttempt 2 3);
   Got (Fetch (exchangeRequest "mock-oidc-token")) (Fulfilled mockResponse);
   Got (ResponseJson mockResponse)
     (Fulfilled (mkBody None (Some "mock-app-token") None));
   said LogAppObtained;
   Did (WriteField FToken (Some "mock-app-token")) tt;
   Did DateNow 1000;
   Did (WriteField FTokenExpiry (Some (1000 + TOKEN_LIFETIME_MS))) tt].

(** ** The singleton

    The class itself: its static field [instance], a reference to a
    [TokenManager] object or [null], and the objects that
    [new TokenManager()] has constructed, by reference. *)
Record Class := mkClass {
  instance : option nat;
  objects : list Manager
}.

(** [new TokenManager()]: the field initialisers and an empty constructor. *)
Definition newTokenManager : Manager := mkManager None None None.

Definition getInstance (c : Class) : Class * nat :=
  match instance c with
  | Some ref => (c, ref)
  | None =>
      let ref := length (objects c) in
      (mkClass (Some ref) (objects c ++ [newTokenManager]), ref)
  end.

(** The class as the module defines it, before its last line runs. *)
Definition classLoaded : Class := mkClass None [].

(** [export const tokenManager = TokenManager.getInstance()] *)
Definition tokenManager : nat := (getInstance classLoaded).2.

(** What the rest of the program can do with the class: call
    [getInstance], or call a method of an object, which assigns its fields. *)
Inductive ClassOp :=
| OpGetInstance
| OpAssign (ref : nat) (m : Manager).

(** The references the calls of [getInstance] among [ops] return, in order,
    and the class afterwards. *)
Fixpoint classRun (ops : list ClassOp) (c : Class) : Class * list nat :=
  match ops with
  | [] => (c, [])
  | OpGetInstance :: ops' =>
      let '(c1, ref) := getInstance c in
      let '(c2, refs) := classRun ops' c1 in
      (c2, ref :: refs)
  | OpAssign ref m :: ops' =>
      classRun ops' (mkClass (instance c) (<[ref := m]> (objects c)))
  end.

(** ** The entry point: [setupGitHubToken] *)

(** What the entry point asks of its host. *)
Inductive HostE : Type -> Type :=
| ConsoleLog (line : string) : HostE unit
| SetOutput (name value : string) : HostE unit   (* core.setOutput *)
| SetFailed (message : string) : HostE unit      (* core.setFailed *)
| ProcessExit (code : Z) : HostE Empty_set.      (* process.exit: of type never *)

Inductive Script (A : Type) : Type :=
| SRet (a : A)
| SThrow (e : Thrown)
| SDo {X : Type} (e : HostE X) (k : X -> Script A)
| SGetToken (k : Settled string -> Script A).
    (* await tokenManager.getToken(), continued with what it settles to *)
Arguments SRet {A} a.
Arguments SThrow {A} e.
Arguments SDo {A X} e k.
Arguments SGetToken {A} k.

(** [try { t } catch (error) { h error }] *)
Fixpoint scriptCatch {A} (t : Script A) (h : Thrown -> Script A) : Script A :=
  match t with
  | SRet a => SRet a
  | SThrow e => h e
  | SDo e k => SDo e (fun x => scriptCatch (k x) h)
  | SGetToken k => SGetToken (fun r => scriptCatch (k r) h)
  end.

(** The line feed of ["\n"] *)
Definition newline : string := String (Ascii.ascii_of_nat 10) EmptyString.

(** The template literal passed to [core.setFailed] *)
Definition setupFailureMessage (error : Thrown) : string :=
  ("Failed to setup GitHub token: " ++ toString error ++ "." ++ newline ++ newline ++
   "If you instead wish to use this action with a custom GitHub token or custom GitHub app, provide a `github_token` in the `uses` section of the app in your workflow yml file.")%string.

Definition setupGitHubToken : Script string :=
  scriptCatch
    (SGetToken (fun r =>
       match r with
       | Fulfilled token =>
           SDo (ConsoleLog "GitHub token successfully obtained") (fun _ =>
           SDo (SetOutput "GITHUB_TOKEN" token) (fun _ =>
           SRet token))
       | Rejected error => SThrow error
       end))
    (fun error =>
       SDo (SetFailed (setupFailureMessage error)) (fun _ =>
       SDo (ProcessExit 1) (fun never : Empty_set => match never with end))).

(** What the host gives back to the script, or the exit code with which it
    ends the process. *)
Definition hostAnswer {X} (e : HostE X) : X + Z :=
  match e in HostE X return X + Z with
  | ConsoleLog _ => inl tt
  | SetOutput _ _ => inl tt
  | SetFailed _ => inl tt
  | ProcessExit code => inr code
  end.

Inductive HostEvent :=
| Hosted {X} (e : HostE X).

(** How a run of the script ends. *)
Inductive Ending (A : Type) :=
| Returned (a : A)
| Threw (e : Thrown)
| Exited (code : Z).
Arguments Returned {A} a.
Arguments Threw {A} e.
Arguments Exited {A} code.

(** Run the script, given what its call of [getToken] settles to: what it
    has asked of the host, in order, and how it ends. *)
Fixpoint execute {A} (t : Script A) (answer : Settled string)
  : list HostEvent * Ending A :=
  match t with
  | SRet a => ([], Returned a)
  | SThrow e => ([], Threw e)
  | SDo e k =>
      match hostAnswer e with
      | inl x => let '(evs, r) := execute (k x) answer in (Hosted e :: evs, r)
      | inr code => ([Hosted e], Exited code)
      end
  | SGetToken k => execute (k answer) answer
  end.

(** A fresh process on which one [getToken] has been called: its refresh
    is in flight, waiting for the identity provider. *)
Definition refreshing : State :=
  Eval vm_compute in
    match steps [Call GetToken] (boot None 0) with
    | Some s => s
    | None => boot None 0
    end.

(** What follows for that one caller when the exchange succeeds at once. *)
Definition exchangeAnswers : list Label :=
  [Resume 0 (IdToken (Fulfilled "mock-oidc-token"));
   Resume 0 (Fetched (Fulfilled mockResponse));
   Wake 0;
   Wake 1].

Definition refreshed : State :=
  Eval vm_compute in
    match steps exchangeAnswers refreshing with
    | Some s => s
    | None => refreshing
    end.

(** ** Where the outcome of a refresh comes from *)

(** An outcome of a complete execution of [doRefresh]. *)
Definition refreshOutcome (out : Settled string) : Prop :=
  ∃ π, path doRefresh π out.

(** What the loop can hand to a suspended call: for a promise, the outcome
    of a refresh; for the rest, anything. *)
Definition delivered {X} (e : AwaitE X) : X → Prop :=
  match e in AwaitE X return X → Prop with
  | Promise _ => refreshOutcome
  | _ => fun _ => True
  end.

(** [traced t Q]: the only async function [t] calls is [doRefresh], and,
    handed outcomes of refreshes for the promises it awaits, [t] settles only
    to outcomes that satisfy [Q]. *)
Fixpoint traced {A : Type} (t : Async A) (Q : Settled A → Prop) : Prop :=
  match t with
  | Ret a => Q (Fulfilled a)
  | Throw e => Q (Rejected e)
  | Do _ k => ∀ x, traced (k x) Q
  | Await e k => ∀ x, delivered e x → traced (k x) Q
  | CallAsync body k => body = doRefresh ∧ ∀ p, traced (k p) Q
  end.

(** The rest of a [doRefresh] that is suspended on [e]: put after what it
    has done so far, its executions are executions of [doRefresh]. *)
Definition restOfRefresh {X} (e : AwaitE X) (k : X → Async string) : Prop :=
  (∀ x, worker (k x)) ∧
  ∃ π0, ∀ x π r, path (k x) π r → path doRefresh (π0 ++ Got e x :: π) r.

(** [Qof c] is what the call number [c] of the interface may settle to;
    [n] bounds the numbers of the calls made so far. *)
Definition taskTraced (Qof : nat → Settled Value → Prop) (n : nat)
    (t : option Task) : Prop :=
  match t with
  | Some (TaskOfPromise _ e k) => restOfRefresh e k
  | Some (TaskOfCaller c e k) =>
      (c < n)%nat ∧ ∀ x, delivered e x → traced (k x) (Qof c)
  | None => True
  end.

Definition Traced (Qof : nat → Settled Value → Prop) (s : State) : Prop :=
  (∀ p out, promises s !! p = Some (Some out) → refreshOutcome out) ∧
  Forall (taskTraced Qof (calls s)) (tasks s) ∧
  (∀ c r, (c, r) ∈ results s → (c < calls s)%nat ∧ Qof c r).

(** What a refresh can settle to, in the terms of its caller: a non-empty
    token, or the [Error] that wraps the cause of the failure. *)
Definition goodOutcome (out : Settled string) : Prop :=
  match out with
  | Fulfilled tok => truthy tok = true
  | Rejected e => ∃ cause : JsError, e = refreshFailed (Err cause)
  end.

(** What a call of [getToken] can settle to. *)
Definition tokenResult (r : Settled Value) : Prop :=
  ∃ out, r = mapSettled VToken out ∧ goodOutcome out.

(** ** The work of a refresh, as the trace shows it *)










Section Account.
(** [p]: the promise of the refresh; [w]: where the rest of [doRefresh] is
    parked while it is suspended; [tr0]: the work in the trace before the
    refresh started. *)
Variables (p : pid) (w : nat) (tr0 : list Event).

End Account.

(** * Properties *)

Section PathLemmas.
Lemma path_bind {A B} (t : Async A) (f : A -> Async B) π r :
  path (bind t f) π r ↔
    (∃ e, path t π (Rejected e) ∧ r = Rejected e) ∨
    (∃ a π1 π2, path t π1 (Fulfilled a) ∧ path (f a) π2 r ∧ π = π1 ++ π2).
Proof.
  revert B f π r.
  induction t as [A a|A e|A X e k IH|A X e k IH|A body _ k IH];
    intros B f π r; simpl.
  - split.
    + intros H. right. exists a, [], π. auto.
    + intros [(e & [_ H] & _)|(a' & π1 & π2 & [-> H] & Hf & ->)].
      * discriminate.
      * injection H as ->. exact Hf.
  - split.
    + intros [-> ->]. left. eauto.
    + intros [(e' & [-> H] & ->)|(a & π1 & π2 & [_ H] & _)].
      * injection H as ->. auto.
      * discriminate.
  - split.
    + intros (x & π' & -> & H). apply IH in H as [(e' & H & ->)|(a & π1 & π2 & H1 & H2 & ->)].
      * left. eauto 10.
      * right. exists a, (Did e x :: π1), π2. eauto 10.
    + intros [(e' & (x & π' & -> & H) & ->)|(a & π1 & π2 & (x & π' & -> & H) & H2 & ->)].
      * exists x, π'. split; [done|]. apply IH. left. eauto.
      * exists x, (π' ++ π2). split; [done|]. apply IH. right. eauto 10.
  - split.
    + intros (x & π' & -> & H). apply IH in H as [(e' & H & ->)|(a & π1 & π2 & H1 & H2 & ->)].
      * left. eauto 10.
      * right. exists a, (Got e x :: π1), π2. eauto 10.
    + intros [(e' & (x & π' & -> & H) & ->)|(a & π1 & π2 & (x & π' & -> & H) & H2 & ->)].
      * exists x, π'. split; [done|]. apply IH. left. eauto.
      * exists x, (π' ++ π2). split; [done|]. apply IH. right. eauto 10.
  - split.
    + intros (x & π' & -> & H). apply IH in H as [(e' & H & ->)|(a & π1 & π2 & H1 & H2 & ->)].
      * left. eauto 10.
      * right. exists a, (Called x :: π1), π2. eauto 10.
    + intros [(e' & (x & π' & -> & H) & ->)|(a & π1 & π2 & (x & π' & -> & H) & H2 & ->)].
      * exists x, π'. split; [done|]. apply IH. left. eauto.
      * exists x, (π' ++ π2). split; [done|]. apply IH. right. eauto 10.
Qed.

Lemma path_tryCatch {A} (t : Async A) (h : Thrown -> Async A) π r :
  path (tryCatch t h) π r ↔
    (∃ a, path t π (Fulfilled a) ∧ r = Fulfilled a) ∨
    (∃ e π1 π2, path t π1 (Rejected e) ∧ path (h e) π2 r ∧ π = π1 ++ π2).
Proof.
  revert h π r.
  induction t as [A a|A e|A X e k IH|A X e k IH|A body _ k IH];
    intros h π r; simpl.
  - split.
    + intros [-> ->]. left. eauto.
    + intros [(a' & [-> H] & ->)|(e & π1 & π2 & [_ H] & _)].
      * injection H as ->. auto.
      * discriminate.
  - split.
    + intros H. right. exists e, [], π. auto.
    + intros [(a & [_ H] & _)|(e' & π1 & π2 & [-> H] & Hf & ->)].
      * discriminate.
      * injection H as ->. exact Hf.
  - split.
    + intros (x & π' & -> & H). apply IH in H as [(a & H & ->)|(e' & π1 & π2 & H1 & H2 & ->)].
      * left. eauto 10.
      * right. exists e', (Did e x :: π1), π2. eauto 10.
    + intros [(a & (x & π' & -> & H) & ->)|(e' & π1 & π2 & (x & π' & -> & H) & H2 & ->)].
      * exists x, π'. split; [done|]. apply IH. left. eauto.
      * exists x, (π' ++ π2). split; [done|]. apply IH. right. eauto 10.
  - split.
    + intros (x & π' & -> & H). apply IH in H as [(a & H & ->)|(e' & π1 & π2 & H1 & H2 & ->)].
      * left. eauto 10.
      * right. exists e', (Got e x :: π1), π2. eauto 10.
    + intros [(a & (x & π' & -> & H) & ->)|(e' & π1 & π2 & (x & π' & -> & H) & H2 & ->)].
      * exists x, π'. split; [done|]. apply IH. left. eauto.
      * exists x, (π' ++ π2). split; [done|]. apply IH. right. eauto 10.
  - split.
    + intros (x & π' & -> & H). apply IH in H as [(a & H & ->)|(e' & π1 & π2 & H1 & H2 & ->)].
      * left. eauto 10.
      * right. exists e', (Called x :: π1), π2. eauto 10.
    + intros [(a & (x & π' & -> & H) & ->)|(e' & π1 & π2 & (x & π' & -> & H) & H2 & ->)].
      * exists x, π'. split; [done|]. apply IH. left. eauto.
      * exists x, (π' ++ π2). split; [done|]. apply IH. right. eauto 10.
Qed.
End PathLemmas.

Lemma path_log {A} (l : LogLine) (t : Async A) π r :
  path (log l ;; t) π r ↔ ∃ π', π = said l :: π' ∧ path t π' r.
Proof.
  simpl. split.
  - intros ([] & π' & -> & H). eauto.
  - intros (π' & -> & H). exists tt, π'. auto.
Qed.

Lemma path_sleep {A} (ms : Z) (t : Async A) π r :
  path (sleep ms ;; t) π r ↔ ∃ π', π = slept ms :: π' ∧ path t π' r.
Proof.
  simpl. split.
  - intros ([] & π' & -> & H). eauto.
  - intros (π' & -> & H). exists tt, π'. auto.
Qed.

Section RetryLemmas.
Context {T : Type}.
Variables (max maxDelay factor : Z).
Variable operation : Async T.

Lemma retryLoop_past fuel attempt delay lastError :
  max < attempt →
  retryLoop operation max maxDelay factor fuel attempt delay lastError
  = retryExhausted max lastError.
Proof.
  intros H. destruct fuel; simpl; [done|].
  destruct (Z.leb_spec attempt max); [lia|done].
Qed.

Lemma path_retryExhausted lastError π r :
  path (retryExhausted max lastError : Async T) π r ↔
    π = [said (LogOperationFailed max)] ∧ r = Rejected lastError.
Proof.
  unfold retryExhausted. rewrite path_log. simpl. split.
  - intros (π' & -> & -> & ->). auto.
  - intros [-> ->]. eauto.
Qed.

(** The loop entered at [attempt <= max] with enough fuel. *)
Lemma path_retryLoop fuel : ∀ attempt delay lastError π r,
  attempt ≤ max →
  (Z.to_nat (max + 1 - attempt) ≤ fuel)%nat →
  path (retryLoop operation max maxDelay factor fuel attempt delay lastError) π r ↔
    ∃ failed last lastr,
      Forall (failedAttempt operation) failed ∧
      path operation last lastr ∧
      attempt + Z.of_nat (length failed) ≤ max ∧
      (isRejected lastr → attempt + Z.of_nat (length failed) = max) ∧
      π = retryLayout max maxDelay factor attempt delay failed last lastr ∧
      r = retryResult lastr.
Proof.
  induction fuel as [|fuel IH]; intros attempt delay lastError π r Hle Hfuel.
  { lia. }
  cbn [retryLoop]. destruct (Z.leb_spec attempt max) as [_|]; [|lia].
  rewrite path_tryCatch. setoid_rewrite path_log.
  split.
  - intros [(a & (π' & -> & Hop) & ->)|(e & π1 & π2 & (π' & -> & Hop) & Hh & ->)].
    + exists [], π', (Fulfilled a). simpl. rewrite app_nil_r.
      repeat split; auto; try lia.
    + destruct Hh as (π3 & -> & Hh).
      destruct (Z.ltb_spec attempt max) as [Hlt|Hge].
      * apply path_log in Hh as (π4 & -> & Hh).
        apply path_sleep in Hh as (π5 & -> & Hh).
        apply IH in Hh as (failed & last & lastr & Hf & Hl & Hn & Hrej & -> & ->);
          [|lia|lia].
        exists ((π', e) :: failed), last, lastr.
        split; [constructor; [exact Hop|exact Hf]|].
        split; [exact Hl|].
        split; [simpl; lia|].
        split; [intros Hr; specialize (Hrej Hr); simpl; lia|].
        split; [|reflexivity].
        reflexivity.
      * rewrite retryLoop_past in Hh by lia.
        apply path_retryExhausted in Hh as [-> ->].
        exists [], π', (Rejected e).
        split; [constructor|].
        split; [exact Hop|].
        split; [simpl; lia|].
        split; [simpl; lia|].
        split; [|reflexivity].
        reflexivity.
  - intros (failed & last & lastr & Hf & Hl & Hn & Hrej & -> & ->).
    destruct failed as [|[π' e] failed]; simpl in *.
    + destruct lastr as [a|e]; simpl.
      * left. exists a. rewrite app_nil_r. eauto.
      * right. exists e, (said (LogAttempt attempt max) :: last),
          [said (LogAttemptFailed attempt (message (asError e)));
           said (LogOperationFailed max)].
        split; [eauto|]. split; [|done].
        eexists. split; [reflexivity|].
        specialize (Hrej I).
        destruct (Z.ltb_spec attempt max); [lia|].
        rewrite retryLoop_past by lia. apply path_retryExhausted. auto.
    + apply Forall_cons in Hf as [Hf1 Hf].
      right. exists e, (said (LogAttempt attempt max) :: π'). eexists.
      split; [eauto|]. split.
      * eexists. split; [reflexivity|].
        destruct (Z.ltb_spec attempt max); [|lia].
        apply path_log. eexists. split; [reflexivity|].
        apply path_sleep. eexists. split; [reflexivity|].
        apply IH; [lia|lia|].
        exists failed, last, lastr. repeat split; auto; try lia.
        intros Hr. specialize (Hrej Hr). lia.
      * reflexivity.
Qed.
End RetryLemmas.

(** More fuel than the loop needs changes nothing: [fuel] is not a bound on
    what [retryWithBackoff] does but its [for] loop counted down. *)
Lemma retryLoop_fuel {T} (operation : Async T) max maxDelay factor
    fuel1 fuel2 attempt delay lastError π r :
  (Z.to_nat (max + 1 - attempt) ≤ fuel1)%nat →
  (Z.to_nat (max + 1 - attempt) ≤ fuel2)%nat →
  path (retryLoop operation max maxDelay factor fuel1 attempt delay lastError) π r ↔
  path (retryLoop operation max maxDelay factor fuel2 attempt delay lastError) π r.
Proof.
  intros H1 H2. destruct (Z.le_gt_cases attempt max) as [Hle|Hgt].
  - rewrite !path_retryLoop by assumption. reflexivity.
  - rewrite !retryLoop_past by lia. reflexivity.
Qed.

(** C3.  With [maxAttempts >= 1], the executions of [retryWithBackoff] are
    exactly these: the operation is invoked [length failed + 1 <= maxAttempts]
    times; every invocation but the last one fails; after each of those the
    executor sleeps for the current delay, which starts at [initialDelayMs]
    and becomes [min (delay * backoffFactor) maxDelayMs] ([retryLayout]);
    a successful invocation ends the run at once with its result; a failed
    last invocation is the [maxAttempts]-th one, is followed by no sleep, and
    the run fails with the error of that last invocation.  In particular,
    under the default policy, an operation that fails twice and then succeeds
    makes the executor sleep 5000 ms, then 10000 ms, and return the result of
    the third attempt. *)
Theorem retryWithBackoff_attempts {T} (operation : Async T) :
  (∀ (options : RetryOptions) (π : list Obs) (r : Settled T),
     1 ≤ orDefault (maxAttempts options) 3 →
     path (retryWithBackoff operation options) π r ↔
       ∃ (failed : list (list Obs * Thrown)) (last : list Obs) (lastr : Settled T),
         Forall (failedAttempt operation) failed ∧
         path operation last lastr ∧
         1 + Z.of_nat (length failed) ≤ orDefault (maxAttempts options) 3 ∧
         (isRejected lastr →
          1 + Z.of_nat (length failed) = orDefault (maxAttempts options) 3) ∧
         π = retryLayout
               (orDefault (maxAttempts options) 3)
               (orDefault (maxDelayMs options) 20000)
               (orDefault (backoffFactor options) 2)
               1 (orDefault (initialDelayMs options) 5000) failed last lastr ∧
         r = retryResult lastr) ∧
  (∀ π1 e1 π2 e2 π3 a,
     path operation π1 (Rejected e1) →
     path operation π2 (Rejected e2) →
     path operation π3 (Fulfilled a) →
     path (retryWithBackoff operation noOptions)
       (said (LogAttempt 1 3) :: π1 ++
        [said (LogAttemptFailed 1 (message (asError e1)));
         said (LogRetrying 5000); slept 5000] ++
        said (LogAttempt 2 3) :: π2 ++
        [said (LogAttemptFailed 2 (message (asError e2)));
         said (LogRetrying 10000); slept 10000] ++
        said (LogAttempt 3 3) :: π3)
       (Fulfilled a)).
Proof.
  split.
  - intros options π r Hmax. unfold retryWithBackoff.
    apply path_retryLoop; lia.
  - intros π1 e1 π2 e2 π3 a H1 H2 H3.
    unfold retryWithBackoff. apply path_retryLoop; [simpl; lia|simpl; lia|].
    exists [(π1, e1); (π2, e2)], π3, (Fulfilled a).
    split; [repeat constructor; assumption|].
    split; [assumption|].
    split; [simpl; lia|].
    split; [intros []|].
    split; [|reflexivity].
    simpl. rewrite app_nil_r. reflexivity.
Qed.

Lemma retryWithBackoff_attempts_witness :
  path (retryWithBackoff getOidcToken noOptions)
    [said (LogAttempt 1 3);
     Got (GetIDToken oidcAudience) (Rejected (Plain "ECONNRESET" None));
     said (LogOidcFailed (Plain "ECONNRESET" None));
     said (LogAttemptFailed 1 oidcHint);
     said (LogRetrying 5000); slept 5000;
     said (LogAttempt 2 3);
     Got (GetIDToken oidcAudience) (Fulfilled "oidc")]
    (Fulfilled "oidc").
Proof.
  apply (proj2 (proj1 (retryWithBackoff_attempts getOidcToken) noOptions _ _
                  ltac:(simpl; lia))).
  exists [([Got (GetIDToken oidcAudience) (Rejected (Plain "ECONNRESET" None));
            said (LogOidcFailed (Plain "ECONNRESET" None))],
           Err (newError oidcHint))],
    [Got (GetIDToken oidcAudience) (Fulfilled "oidc")], (Fulfilled "oidc").
  split.
  { repeat constructor. unfold failedAttempt. simpl.
    eexists _, _. split; [reflexivity|].
    eexists tt, _. split; [reflexivity|]. split; reflexivity. }
  split.
  { simpl. eexists _, _. split; [reflexivity|]. split; reflexivity. }
  split; [simpl; lia|].
  split; [intros []|].
  split; reflexivity.
Defined.

(** C10.  With [maxAttempts <= 0] the body of the loop never runs: whatever
    the operation is, it is not invoked, and the only execution logs the
    final message and throws the initial value of [lastError], which is
    [undefined] and not an [Error]. *)
Theorem retryWithBackoff_no_attempts {T} (operation : Async T)
    (options : RetryOptions) :
  orDefault (maxAttempts options) 3 ≤ 0 →
  retryWithBackoff operation options
    = retryExhausted (orDefault (maxAttempts options) 3) Undef ∧
  ∀ π r, path (retryWithBackoff operation options) π r ↔
    π = [said (LogOperationFailed (orDefault (maxAttempts options) 3))] ∧
    r = Rejected Undef.
Proof.
  intros Hmax.
  assert (Heq : retryWithBackoff operation options
                = retryExhausted (orDefault (maxAttempts options) 3) Undef).
  { unfold retryWithBackoff.
    replace (Z.to_nat (orDefault (maxAttempts options) 3)) with 0%nat by lia.
    reflexivity. }
  split; [exact Heq|].
  intros π r. rewrite Heq. apply path_retryExhausted.
Qed.

Lemma retryWithBackoff_no_attempts_witness :
  retryWithBackoff getOidcToken (mkRetryOptions (Some 0) None None None)
    = retryExhausted 0 Undef ∧
  ∀ π r, path (retryWithBackoff getOidcToken
                 (mkRetryOptions (Some 0) None None None)) π r ↔
    π = [said (LogOperationFailed 0)] ∧ r = Rejected Undef.
Proof.
  apply (retryWithBackoff_no_attempts getOidcToken
           (mkRetryOptions (Some 0) None None None)).
  simpl. lia.
Defined.

(** ** The exchange *)

Lemma firstNonEmpty_orElse (body : JsonBody) :
  let appToken := orElse (body_token body) (body_app_token body) in
  match firstNonEmpty body with
  | Some t => truthyOpt appToken = true ∧ nonNull appToken = t
  | None => truthyOpt appToken = false
  end.
Proof.
  unfold firstNonEmpty, orElse.
  destruct (body_token body) as [t|], (body_app_token body) as [t'|]; simpl;
    repeat match goal with
           | |- context [truthy ?x] => destruct (truthy x) eqn:?; simpl
           end; auto.
Qed.

Lemma firstNonEmpty_None (body : JsonBody) :
  firstNonEmpty body = None ↔
  truthyOpt (body_token body) = false ∧ truthyOpt (body_app_token body) = false.
Proof.
  unfold firstNonEmpty.
  destruct (body_token body) as [t|], (body_app_token body) as [t'|]; simpl;
    repeat match goal with
           | |- context [truthy ?x] => destruct (truthy x) eqn:?; simpl
           end; intuition congruence.
Qed.

(** C5, as the code has it.  The executions of [exchangeForAppToken] are
    exactly these five.  It fails when [fetch] rejects, when the body of the
    response does not parse, when the status is not a success (with the
    message of the body's [error.message], or "Unknown error"; the status
    code goes to the console, the thrown [Error] has no [status]), and when a
    successful response has neither a non-empty [token] nor a non-empty
    [app_token] ("App token not found in response").  Otherwise it returns the
    first non-empty one of [token] and [app_token]. *)
Theorem exchangeForAppToken_outcomes (oidcToken : string) (π : list Obs)
    (r : Settled string) :
  path (exchangeForAppToken oidcToken) π r ↔
    (∃ e,
        π = [Got (Fetch (exchangeRequest oidcToken)) (Rejected e)] ∧
        r = Rejected e) ∨
    (∃ resp e,
        π = [Got (Fetch (exchangeRequest oidcToken)) (Fulfilled resp);
             Got (ResponseJson resp) (Rejected e)] ∧
        r = Rejected e) ∨
    (∃ resp body,
        ok resp = false ∧
        π = [Got (Fetch (exchangeRequest oidcToken)) (Fulfilled resp);
             Got (ResponseJson resp) (Fulfilled body);
             said (LogExchangeFailed (resp_status resp) (statusText resp)
                     (errorMessageOf body))] ∧
        r = Rejected (Err (mkError "Error" (errorMessageOf body) None))) ∨
    (∃ resp body,
        ok resp = true ∧
        truthyOpt (body_token body) = false ∧
        truthyOpt (body_app_token body) = false ∧
        π = [Got (Fetch (exchangeRequest oidcToken)) (Fulfilled resp);
             Got (ResponseJson resp) (Fulfilled body)] ∧
        r = Rejected (Err (mkError "Error" "App token not found in response" None))) ∨
    (∃ resp body tok,
        ok resp = true ∧
        firstNonEmpty body = Some tok ∧
        π = [Got (Fetch (exchangeRequest oidcToken)) (Fulfilled resp);
             Got (ResponseJson resp) (Fulfilled body)] ∧
        r = Fulfilled tok).
Proof.
  unfold exchangeForAppToken. fold (exchangeRequest oidcToken). simpl. split.
  - intros ([resp|e] & π1 & -> & H); simpl in H.
    + destruct (ok resp) eqn:Hok; simpl in H.
      * destruct H as ([body|e] & π2 & -> & H); simpl in H.
        -- pose proof (firstNonEmpty_orElse body) as Hfirst. simpl in Hfirst.
           destruct (firstNonEmpty body) as [tok|] eqn:Hf.
           ++ destruct Hfirst as [Ht <-]. rewrite Ht in H. simpl in H.
              destruct H as [-> ->]. do 4 right. eauto 10.
           ++ rewrite Hfirst in H. simpl in H. destruct H as [-> ->].
              apply firstNonEmpty_None in Hf as [? ?].
              do 3 right. left. eauto 10.
        -- destruct H as [-> ->]. right. left. eauto.
      * destruct H as ([body|e] & π2 & -> & H); simpl in H.
        -- destruct H as ([] & π3 & -> & -> & ->).
           do 2 right. left. eauto 10.
        -- destruct H as [-> ->]. right. left. eauto.
    + destruct H as [-> ->]. left. eauto.
  - intros [(e & -> & ->)|[(resp & e & -> & ->)|[(resp & body & Hok & -> & ->)|
      [(resp & body & Hok & Ht & Ha & -> & ->)|(resp & body & tok & Hok & Hf & -> & ->)]]]].
    + eexists _, _. split; [reflexivity|]. simpl. auto.
    + eexists _, _. split; [reflexivity|]. simpl.
      destruct (ok resp); simpl; eexists _, _; (split; [reflexivity|]); simpl; auto.
    + eexists _, _. split; [reflexivity|]. simpl. rewrite Hok. simpl.
      eexists _, _. split; [reflexivity|]. simpl.
      eexists tt, _. split; [reflexivity|]. auto.
    + eexists _, _. split; [reflexivity|]. simpl. rewrite Hok. simpl.
      eexists _, _. split; [reflexivity|]. simpl.
      assert (Hf : firstNonEmpty body = None) by (apply firstNonEmpty_None; auto).
      pose proof (firstNonEmpty_orElse body) as Hfirst. rewrite Hf in Hfirst.
      simpl in Hfirst. rewrite Hfirst. simpl. auto.
    + eexists _, _. split; [reflexivity|]. simpl. rewrite Hok. simpl.
      eexists _, _. split; [reflexivity|]. simpl.
      pose proof (firstNonEmpty_orElse body) as Hfirst. rewrite Hf in Hfirst.
      simpl in Hfirst. destruct Hfirst as [Ht <-]. rewrite Ht. simpl. auto.
Qed.

(** C5 as stated does not hold: on a response with status 500 the thrown
    error carries the message of the body and no status code. *)
Lemma exchangeForAppToken_status_not_attached :
  ¬ (∀ (oidcToken : string) (resp : Response) (π : list Obs) (r : Settled string),
        ok resp = false →
        path (exchangeForAppToken oidcToken)
          (Got (Fetch (exchangeRequest oidcToken)) (Fulfilled resp) :: π) r →
        ∃ e, r = Rejected (Err e) ∧ status e = Some (resp_status resp)).
Proof.
  intros H.
  pose (body := mkBody (Some "boom") None None).
  pose (resp := mkResponse false 500 "Internal Server Error" (Fulfilled body)).
  destruct (H "oidc" resp
              [Got (ResponseJson resp) (Fulfilled body);
               said (LogExchangeFailed 500 "Internal Server Error" "boom")]
              (Rejected (Err (mkError "Error" "boom" None))) eq_refl)
    as (e & He & Hst).
  - simpl. eexists _, _. split; [reflexivity|]. simpl.
    eexists _, _. split; [reflexivity|]. simpl.
    eexists tt, _. split; [reflexivity|]. split; reflexivity.
  - injection He as <-. discriminate Hst.
Qed.

(** ** The refresh coordinator *)

Lemma path_await {X} (e : AwaitE (Settled X)) π r :
  path (await e) π r ↔ π = [Got e r].
Proof.
  simpl. split.
  - intros ([x|err] & π' & -> & [-> ->]); reflexivity.
  - intros ->. exists r, []. split; [reflexivity|]. destruct r; simpl; auto.
Qed.

Lemma path_refreshToken π r :
  path refreshToken π r ↔ ∃ inFlight p, π = refreshObs inFlight p r.
Proof.
  unfold refreshToken. simpl. split.
  - intros ([q|] & π1 & -> & H); simpl in H.
    + destruct H as ([] & π2 & -> & out & π3 & -> & H).
      exists (Some q), 0%nat. simpl.
      destruct out; simpl in H; destruct H as [-> ->]; reflexivity.
    + destruct H as (p & π2 & -> & [] & π3 & -> & out & π4 & -> & H).
      exists None, p. simpl.
      destruct out; simpl in H; destruct H as ([] & π5 & -> & -> & ->); reflexivity.
  - intros ([q|] & p & ->); simpl.
    + eexists _, _. split; [reflexivity|]. simpl.
      eexists tt, _. split; [reflexivity|].
      eexists r, _. split; [reflexivity|]. destruct r; simpl; auto.
    + eexists _, _. split; [reflexivity|]. simpl.
      eexists p, _. split; [reflexivity|].
      eexists tt, _. split; [reflexivity|].
      eexists r, _. split; [reflexivity|].
      destruct r; simpl; eexists tt, _; (split; [reflexivity|]); auto.
Qed.

(** ** The request hook *)

Lemma isAuthStatus_spec st :
  isAuthStatus st = true ↔ st = Some 401 ∨ st = Some 403.
Proof.
  destruct st as [code|]; simpl.
  - rewrite orb_true_iff, !Z.eqb_eq. split; intros [H|H]; try injection H as H; subst; auto.
  - split; [discriminate|]. intros [|]; discriminate.
Qed.

(** The executions of the function passed as [request.hook]. *)
Lemma path_hook (client : Client) (options : RequestOptions)
    (π : list Obs) (r : Settled ApiResponse) :
  path (hook client options) π r ↔
    (∃ x, π = [Got (Request options) (Fulfilled x)] ∧ r = Fulfilled x) ∨
    (∃ e st,
        statusOf e = Some st ∧ st ≠ Some 401 ∧ st ≠ Some 403 ∧
        π = [Got (Request options) (Rejected e)] ∧ r = Rejected e) ∨
    (∃ e,
        (e = Undef ∨ e = Null) ∧
        π = [Got (Request options) (Rejected e)] ∧
        r = Rejected (Err (cannotReadStatus e))) ∨
    (∃ e code inFlight p e',
        statusOf e = Some (Some code) ∧ (code = 401 ∨ code = 403) ∧
        π = Got (Request options) (Rejected e) ::
            said (LogAuthError client code) ::
            refreshObs inFlight p (Rejected e') ∧
        r = Rejected e') ∨
    (∃ e code inFlight p newToken,
        statusOf e = Some (Some code) ∧ (code = 401 ∨ code = 403) ∧
        π = Got (Request options) (Rejected e) ::
            said (LogAuthError client code) ::
            refreshObs inFlight p (Fulfilled newToken) ++
            [Got (Request (withToken options newToken)) r]).
Proof.
  unfold hook. cbn [await tryCatch path]. split.
  - intros ([x|e] & π1 & -> & H); cbn [tryCatch] in H.
    + destruct H as [-> ->]. left. eauto.
    + destruct (statusOf e) as [st|] eqn:Hst.
      * destruct (isAuthStatus st) eqn:Hauth.
        -- apply isAuthStatus_spec in Hauth.
           assert (∃ code, st = Some code ∧ (code = 401 ∨ code = 403))
             as (code & -> & Hcode) by (destruct Hauth; eauto).
           apply path_log in H as (π2 & -> & H).
           apply path_bind in H
             as [(e' & Hr & ->)|(newToken & π3 & π4 & Hr & Hretry & ->)].
           ++ apply path_refreshToken in Hr as (inFlight & p & ->).
              do 3 right. left. exists e, code, inFlight, p, e'. auto.
           ++ apply path_refreshToken in Hr as (inFlight & p & ->).
              apply (path_await (Request _)) in Hretry as ->.
              do 4 right. exists e, code, inFlight, p, newToken. auto.
        -- simpl in H. destruct H as [-> ->].
           right. left. exists e, st.
           assert (st ≠ Some 401 ∧ st ≠ Some 403) as [? ?].
           { split; intros ->; discriminate Hauth. }
           auto.
      * simpl in H. destruct H as [-> ->].
        do 2 right. left. exists e. destruct e; try discriminate Hst; auto.
  - intros [(x & -> & ->)|[(e & st & Hst & H1 & H3 & -> & ->)|[(e & He & -> & ->)|
      [(e & code & inFlight & p & e' & Hst & Hcode & -> & ->)|
       (e & code & inFlight & p & newToken & Hst & Hcode & ->)]]]].
    + eexists _, _. split; [reflexivity|]. simpl. auto.
    + eexists _, _. split; [reflexivity|]. cbn [tryCatch]. rewrite Hst.
      destruct (isAuthStatus st) eqn:Hauth.
      * apply isAuthStatus_spec in Hauth as [|]; contradiction.
      * simpl. auto.
    + eexists _, _. split; [reflexivity|]. destruct He as [-> | ->]; simpl; auto.
    + eexists _, _. split; [reflexivity|]. cbn [tryCatch]. rewrite Hst.
      assert (isAuthStatus (Some code) = true) as ->
        by (apply isAuthStatus_spec; destruct Hcode; subst; auto).
      apply path_log. eexists. split; [reflexivity|].
      apply path_bind. left. exists e'. split; [|reflexivity].
      apply path_refreshToken. eauto.
    + eexists _, _. split; [reflexivity|]. cbn [tryCatch]. rewrite Hst.
      assert (isAuthStatus (Some code) = true) as ->
        by (apply isAuthStatus_spec; destruct Hcode; subst; auto).
      apply path_log. eexists. split; [reflexivity|].
      apply path_bind. right. eexists newToken, _, _.
      split; [apply path_refreshToken; eauto|].
      split; [|reflexivity].
      apply (path_await (Request _)). reflexivity.
Qed.

(** C6, as the code has it by design.  The executions of a request issued
    through the GraphQL client, on which the hook runs, are exactly these.
    The request succeeds: its result is returned.  It fails with a value
    whose [status] is not 401 or 403, or that has no [status]: the same value
    propagates and nothing else happens.  It fails with [undefined] or
    [null], whose [status] cannot be read: the hook fails with a [TypeError].
    It fails with 401 or 403: the condition is logged and [refreshToken] runs
    once (joining the promise in flight if there is one); if the refresh
    fails, its error propagates, the header is not touched and no second
    request is made; if it succeeds, the authorization header is set to
    [token <new token>], the request is made once more, and whatever this
    second request settles to (a second 401 included) is the outcome. *)
Theorem hook_reauthenticates (options : RequestOptions)
    (π : list Obs) (r : Settled ApiResponse) :
  path (clientRequest GraphQL options) π r ↔
    (∃ x, π = [Got (Request options) (Fulfilled x)] ∧ r = Fulfilled x) ∨
    (∃ e st,
        statusOf e = Some st ∧ st ≠ Some 401 ∧ st ≠ Some 403 ∧
        π = [Got (Request options) (Rejected e)] ∧ r = Rejected e) ∨
    (∃ e,
        (e = Undef ∨ e = Null) ∧
        π = [Got (Request options) (Rejected e)] ∧
        r = Rejected (Err (cannotReadStatus e))) ∨
    (∃ e code inFlight p e',
        statusOf e = Some (Some code) ∧ (code = 401 ∨ code = 403) ∧
        π = Got (Request options) (Rejected e) ::
            said (LogAuthError GraphQL code) ::
            refreshObs inFlight p (Rejected e') ∧
        r = Rejected e') ∨
    (∃ e code inFlight p newToken,
        statusOf e = Some (Some code) ∧ (code = 401 ∨ code = 403) ∧
        π = Got (Request options) (Rejected e) ::
            said (LogAuthError GraphQL code) ::
            refreshObs inFlight p (Fulfilled newToken) ++
            [Got (Request (withToken options newToken)) r]).
Proof. exact (path_hook GraphQL options π r). Qed.

(** C6 as stated does not hold, also where the hook runs: a 401 is not
    always followed by a retry.  When the refresh it triggers fails, the hook
    of the GraphQL client gives up with the error of the refresh and the
    request has been made only once. *)
Lemma hook_no_retry_when_refresh_fails :
  ¬ (∀ (options : RequestOptions) (e : JsError)
       (π : list Obs) (r : Settled ApiResponse),
        status e = Some 401 →
        path (clientRequest GraphQL options)
          (Got (Request options) (Rejected (Err e)) :: π) r →
        length (requests π) = 1%nat).
Proof.
  intros H.
  pose (options := mkOptions "POST /graphql" "token stale").
  pose (e := mkError "HttpError" "Unauthorized" (Some 401)).
  pose (e' := Err (newError "Token refresh failed: Error: Unknown error")).
  specialize (H options e
                (said (LogAuthError GraphQL 401) ::
                 refreshObs (Some 0%nat) 0%nat (Rejected e'))
                (Rejected e') eq_refl).
  simpl in H. discriminate H.
  eexists _, _. split; [reflexivity|]. simpl.
  eexists tt, _. split; [reflexivity|].
  eexists _, _. split; [reflexivity|].
  eexists tt, _. split; [reflexivity|].
  eexists _, _. split; [reflexivity|]. simpl. auto.
Qed.

(** ** [doRefresh] *)

Lemma path_doRefresh π r :
  path doRefresh π r ↔
    (∃ provided now,
        truthy provided = true ∧
        π = said LogRefreshing :: Did EnvOverride (Some provided) ::
            said LogUsingProvided :: recordWritten provided now overrideLifetimeMs ∧
        r = Fulfilled provided) ∨
    (∃ env π1 e,
        truthyOpt env = false ∧
        path (retryWithBackoff getOidcToken noOptions) π1 (Rejected e) ∧
        π = said LogRefreshing :: Did EnvOverride env :: π1 ++
            [said (LogRefreshFailed e)] ∧
        r = Rejected (refreshFailed e)) ∨
    (∃ env π1 oidcToken π2 e,
        truthyOpt env = false ∧
        path (retryWithBackoff getOidcToken noOptions) π1 (Fulfilled oidcToken) ∧
        path (retryWithBackoff (exchangeForAppToken oidcToken) noOptions) π2 (Rejected e) ∧
        π = said LogRefreshing :: Did EnvOverride env :: π1 ++
            said LogOidcObtained :: π2 ++ [said (LogRefreshFailed e)] ∧
        r = Rejected (refreshFailed e)) ∨
    (∃ env π1 oidcToken π2 appToken now,
        truthyOpt env = false ∧
        path (retryWithBackoff getOidcToken noOptions) π1 (Fulfilled oidcToken) ∧
        path (retryWithBackoff (exchangeForAppToken oidcToken) noOptions) π2
          (Fulfilled appToken) ∧
        π = said LogRefreshing :: Did EnvOverride env :: π1 ++
            said LogOidcObtained :: π2 ++
            said LogAppObtained :: recordWritten appToken now TOKEN_LIFETIME_MS ∧
        r = Fulfilled appToken).
Proof.
  unfold doRefresh. split.
  - intros H. apply path_log in H as (π0 & -> & H).
    apply path_tryCatch in H. cbn [perform bind path] in H.
    destruct H as [(a & (env & π1 & -> & H) & ->)|
                   (e & π1 & π2 & (env & π3 & -> & H) & Hh & ->)];
      cbn [bind] in H; destruct (truthyOpt env) eqn:Henv.
    + destruct env as [provided|]; [|discriminate Henv]. simpl in Henv, H.
      destruct H as ([] & ? & -> & [] & ? & -> & now & ? & -> & [] & ? & -> & -> & H).
      injection H as ->. left. exists provided, now. auto.
    + apply path_bind in H as [(e & _ & He)|(oidcToken & π2 & π3 & H1 & H & ->)];
        [discriminate He|].
      apply path_log in H as (π4 & -> & H).
      apply path_bind in H as [(e & _ & He)|(appToken & π5 & π6 & H2 & H & ->)];
        [discriminate He|].
      simpl in H.
      destruct H as ([] & ? & -> & [] & ? & -> & now & ? & -> & [] & ? & -> & -> & H).
      injection H as ->. do 3 right.
      exists env, π2, oidcToken, π5, appToken, now. auto.
    + destruct env as [provided|]; [|discriminate Henv]. simpl in H.
      destruct H as ([] & ? & -> & [] & ? & -> & now & ? & -> & [] & ? & -> & -> & H).
      discriminate H.
    + apply path_log in Hh as (π4 & -> & [-> ->]).
      apply path_bind in H as [(e' & H1 & He)|(oidcToken & π2 & π5 & H1 & H & ->)].
      * injection He as <-. right. left. exists env, π3, e. auto.
      * apply path_log in H as (π6 & -> & H).
        apply path_bind in H as [(e' & H2 & He)|(appToken & π7 & π8 & H2 & H & ->)].
        -- injection He as <-. do 2 right. left.
           exists env, π2, oidcToken, π6, e. simpl. rewrite <- app_assoc. auto.
        -- simpl in H.
           destruct H as ([] & ? & -> & [] & ? & -> & now & ? & -> & [] & ? & -> & -> & H).
           discriminate H.
  - intros [(provided & now & Ht & -> & ->)|[(env & π1 & e & Henv & H1 & -> & ->)|
      [(env & π1 & oidcToken & π2 & e & Henv & H1 & H2 & -> & ->)|
       (env & π1 & oidcToken & π2 & appToken & now & Henv & H1 & H2 & -> & ->)]]];
      (apply path_log; eexists; (split; [reflexivity|]);
       apply path_tryCatch; cbn [perform bind path]).
    + left. exists provided. split; [|reflexivity].
      eexists (Some provided), _. split; [reflexivity|].
      cbn [bind truthyOpt]. rewrite Ht. simpl.
      eexists tt, _. split; [reflexivity|].
      eexists tt, _. split; [reflexivity|].
      eexists now, _. split; [reflexivity|].
      eexists tt, _. split; [reflexivity|]. auto.
    + right. exists e, (Did EnvOverride env :: π1), [said (LogRefreshFailed e)].
      split; [|split; [|reflexivity]].
      * eexists env, _. split; [reflexivity|]. cbn [bind]. rewrite Henv.
        apply path_bind. left. eauto.
      * apply path_log. eexists. split; [reflexivity|]. simpl. auto.
    + right. exists e, (Did EnvOverride env :: π1 ++ said LogOidcObtained :: π2),
        [said (LogRefreshFailed e)].
      split; [|split].
      * eexists env, _. split; [reflexivity|]. cbn [bind]. rewrite Henv.
        apply path_bind. right. eexists oidcToken, π1, _.
        split; [exact H1|]. split; [|reflexivity].
        apply path_log. eexists. split; [reflexivity|].
        apply path_bind. left. eauto.
      * apply path_log. eexists. split; [reflexivity|]. simpl. auto.
      * simpl. rewrite <- app_assoc. reflexivity.
    + left. exists appToken. split; [|reflexivity].
      eexists env, _. split; [reflexivity|]. cbn [bind]. rewrite Henv.
      apply path_bind. right. eexists oidcToken, π1, _.
      split; [exact H1|]. split; [|reflexivity].
      apply path_log. eexists. split; [reflexivity|].
      apply path_bind. right. eexists appToken, π2, _.
      split; [exact H2|]. split; [|reflexivity].
      simpl.
      eexists tt, _. split; [reflexivity|].
      eexists tt, _. split; [reflexivity|].
      eexists now, _. split; [reflexivity|].
      eexists tt, _. split; [reflexivity|]. auto.
Qed.

(** ** Turns of a worker *)

Lemma sameShape_refl s : sameShape s s.
Proof. repeat split. Qed.

Lemma sameShape_trans s1 s2 s3 :
  sameShape s1 s2 → sameShape s2 s3 → sameShape s1 s3.
Proof.
  unfold sameShape. intros (?&?&?&?&?) (?&?&?&?&?). repeat split; congruence.
Qed.

Lemma performSync_shape {X} (e : SyncE X) s :
  keepsRefreshPromise e → sameShape s (performSync e s).1.
Proof.
  destruct e as [X f|X f v| | |l]; simpl; intros H;
    try (destruct f; try contradiction); repeat split.
Qed.

Lemma worker_bind {A B} (t : Async A) (f : A -> Async B) :
  worker t → (∀ a, worker (f a)) → worker (bind t f).
Proof.
  revert B f. induction t as [A a|A e|A X e k IH|A X e k IH|A body _ k IH];
    intros B f Ht Hf; simpl in *;
    try (destruct Ht; split); auto; try contradiction.
Qed.

Lemma worker_tryCatch {A} (t : Async A) (h : Thrown -> Async A) :
  worker t → (∀ e, worker (h e)) → worker (tryCatch t h).
Proof.
  revert h. induction t as [A a|A e|A X e k IH|A X e k IH|A body _ k IH];
    intros h Ht Hh; simpl in *;
    try (destruct Ht; split); auto; try contradiction.
Qed.

Lemma worker_retryLoop {T} (operation : Async T) max maxDelay factor fuel :
  worker operation →
  ∀ attempt delay lastError,
    worker (retryLoop operation max maxDelay factor fuel attempt delay lastError).
Proof.
  intros Hop. induction fuel as [|fuel IH]; intros attempt delay lastError.
  - simpl. auto.
  - cbn [retryLoop]. destruct (attempt <=? max); [|simpl; auto].
    apply worker_tryCatch.
    + apply worker_bind; [simpl; auto|]. intros _. exact Hop.
    + intros e. apply worker_bind; [simpl; auto|]. intros _.
      destruct (attempt <? max); [|apply IH].
      apply worker_bind; [simpl; auto|]. intros _.
      apply worker_bind; [simpl; auto|]. intros _. apply IH.
Qed.

Lemma worker_retryWithBackoff {T} (operation : Async T) options :
  worker operation → worker (retryWithBackoff operation options).
Proof. intros H. apply worker_retryLoop, H. Qed.

Lemma worker_getOidcToken : worker getOidcToken.
Proof. simpl. intros [x|e]; simpl; auto. Qed.

Lemma worker_exchangeForAppToken oidcToken : worker (exchangeForAppToken oidcToken).
Proof.
  simpl. intros [resp|e]; simpl; auto.
  destruct (ok resp); simpl; intros [body|e]; simpl; auto.
  destruct (truthyOpt _); simpl; auto.
Qed.

Lemma worker_doRefresh : worker doRefresh.
Proof.
  unfold doRefresh. apply worker_bind; [simpl; auto|]. intros _.
  apply worker_tryCatch; [|intros e; simpl; auto].
  cbn [perform bind worker]. split; [exact I|]. intros env. cbn [bind].
  destruct (truthyOpt env).
  - simpl. repeat (split; [exact I|]; intros ?). exact I.
  - apply worker_bind; [apply worker_retryWithBackoff, worker_getOidcToken|].
    intros oidcToken. apply worker_bind; [simpl; auto|]. intros _.
    apply worker_bind;
      [apply worker_retryWithBackoff, worker_exchangeForAppToken|].
    intros appToken. simpl. repeat (split; [exact I|]; intros ?). exact I.
Qed.

(** A turn of a worker allocates no promise, parks no task, settles no call
    and leaves [refreshPromise] as it is; what remains of it is a worker. *)
Lemma run_worker {A} (t : Async A) :
  worker t → ∀ s,
    sameShape s (run t s).1 ∧
    match (run t s).2 with
    | Finished _ => True
    | Waiting _ k => ∀ x, worker (k x)
    end.
Proof.
  induction t as [A a|A e|A X e k IH|A X e k IH|A body _ k IH];
    intros Ht s; simpl in *.
  - split; [apply sameShape_refl|exact I].
  - split; [apply sameShape_refl|exact I].
  - destruct Ht as [He Hk].
    pose proof (performSync_shape e s He) as Hs.
    destruct (performSync e s) as [s1 x]. simpl in Hs.
    destruct (IH x (Hk x) s1) as [Hs' Hw].
    split; [eapply sameShape_trans; eassumption|exact Hw].
  - split; [repeat split|exact Ht].
  - contradiction.
Qed.

(** ** Turns of the methods *)

Lemma run_bind {A B} (t : Async A) (f : A -> Async B) :
  ∀ s, run (bind t f) s =
       match run t s with
       | (s', Finished (Fulfilled a)) => run (f a) s'
       | (s', Finished (Rejected e)) => (s', Finished (Rejected e))
       | (s', Waiting e k) => (s', Waiting e (fun x => bind (k x) f))
       end.
Proof.
  revert B f. induction t as [A a|A e|A X e k IH|A X e k IH|A body _ k IH];
    intros B f s; simpl; try reflexivity.
  - destruct (performSync e s) as [s1 x]. apply IH.
  - destruct (run body _) as [s1 r]. apply IH.
Qed.

Lemma run_isTokenValid s :
  run isTokenValid s = (s, Finished (Fulfilled (tokenValid (this s) (clock s)))).
Proof.
  unfold isTokenValid, tokenValid. simpl.
  destruct (token (this s)) as [t|]; simpl; [|reflexivity].
  destruct (truthy t); simpl; destruct (tokenExpiry (this s)); reflexivity.
Qed.

Lemma tokenValid_token m now :
  tokenValid m now = true → ∃ t, token m = Some t ∧ truthy t = true.
Proof.
  unfold tokenValid. destruct (token m) as [t|]; [|discriminate].
  destruct (tokenExpiry m); [|discriminate].
  intros [H _]%andb_true_iff. eauto.
Qed.

(** A cache hit: the cached token, within the turn, the state untouched. *)
Lemma run_getToken_valid s :
  tokenValid (this s) (clock s) = true →
  ∃ t, token (this s) = Some t ∧ run getToken s = (s, Finished (Fulfilled t)).
Proof.
  intros Hv. destruct (tokenValid_token _ _ Hv) as (t & Ht & _).
  exists t. split; [exact Ht|].
  unfold getToken. rewrite run_bind, run_isTokenValid, Hv. simpl.
  rewrite Ht. reflexivity.
Qed.

(** A cache miss: [getToken] is [refreshToken]. *)
Lemma run_getToken_invalid s :
  tokenValid (this s) (clock s) = false →
  run getToken s = run refreshToken s.
Proof.
  intros Hv. unfold getToken. rewrite run_bind, run_isTokenValid, Hv.
  reflexivity.
Qed.

(** [refreshToken] while a refresh is in flight: it awaits the promise that
    is there; no promise is allocated, no field written. *)
Lemma run_refreshToken_join s p :
  refreshPromise (this s) = Some p →
  run refreshToken s =
    (emit (Awaited (Promise p)) (emit (Logged LogWaitingForRefresh) s),
     Waiting (Promise p)
       (fun r => match r with Fulfilled x => Ret x | Rejected e => Throw e end)).
Proof. intros H. unfold refreshToken. simpl. rewrite H. reflexivity. Qed.

(** The first turn of [doRefresh] with an override: it completes at once. *)
Lemma run_doRefresh_override s provided :
  override s = Some provided → truthy provided = true →
  run doRefresh s =
    (setThis (mkManager (Some provided) (Some (clock s + overrideLifetimeMs))
                (refreshPromise (this s)))
       (emit (Logged LogUsingProvided) (emit (Logged LogRefreshing) s)),
     Finished (Fulfilled provided)).
Proof.
  intros He Ht. unfold doRefresh. simpl. rewrite He. simpl. rewrite Ht.
  reflexivity.
Qed.

(** The first turn of [doRefresh] without an override: it asks for the
    identity token and suspends; no field is written. *)
Lemma run_doRefresh_exchange s :
  truthyOpt (override s) = false →
  ∃ k, run doRefresh s =
         (emit (Awaited (GetIDToken oidcAudience))
            (emit (Logged (LogAttempt 1 3)) (emit (Logged LogRefreshing) s)),
          Waiting (GetIDToken oidcAudience) k) ∧
       ∀ x, worker (k x).
Proof.
  intros He.
  pose proof (run_worker doRefresh worker_doRefresh s) as [_ Hw].
  revert Hw. unfold doRefresh. simpl. rewrite He. simpl.
  intros Hw. eexists. split; [reflexivity|exact Hw].
Qed.

(** ** The cached token is never the empty string *)

Lemma ensures_mono {A} (t : Async A) (Q Q' : Settled A -> Prop) :
  (∀ r, Q r → Q' r) → ensures t Q → ensures t Q'.
Proof.
  revert Q Q'. induction t as [A a|A e|A X e k IH|A X e k IH|A body _ k IH];
    intros Q Q' HQ; simpl.
  - apply HQ.
  - apply HQ.
  - intros [He Hk]. split; [exact He|]. intros x. eapply IH; eauto.
  - intros Hk x. eapply IH; eauto.
  - intros [Hb Hk]. split; [exact Hb|]. intros p. eapply IH; eauto.
Qed.

Lemma ensures_bind {A B} (t : Async A) (f : A -> Async B)
    (Q : Settled B -> Prop) :
  ensures t (fun r => match r with
                      | Fulfilled a => ensures (f a) Q
                      | Rejected e => Q (Rejected e)
                      end) →
  ensures (bind t f) Q.
Proof.
  revert B f Q. induction t as [A a|A e|A X e k IH|A X e k IH|A body _ k IH];
    intros B f Q; simpl.
  - auto.
  - auto.
  - intros [He Hk]. split; [exact He|]. intros x. apply IH, Hk.
  - intros Hk x. apply IH, Hk.
  - intros [Hb Hk]. split; [exact Hb|]. intros p. apply IH, Hk.
Qed.

Lemma ensures_tryCatch {A} (t : Async A) (h : Thrown -> Async A)
    (Q : Settled A -> Prop) :
  ensures t (fun r => match r with
                      | Fulfilled a => Q (Fulfilled a)
                      | Rejected e => ensures (h e) Q
                      end) →
  ensures (tryCatch t h) Q.
Proof.
  revert h Q. induction t as [A a|A e|A X e k IH|A X e k IH|A body _ k IH];
    intros h Q; simpl.
  - auto.
  - auto.
  - intros [He Hk]. split; [exact He|]. intros x. apply IH, Hk.
  - intros Hk x. apply IH, Hk.
  - intros [Hb Hk]. split; [exact Hb|]. intros p. apply IH, Hk.
Qed.

(** The executor returns only what the operation returns. *)
Lemma ensures_retryLoop {T} (operation : Async T) (P : T -> Prop)
    max maxDelay factor fuel :
  ensures operation
    (fun r => match r with Fulfilled a => P a | Rejected _ => True end) →
  ∀ attempt delay lastError,
    ensures (retryLoop operation max maxDelay factor fuel attempt delay lastError)
      (fun r => match r with Fulfilled a => P a | Rejected _ => True end).
Proof.
  intros Hop. induction fuel as [|fuel IH]; intros attempt delay lastError.
  - simpl. auto.
  - cbn [retryLoop]. destruct (attempt <=? max); [|simpl; auto].
    apply ensures_tryCatch, ensures_bind. simpl. split; [exact I|]. intros _.
    eapply ensures_mono; [|exact Hop].
    intros [a|e]; [auto|]. intros _.
    split; [exact I|]. intros _.
    destruct (attempt <? max); [|apply IH].
    simpl. split; [exact I|]. intros _ _. apply IH.
Qed.

Lemma ensures_getOidcToken : ensures getOidcToken (fun _ => True).
Proof. simpl. intros [x|e]; simpl; auto. Qed.

Lemma ensures_exchangeForAppToken oidcToken :
  ensures (exchangeForAppToken oidcToken) truthyOutcome.
Proof.
  simpl. intros [resp|e]; simpl; auto.
  destruct (ok resp); simpl; intros [body|e]; simpl; auto.
  destruct (truthyOpt _) eqn:Ht; simpl; auto.
  destruct (orElse _ _) as [t|]; simpl in *; [exact Ht|discriminate].
Qed.

Lemma ensures_log {A} (l : LogLine) (t : Async A) Q :
  ensures t Q → ensures (log l ;; t) Q.
Proof. simpl. auto. Qed.

Lemma ensures_retryWithBackoff {T} (operation : Async T) (P : T -> Prop) options :
  ensures operation
    (fun r => match r with Fulfilled a => P a | Rejected _ => True end) →
  ensures (retryWithBackoff operation options)
    (fun r => match r with Fulfilled a => P a | Rejected _ => True end).
Proof. intros H. apply ensures_retryLoop, H. Qed.

Lemma ensures_doRefresh : ensures doRefresh (fun _ => True).
Proof.
  unfold doRefresh. apply ensures_log, ensures_tryCatch.
  cbn [perform bind ensures goodSync]. split; [exact I|].
  intros env. destruct (truthyOpt env) eqn:Henv.
  - destruct env as [provided|]; [|discriminate]. simpl in *. auto 10.
  - apply ensures_bind.
    eapply ensures_mono;
      [|apply (ensures_retryWithBackoff getOidcToken (fun _ => True));
        eapply ensures_mono; [|apply ensures_getOidcToken]; intros []; auto].
    intros [oidcToken|e] _; [|simpl; auto].
    apply ensures_log, ensures_bind.
    eapply ensures_mono;
      [|apply (ensures_retryWithBackoff (exchangeForAppToken oidcToken)
                 (fun a => truthy a = true));
        apply ensures_exchangeForAppToken].
    intros [appToken|e] Ht; simpl; auto 10.
Qed.

Lemma ensures_refreshToken : ensures refreshToken (fun _ => True).
Proof.
  unfold refreshToken. cbn [this_get perform bind ensures goodSync].
  split; [exact I|]. intros [p|].
  - simpl. split; [exact I|]. intros _ [x|e]; simpl; auto.
  - cbn [ensures]. split; [apply ensures_doRefresh|]. intros p. simpl.
    split; [exact I|]. intros _ [x|e]; simpl; auto.
Qed.

Lemma ensures_isTokenValid : ensures isTokenValid (fun _ => True).
Proof.
  unfold isTokenValid. simpl. split; [exact I|]. intros tok.
  destruct (negb (truthyOpt tok)); simpl; [exact I|].
  split; [exact I|]. intros [expiry|]; simpl; auto.
Qed.

Lemma ensures_getToken : ensures getToken (fun _ => True).
Proof.
  unfold getToken. apply ensures_bind.
  eapply ensures_mono; [|apply ensures_isTokenValid].
  intros [[|]|e] _; [simpl; auto|apply ensures_refreshToken|exact I].
Qed.

Lemma ensures_hook client options : ensures (hook client options) (fun _ => True).
Proof.
  unfold hook. apply ensures_tryCatch. cbn [await ensures].
  intros [x|e]; cbn [ensures]; [exact I|].
  destruct (statusOf e) as [st|]; [|simpl; auto].
  destruct (isAuthStatus st); [|simpl; auto].
  apply ensures_log, ensures_bind.
  eapply ensures_mono; [|apply ensures_refreshToken].
  intros [newToken|e'] _; [|exact I]. simpl. intros [x|e']; simpl; auto.
Qed.

Lemma ensures_clientRequest client options :
  ensures (clientRequest client options) (fun _ => True).
Proof.
  destruct client; [|apply ensures_hook]. simpl. intros [x|e]; simpl; auto.
Qed.

Lemma ensures_program a : ensures (program a) (fun _ => True).
Proof.
  destruct a as [| |client options|]; cbn [program].
  - apply ensures_bind. eapply ensures_mono; [|apply ensures_getToken].
    intros [?|?] _; simpl; auto.
  - apply ensures_bind. unfold createOctokit. apply ensures_bind.
    eapply ensures_mono; [|apply ensures_getToken].
    intros [?|?] _; simpl; auto.
  - apply ensures_bind. eapply ensures_mono; [|apply ensures_clientRequest].
    intros [?|?] _; simpl; auto.
  - simpl. auto 10.
Qed.

Lemma performSync_ok {X} (e : SyncE X) s :
  goodSync e → stateOk s → stateOk (performSync e s).1.
Proof.
  unfold stateOk.
  destruct e as [X f|X f v| | |l]; simpl; intros He Hs; try exact Hs.
  destruct f; simpl in *; tauto.
Qed.

Lemma run_ensures {A} (t : Async A) :
  ∀ (Q : Settled A -> Prop) s,
    ensures t Q → stateOk s →
    stateOk (run t s).1 ∧
    match (run t s).2 with
    | Finished r => Q r
    | Waiting _ k => ∀ x, ensures (k x) Q
    end.
Proof.
  induction t as [A a|A e|A X e k IH|A X e k IH|A body IHb k IH];
    intros Q s Ht Hs; simpl in *.
  - auto.
  - auto.
  - destruct Ht as [He Hk].
    pose proof (performSync_ok e s He Hs) as Hs1.
    destruct (performSync e s) as [s1 x]. apply IH; auto.
  - auto.
  - destruct Ht as [Hb Hk].
    destruct (IHb (fun _ => True) (setPromises (promises s ++ [None]) s) Hb Hs)
      as [Hs1 Hr].
    destruct (run body _) as [s1 r]. simpl in Hs1, Hr.
    apply IH; [apply Hk|].
    destruct r as [v|X e k']; unfold stateOk in *; simpl.
    + exact Hs1.
    + destruct Hs1 as [Htok Htasks]. split; [exact Htok|].
      apply Forall_app. split; [exact Htasks|]. repeat constructor. exact Hr.
Qed.

Lemma advance_ok deliver i t s s' :
  stateOk s → tasks s !! i = Some (Some t) →
  advance deliver i t s = Some s' → stateOk s'.
Proof.
  intros Hs Hi Hadv.
  assert (Ht : taskOk (Some t)).
  { destruct Hs as [_ Hts]. eapply Forall_lookup_1 in Hts; eauto. }
  destruct t as [p X e k|c X e k]; simpl in Hadv, Ht;
    destruct (deliver _ e) as [x|]; try discriminate; simpl in Hadv;
    destruct (run_ensures (k x) (fun _ => True) s (Ht x) Hs) as [Hs1 Hr];
    destruct (run (k x) s) as [s1 r]; simpl in Hs1, Hr;
    injection Hadv as <-; destruct Hs1 as [Htok Hts];
    destruct r as [v|X' e' k']; split; simpl; auto;
    apply Forall_insert; auto.
Qed.

Lemma step_ok l s s' : stateOk s → step l s = Some s' → stateOk s'.
Proof.
  intros Hs Hstep. destruct l as [a|i a|i|now|v]; simpl in Hstep.
  - destruct (run_ensures (program a) (fun _ => True)
                (setCalls (S (calls s)) s) (ensures_program a) Hs) as [Hs1 Hr].
    destruct (run (program a) _) as [s1 r]. simpl in Hs1, Hr.
    injection Hstep as <-. destruct Hs1 as [Htok Hts].
    destruct r as [v|X e k]; split; simpl; auto.
    apply Forall_app. split; [exact Hts|]. repeat constructor. exact Hr.
  - destruct (tasks s !! i) as [[t|]|] eqn:Hi; try discriminate.
    simpl in Hstep. eapply advance_ok; eauto.
  - destruct (tasks s !! i) as [[t|]|] eqn:Hi; try discriminate.
    simpl in Hstep. eapply advance_ok; eauto.
  - injection Hstep as <-. exact Hs.
  - injection Hstep as <-. exact Hs.
Qed.

Lemma steps_ok ls : ∀ s s', stateOk s → steps ls s = Some s' → stateOk s'.
Proof.
  induction ls as [|l ls IH]; intros s s' Hs Hsteps; simpl in Hsteps.
  - injection Hsteps as <-. exact Hs.
  - destruct (step l s) as [s1|] eqn:Hstep; [|discriminate].
    simpl in Hsteps. eapply IH; [|exact Hsteps]. eapply step_ok; eauto.
Qed.

(** In every state the process can reach, a cached token is a non-empty
    string. *)
Lemma reachable_tokenOk s : reachable s → tokenOk (token (this s)).
Proof.
  intros (env & now & ls & Hsteps).
  eapply (steps_ok ls (boot env now) s); [|exact Hsteps].
  split; [exact I|constructor].
Qed.

(** ** Turns of [refreshToken] and [getToken] that start a refresh *)

Lemma ownerRelay_refreshToken :
  ownerRelay (fun r =>
    let! tok := tryFinally
                  match r with Fulfilled x => Ret x | Rejected e => Throw e end
                  (this_set FRefreshPromise None) in
    Ret (VToken tok)).
Proof. intros [x|e] s; reflexivity. Qed.

Lemma joinerRelay_refreshToken :
  joinerRelay (fun r =>
    let! tok := match r with Fulfilled x => Ret x | Rejected e => Throw e end in
    Ret (VToken tok)).
Proof. intros [x|e] s; reflexivity. Qed.

Lemma run_refreshToken_exchange s :
  refreshPromise (this s) = None → truthyOpt (override s) = false →
  ∃ k0, (∀ x, worker (k0 x)) ∧
    run refreshToken s =
      (published (length (promises s)) (exchangeStarted k0 s),
       Waiting (Promise (length (promises s)))
         (fun r => tryFinally
                     match r with Fulfilled x => Ret x | Rejected e => Throw e end
                     (this_set FRefreshPromise None))).
Proof.
  intros Hidle Henv.
  destruct (run_doRefresh_exchange (setPromises (promises s ++ [None]) s) Henv)
    as (k0 & Hrun & Hw).
  exists k0. split; [exact Hw|].
  unfold refreshToken. cbn [this_get perform bind run performSync getField].
  rewrite Hidle. cbn [bind run]. rewrite Hrun. reflexivity.
Qed.

Lemma run_refreshToken_override s provided :
  refreshPromise (this s) = None →
  override s = Some provided → truthy provided = true →
  run refreshToken s =
    (published (length (promises s)) (overrideAdopted provided s),
     Waiting (Promise (length (promises s)))
       (fun r => tryFinally
                   match r with Fulfilled x => Ret x | Rejected e => Throw e end
                   (this_set FRefreshPromise None))).
Proof.
  intros Hidle Henv Ht.
  unfold refreshToken. cbn [this_get perform bind run performSync getField].
  rewrite Hidle. cbn [bind run].
  rewrite (run_doRefresh_override _ provided) by assumption. reflexivity.
Qed.

(** ** Cache hits, the override, reset *)

Lemma tokenValid_spec m now :
  tokenOk (token m) → tokenValid m now = true ↔ specValid m now.
Proof.
  unfold tokenValid, specValid, tokenOk, expiryBuffer.
  destruct (token m) as [t|], (tokenExpiry m) as [expiry|]; intros Hok.
  - rewrite Hok. simpl. rewrite Z.ltb_lt. split.
    + intros H. exists t, expiry. auto.
    + intros (t' & e' & _ & He & H). injection He as <-. exact H.
  - split; [discriminate|]. intros (? & ? & _ & ? & _). discriminate.
  - split; [discriminate|]. intros (? & ? & ? & _). discriminate.
  - split; [discriminate|]. intros (? & ? & ? & _). discriminate.
Qed.

Lemma run_refreshToken_suspends s :
  ∃ s' p k, run refreshToken s = (s', Waiting (Promise p) k).
Proof.
  destruct (refreshPromise (this s)) as [p|] eqn:Hrp.
  - rewrite (run_refreshToken_join s p Hrp). eauto.
  - destruct (truthyOpt (override s)) eqn:Henv.
    + destruct (override s) as [provided|] eqn:Ho; [|discriminate].
      rewrite (run_refreshToken_override s provided); eauto.
    + destruct (run_refreshToken_exchange s Hrp Henv) as (k0 & _ & ->). eauto.
Qed.

(** C2.  In every state the process can reach: [isTokenValid] is the
    validity predicate of the specification at the current time; on a valid
    record [getToken] returns the cached token within the turn and leaves the
    state exactly as it was (no field written, nothing logged, nothing
    awaited); on any other record it is [refreshToken], which suspends on a
    refresh; a record written with the 55-minute lifetime at time [T] is
    valid exactly before [T + 50 min]. *)
Theorem getToken_cache_hit (s : State) :
  reachable s →
  run isTokenValid s = (s, Finished (Fulfilled (tokenValid (this s) (clock s)))) ∧
  (tokenValid (this s) (clock s) = true ↔ specValid (this s) (clock s)) ∧
  (specValid (this s) (clock s) →
   ∃ t, token (this s) = Some t ∧ run getToken s = (s, Finished (Fulfilled t))) ∧
  (¬ specValid (this s) (clock s) →
   run getToken s = run refreshToken s ∧
   ∃ s' p k, run getToken s = (s', Waiting (Promise p) k)) ∧
  (∀ T t,
     token (this s) = Some t →
     tokenExpiry (this s) = Some (T + TOKEN_LIFETIME_MS) →
     (specValid (this s) (clock s) ↔ clock s < T + 50 * 60 * 1000)).
Proof.
  intros Hreach. pose proof (reachable_tokenOk s Hreach) as Hok.
  pose proof (tokenValid_spec (this s) (clock s) Hok) as Hspec.
  split; [apply run_isTokenValid|]. split; [exact Hspec|]. split; [|split].
  - intros Hv. apply run_getToken_valid, Hspec, Hv.
  - intros Hv.
    assert (Hf : tokenValid (this s) (clock s) = false).
    { destruct (tokenValid (this s) (clock s)); [|reflexivity].
      exfalso. apply Hv, Hspec. reflexivity. }
    rewrite (run_getToken_invalid s Hf). split; [reflexivity|].
    apply run_refreshToken_suspends.
  - intros T t Ht He. unfold specValid, TOKEN_LIFETIME_MS in *. split.
    + intros (t' & e' & _ & He' & H). rewrite He in He'. injection He' as <-. lia.
    + intros H. exists t, (T + 55 * 60 * 1000). repeat split; auto. lia.
Qed.

Lemma getToken_cache_hit_witness :
  let s := warmState in
  run isTokenValid s = (s, Finished (Fulfilled (tokenValid (this s) (clock s)))) ∧
  (tokenValid (this s) (clock s) = true ↔ specValid (this s) (clock s)) ∧
  (specValid (this s) (clock s) →
   ∃ t, token (this s) = Some t ∧ run getToken s = (s, Finished (Fulfilled t))) ∧
  (¬ specValid (this s) (clock s) →
   run getToken s = run refreshToken s ∧
   ∃ s' p k, run getToken s = (s', Waiting (Promise p) k)) ∧
  (∀ T t,
     token (this s) = Some t →
     tokenExpiry (this s) = Some (T + TOKEN_LIFETIME_MS) →
     (specValid (this s) (clock s) ↔ clock s < T + 50 * 60 * 1000)).
Proof.
  apply (getToken_cache_hit warmState).
  exists None, 1000, fiveCallers. reflexivity.
Defined.

(** C9.  On a valid cached record [getToken] returns the cached token
    whatever the override variable holds: the variable is read by
    [doRefresh] only, and [getToken] does not get there.  The state after
    the call differs from the state before only in the book-keeping of the
    call. *)
Theorem valid_cache_shadows_override (s : State) (env : option string) :
  tokenValid (this s) (clock s) = true →
  ∃ t,
    token (this s) = Some t ∧
    run getToken (setOverride env s) = (setOverride env s, Finished (Fulfilled t)) ∧
    step (Call GetToken) (setOverride env s) =
      Some (record (calls s) (Fulfilled (VToken t))
              (setCalls (S (calls s)) (setOverride env s))).
Proof.
  intros Hv.
  destruct (run_getToken_valid (setOverride env s) Hv) as (t & Ht & Hrun).
  exists t. split; [exact Ht|]. split; [exact Hrun|].
  destruct (run_getToken_valid (setCalls (S (calls s)) (setOverride env s)) Hv)
    as (t' & Ht' & Hrun').
  simpl in Ht, Ht'. rewrite Ht in Ht'. injection Ht' as <-.
  cbn [step program]. change (calls (setOverride env s)) with (calls s).
  rewrite run_bind, Hrun'. reflexivity.
Qed.

Lemma valid_cache_shadows_override_witness :
  ∃ t,
    token (this warmState) = Some t ∧
    run getToken (setOverride (Some "override-token") warmState)
      = (setOverride (Some "override-token") warmState, Finished (Fulfilled t)) ∧
    step (Call GetToken) (setOverride (Some "override-token") warmState) =
      Some (record (calls warmState) (Fulfilled (VToken t))
              (setCalls (S (calls warmState))
                 (setOverride (Some "override-token") warmState))).
Proof.
  apply (valid_cache_shadows_override warmState (Some "override-token")).
  reflexivity.
Defined.

(** C8, as the code has it.  [resetInstance] sets all three fields to
    [null], [refreshPromise] included.  It does not touch the promise itself
    nor the suspended body of a [doRefresh] in flight, which goes on. *)
Theorem resetInstance_clears_all (s : State) :
  ∃ s',
    step (Call ResetInstance) s = Some s' ∧
    this s' = mkManager None None None ∧
    promises s' = promises s ∧
    tasks s' = tasks s ∧
    results s' = results s ++ [(calls s, Fulfilled VUnit)].
Proof. eexists. split; [reflexivity|]. repeat split. Qed.

(** C8 as stated does not hold: after a first [getToken] on a fresh
    process a refresh is in flight and [refreshPromise] is its promise; a
    reset at this point sets the field to [null]. *)
Lemma resetInstance_clears_refreshPromise :
  ∃ s s',
    steps [Call GetToken] (boot None 0) = Some s ∧
    refreshPromise (this s) = Some 0%nat ∧
    step (Call ResetInstance) s = Some s' ∧
    refreshPromise (this s') = None ∧
    refreshPromise (this s') ≠ refreshPromise (this s).
Proof.
  eexists _, _. split; [reflexivity|]. split; [reflexivity|].
  split; [reflexivity|]. split; [reflexivity|]. discriminate.
Qed.

(** C4.  With a non-empty override variable, [doRefresh] completes within
    its first turn: it awaits nothing (no identity token is requested, no
    exchange is made), stores the override as the token with an expiry one
    year ahead and returns it.  A [getToken] that starts such a refresh (the
    cache is not valid, no refresh is in flight) settles, as soon as the loop
    gives it the promise, to exactly the override string; between the call and
    its result the trace gains the two log lines of [doRefresh] and the wait
    for the promise, and nothing else. *)
Theorem override_precedence (s : State) (provided : string) :
  override s = Some provided → truthy provided = true →
  run doRefresh s =
    (setThis (mkManager (Some provided)
                (Some (clock s + 365 * 24 * 60 * 60 * 1000))
                (refreshPromise (this s)))
       (emit (Logged LogUsingProvided) (emit (Logged LogRefreshing) s)),
     Finished (Fulfilled provided)) ∧
  (tokenValid (this s) (clock s) = false → idle s →
   ∃ s1 s2,
     step (Call GetToken) s = Some s1 ∧
     step (Wake (length (tasks s))) s1 = Some s2 ∧
     results s2 = results s ++ [(calls s, Fulfilled (VToken provided))] ∧
     trace s2 = trace s ++ [Logged LogRefreshing; Logged LogUsingProvided;
                            Awaited (Promise (length (promises s)))] ∧
     this s2 = mkManager (Some provided)
                 (Some (clock s + 365 * 24 * 60 * 60 * 1000)) None).
Proof.
  intros Henv Ht. split; [apply run_doRefresh_override; assumption|].
  intros Hv Hidle.
  eexists _, _. split.
  { cbn [step program]. rewrite run_bind, run_getToken_invalid by exact Hv.
    rewrite (run_refreshToken_override _ provided) by assumption.
    reflexivity. }
  split.
  { cbn [step]. unfold park, published, overrideAdopted, settle. simpl.
    rewrite lookup_app_r by reflexivity. rewrite Nat.sub_diag. simpl.
    rewrite list_lookup_insert_eq by (rewrite length_app; simpl; lia).
    simpl. reflexivity. }
  simpl. rewrite <- !app_assoc. auto.
Qed.

Lemma override_precedence_witness :
  let s := boot (Some "override-token") 1000 in
  run doRefresh s =
    (setThis (mkManager (Some "override-token")
                (Some (clock s + 365 * 24 * 60 * 60 * 1000))
                (refreshPromise (this s)))
       (emit (Logged LogUsingProvided) (emit (Logged LogRefreshing) s)),
     Finished (Fulfilled "override-token")) ∧
  (tokenValid (this s) (clock s) = false → idle s →
   ∃ s1 s2,
     step (Call GetToken) s = Some s1 ∧
     step (Wake (length (tasks s))) s1 = Some s2 ∧
     results s2 = results s ++ [(calls s, Fulfilled (VToken "override-token"))] ∧
     trace s2 = trace s ++ [Logged LogRefreshing; Logged LogUsingProvided;
                            Awaited (Promise (length (promises s)))] ∧
     this s2 = mkManager (Some "override-token")
                 (Some (clock s + 365 * 24 * 60 * 60 * 1000)) None).
Proof.
  apply (override_precedence (boot (Some "override-token") 1000) "override-token");
    reflexivity.
Defined.

(** ** What a refresh writes *)

Lemma noWrites_retryLayout {T} max maxDelay factor failed :
  ∀ attempt delay last (lastr : Settled T),
    Forall (fun f => noWrites (fst f)) failed → noWrites last →
    noWrites (retryLayout max maxDelay factor attempt delay failed last lastr).
Proof.
  induction failed as [|[π e] failed IH]; intros attempt delay last lastr Hf Hl;
    simpl.
  - constructor; [reflexivity|]. apply Forall_app. split; [exact Hl|].
    destruct lastr; repeat constructor.
  - apply Forall_cons in Hf as [Hπ Hf]. simpl in Hπ.
    constructor; [reflexivity|]. apply Forall_app. split; [exact Hπ|].
    repeat (constructor; [reflexivity|]). apply IH; assumption.
Qed.

Lemma noWrites_retryWithBackoff {T} (operation : Async T) options :
  (∀ π r, path operation π r → noWrites π) →
  ∀ π r, path (retryWithBackoff operation options) π r → noWrites π.
Proof.
  intros Hop π r H. unfold retryWithBackoff in H.
  destruct (Z.le_gt_cases 1 (orDefault (maxAttempts options) 3)) as [Hle|Hgt].
  - apply path_retryLoop in H
      as (failed & last & lastr & Hf & Hl & _ & _ & -> & _); [|lia|lia].
    apply noWrites_retryLayout; [|eapply Hop; exact Hl].
    eapply Forall_impl; [exact Hf|]. intros [π' e] Hp. eapply Hop. exact Hp.
  - rewrite retryLoop_past in H by lia.
    apply path_retryExhausted in H as [-> _]. repeat constructor.
Qed.

Lemma noWrites_retry_getOidcToken π r :
  path (retryWithBackoff getOidcToken noOptions) π r → noWrites π.
Proof.
  apply noWrites_retryWithBackoff. clear. intros π r. simpl.
  intros ([x|e] & π' & -> & H); simpl in H.
  - destruct H as [-> _]. repeat constructor.
  - destruct H as ([] & π'' & -> & -> & _). repeat constructor.
Qed.

Lemma noWrites_retry_exchange oidcToken π r :
  path (retryWithBackoff (exchangeForAppToken oidcToken) noOptions) π r →
  noWrites π.
Proof.
  apply noWrites_retryWithBackoff. clear. intros π r. simpl.
  intros ([resp|e] & π1 & -> & H); simpl in H.
  - destruct (ok resp); simpl in H; destruct H as ([body|e] & π2 & -> & H);
      simpl in H.
    + destruct (truthyOpt _); destruct H as [-> _]; repeat constructor.
    + destruct H as [-> _]. repeat constructor.
    + destruct H as ([] & π3 & -> & -> & _). repeat constructor.
    + destruct H as [-> _]. repeat constructor.
  - destruct H as [-> _]. repeat constructor.
Qed.

(** ** Single flight *)




Section FlightLemmas.
Variables (p : pid) (lo w : nat) (base : list (nat * Settled Value)).



End FlightLemmas.

Section FlightSteps.
Variables (p : pid) (lo w : nat) (base : list (nat * Settled Value)).




End FlightSteps.


(** An idle manager with a cold cache starts a refresh for the next call,
    whatever has happened before. *)
Lemma step_getToken_starts s :
  idle s → tokenValid (this s) (clock s) = false →
  ∃ s1,
    step (Call GetToken) s = Some s1 ∧
    length (promises s1) = S (length (promises s)) ∧
    refreshPromise (this s1) = Some (length (promises s)).
Proof.
  intros Hidle Hv. destruct (truthyOpt (override s)) eqn:Henv.
  - destruct (override s) as [provided|] eqn:Ho; [|discriminate]. simpl in Henv.
    eexists. split.
    { cbn [step program]. rewrite run_bind, run_getToken_invalid by exact Hv.
      rewrite (run_refreshToken_override _ provided) by assumption.
      reflexivity. }
    simpl. rewrite length_insert, length_app. simpl. split; [lia|reflexivity].
  - destruct (run_refreshToken_exchange (setCalls (S (calls s)) s) Hidle Henv)
      as (k0 & Hw & Hrun).
    eexists. split.
    { cbn [step program]. rewrite run_bind, run_getToken_invalid by exact Hv.
      rewrite Hrun. reflexivity. }
    simpl. rewrite length_app. simpl. split; [lia|reflexivity].
Qed.

(** ** The work of the refresh in the window *)







(** The scenario of the test suite, run: five concurrent callers, one
    request to the exchange endpoint, five times the same token, and the
    manager idle again with the token cached for 55 minutes. *)
Lemma five_concurrent_callers :
  ∃ s,
    steps fiveCallers (boot None 1000) = Some s ∧
    results s = [(0, Fulfilled (VToken "mock-app-token"));
                 (1, Fulfilled (VToken "mock-app-token"));
                 (2, Fulfilled (VToken "mock-app-token"));
                 (3, Fulfilled (VToken "mock-app-token"));
                 (4, Fulfilled (VToken "mock-app-token"))]%nat ∧
    fetches (trace s) = 1%nat ∧
    promises s = [Some (Fulfilled "mock-app-token")] ∧
    quiescent s ∧
    this s = mkManager (Some "mock-app-token") (Some (1000 + TOKEN_LIFETIME_MS)) None.
Proof.
  eexists. split; [vm_compute; reflexivity|].
  repeat split. repeat constructor.
Qed.

(** The scenario of a stale GraphQL client: the first request is answered
    401, the hook refreshes once (one request to the exchange endpoint),
    repeats the request with the new token, is answered 401 again and gives up
    with that error. *)
Lemma stale_client_retries_once :
  ∃ s,
    steps staleClient (boot None 1000) = Some s ∧
    results s = [(0%nat, Rejected unauthorized)] ∧
    requested (trace s) = [staleRequest; withToken staleRequest "mock-app-token"] ∧
    fetches (trace s) = 1%nat ∧
    quiescent s ∧ idle s.
Proof.
  eexists. split; [vm_compute; reflexivity|].
  repeat split. repeat constructor.
Qed.

(** The same 401 on the REST client, where the hook does not run: the
    error is the outcome; no refresh is started and the request is not
    repeated. *)
Lemma stale_rest_client_not_retried :
  ∃ s,
    steps staleRestClient (boot None 1000) = Some s ∧
    results s = [(0%nat, Rejected unauthorized)] ∧
    requested (trace s) = [staleRestRequest] ∧
    fetches (trace s) = 0%nat ∧
    promises s = [] ∧
    quiescent s ∧ idle s.
Proof.
  eexists. split; [vm_compute; reflexivity|].
  repeat split. repeat constructor.
Qed.

(** ** Turns follow paths

    A turn of a call that calls no async function performs a prefix of one
    of its paths, up to the suspension point where it stops; what it has
    written to the fields is what this prefix writes. *)
Lemma run_path {A} (t : Async A) :
  worker t → ∀ s,
    ∃ π0,
      Forall (fun o => isAwait o = false ∧ isCall o = false) π0 ∧
      this (run t s).1 = written π0 (this s) ∧
      match (run t s).2 with
      | Finished r => path t π0 r
      | Waiting e k => ∀ x π r, path (k x) π r → path t (π0 ++ Got e x :: π) r
      end.
Proof.
  induction t as [A a|A e|A X e k IH|A X e k IH|A body _ k IH];
    intros Ht s; simpl in *.
  - exists []. repeat split. constructor.
  - exists []. repeat split. constructor.
  - destruct Ht as [_ Hk].
    assert (Hthis : this (performSync e s).1
                    = match e with
                      | WriteField f v => setField f v (this s)
                      | _ => this s
                      end).
    { destruct e; reflexivity. }
    destruct (performSync e s) as [s1 x] eqn:Hs. simpl in Hthis.
    destruct (IH x (Hk x) s1) as (π1 & Hπ & Hw & Hp).
    exists (Did e x :: π1). split; [constructor; [split; reflexivity|exact Hπ]|].
    split; [simpl; rewrite Hw, Hthis; reflexivity|].
    destruct (run (k x) s1) as [s2 [r|X' e' k']]; simpl in *.
    + eauto.
    + intros x' π r Hr. exists x, (π1 ++ Got e' x' :: π). auto.
  - exists []. split; [constructor|]. split; [reflexivity|].
    intros x π r Hr. simpl. eauto.
  - contradiction.
Qed.

(** ** The token record is whole between turns *)

Lemma whole_bind {A B} (t : Async A) (f : A -> Async B) :
  ∀ pend, whole pend t → (∀ a, whole None (f a)) → whole pend (bind t f).
Proof.
  revert B f. induction t as [A a|A e|A X e k IH|A X e k IH|A body _ k IH];
    intros B f pend Ht Hf; simpl in *.
  - subst pend. apply Hf.
  - exact Ht.
  - destruct (pendingAfter e pend); [|contradiction]. intros x. apply IH; auto.
  - destruct Ht as [-> Hk]. split; [reflexivity|]. intros x. apply IH; auto.
  - destruct Ht as (-> & Hb & Hk). split; [reflexivity|]. split; [exact Hb|].
    intros p. apply IH; auto.
Qed.

Lemma whole_tryCatch {A} (t : Async A) (h : Thrown -> Async A) :
  ∀ pend, whole pend t → (∀ e, whole None (h e)) → whole pend (tryCatch t h).
Proof.
  revert h. induction t as [A a|A e|A X e k IH|A X e k IH|A body _ k IH];
    intros h pend Ht Hh; simpl in *.
  - exact Ht.
  - subst pend. apply Hh.
  - destruct (pendingAfter e pend); [|contradiction]. intros x. apply IH; auto.
  - destruct Ht as [-> Hk]. split; [reflexivity|]. intros x. apply IH; auto.
  - destruct Ht as (-> & Hb & Hk). split; [reflexivity|]. split; [exact Hb|].
    intros p. apply IH; auto.
Qed.

Lemma whole_log {A} (l : LogLine) (t : Async A) :
  whole None t → whole None (log l ;; t).
Proof. simpl. auto. Qed.

Lemma whole_retryLoop {T} (operation : Async T) max maxDelay factor fuel :
  whole None operation →
  ∀ attempt delay lastError,
    whole None (retryLoop operation max maxDelay factor fuel attempt delay lastError).
Proof.
  intros Hop. induction fuel as [|fuel IH]; intros attempt delay lastError.
  - simpl. auto.
  - cbn [retryLoop]. destruct (attempt <=? max); [|simpl; auto].
    apply whole_tryCatch; [apply whole_log, Hop|].
    intros e. apply whole_log.
    destruct (attempt <? max); [|apply IH].
    apply whole_log. simpl. split; [reflexivity|]. intros _. apply IH.
Qed.

Lemma whole_retryWithBackoff {T} (operation : Async T) options :
  whole None operation → whole None (retryWithBackoff operation options).
Proof. intros H. apply whole_retryLoop, H. Qed.

Lemma whole_getOidcToken : whole None getOidcToken.
Proof. simpl. split; [reflexivity|]. intros [x|e]; simpl; auto. Qed.

Lemma whole_exchangeForAppToken oidcToken :
  whole None (exchangeForAppToken oidcToken).
Proof.
  simpl. split; [reflexivity|]. intros [resp|e]; simpl; auto.
  destruct (ok resp); simpl; (split; [reflexivity|]); intros [body|e]; simpl; auto.
  destruct (truthyOpt _); simpl; auto.
Qed.

Lemma whole_doRefresh : whole None doRefresh.
Proof.
  unfold doRefresh. apply whole_log, whole_tryCatch; [|intros e; simpl; auto].
  cbn [perform bind whole pendingAfter]. intros env.
  destruct (truthyOpt env) eqn:Henv.
  - destruct env as [provided|]; [|discriminate]. simpl. auto.
  - apply whole_bind;
      [apply whole_retryWithBackoff, whole_getOidcToken|].
    intros oidcToken. apply whole_log. apply whole_bind;
      [apply whole_retryWithBackoff, whole_exchangeForAppToken|].
    intros appToken. simpl. auto.
Qed.

Lemma whole_refreshToken : whole None refreshToken.
Proof.
  unfold refreshToken. cbn [this_get perform bind whole pendingAfter].
  intros [p|].
  - simpl. intros _. split; [reflexivity|]. intros [x|e]; simpl; auto.
  - cbn [whole]. split; [reflexivity|]. split; [apply whole_doRefresh|].
    intros p. simpl. intros _. split; [reflexivity|].
    intros [x|e]; simpl; auto.
Qed.

Lemma whole_getToken : whole None getToken.
Proof.
  unfold getToken. apply whole_bind.
  - unfold isTokenValid. simpl. intros tok.
    destruct (negb (truthyOpt tok)); simpl; [reflexivity|].
    intros [expiry|]; simpl; auto.
  - intros [|]; [simpl; auto|apply whole_refreshToken].
Qed.

Lemma whole_hook client options : whole None (hook client options).
Proof.
  unfold hook. apply whole_tryCatch.
  - simpl. split; [reflexivity|]. intros [x|e]; simpl; auto.
  - intros e. destruct (statusOf e) as [st|]; [|simpl; auto].
    destruct (isAuthStatus st); [|simpl; auto].
    apply whole_log, whole_bind; [apply whole_refreshToken|].
    intros newToken. simpl. split; [reflexivity|]. intros [x|e']; simpl; auto.
Qed.

Lemma whole_clientRequest client options :
  whole None (clientRequest client options).
Proof.
  destruct client; [|apply whole_hook].
  simpl. split; [reflexivity|]. intros [x|e]; simpl; auto.
Qed.

Lemma whole_program a : whole None (program a).
Proof.
  destruct a as [| |client options|]; cbn [program].
  - apply whole_bind; [apply whole_getToken|]. intros tok. reflexivity.
  - apply whole_bind; [|intros o; reflexivity].
    unfold createOctokit. apply whole_bind; [apply whole_getToken|].
    intros tok. reflexivity.
  - apply whole_bind; [apply whole_clientRequest|]. intros r. reflexivity.
  - simpl. auto.
Qed.

Lemma performSync_whole {X} (e : SyncE X) pend pend' s :
  pendingAfter e pend = Some pend' → recordAt pend (this s) →
  recordAt pend' (this (performSync e s).1).
Proof.
  destruct e as [X f|X f v| | |l]; simpl; intros He Hs;
    try (injection He as <-; exact Hs).
  destruct f; simpl in *.
  - destruct pend; [discriminate|]. injection He as <-. reflexivity.
  - destruct pend as [b|]; [|discriminate].
    destruct (Bool.eqb b (isSome v)) eqn:Hb; [|discriminate].
    injection He as <-. apply Bool.eqb_prop in Hb.
    change (isSome (token (this s)) = isSome v).
    change (isSome (token (this s)) = b) in Hs. congruence.
  - injection He as <-. destruct pend; exact Hs.
Qed.

Lemma run_whole {A} (t : Async A) :
  ∀ pend s,
    whole pend t → recordAt pend (this s) → Forall taskWhole (tasks s) →
    recordWhole (this (run t s).1) ∧
    Forall taskWhole (tasks (run t s).1) ∧
    match (run t s).2 with
    | Finished _ => True
    | Waiting _ k => ∀ x, whole None (k x)
    end.
Proof.
  induction t as [A a|A e|A X e k IH|A X e k IH|A body IHb k IH];
    intros pend s Ht Hs Hts; simpl in *.
  - subst pend. auto.
  - subst pend. auto.
  - destruct (pendingAfter e pend) as [pend'|] eqn:He; [|contradiction].
    pose proof (performSync_whole e pend pend' s He Hs) as Hs1.
    assert (Hts1 : tasks (performSync e s).1 = tasks s).
    { destruct e; reflexivity. }
    destruct (performSync e s) as [s1 x]. simpl in Hs1, Hts1.
    apply (IH x pend'); [apply Ht|exact Hs1|rewrite Hts1; exact Hts].
  - destruct Ht as [-> Hk]. auto.
  - destruct Ht as (-> & Hb & Hk).
    destruct (IHb None (setPromises (promises s ++ [None]) s) Hb Hs Hts)
      as (Hs1 & Hts1 & Hr).
    destruct (run body _) as [s1 r]. simpl in Hs1, Hts1, Hr.
    apply (IH _ None); [apply Hk| |].
    + destruct r; exact Hs1.
    + destruct r as [v|X e k']; simpl; [exact Hts1|].
      apply Forall_app. split; [exact Hts1|]. repeat constructor. exact Hr.
Qed.

Lemma advance_whole (deliver : ∀ X, AwaitE X → option X) i t s s' :
  recordWhole (this s) → Forall taskWhole (tasks s) →
  tasks s !! i = Some (Some t) →
  advance deliver i t s = Some s' →
  recordWhole (this s') ∧ Forall taskWhole (tasks s').
Proof.
  intros Hs Hts Hi Hadv.
  assert (Ht : taskWhole (Some t)) by (eapply Forall_lookup_1 in Hts; eauto).
  destruct t as [p X e k|c X e k]; simpl in Hadv, Ht;
    destruct (deliver _ e) as [x|]; try discriminate; simpl in Hadv;
    destruct (run_whole (k x) None s (Ht x) Hs Hts) as (Hs1 & Hts1 & Hr);
    destruct (run (k x) s) as [s1 r]; simpl in Hs1, Hts1, Hr;
    injection Hadv as <-;
    destruct r as [v|X' e' k']; split; simpl; auto;
    apply Forall_insert; auto.
Qed.

Lemma step_whole l s s' :
  recordWhole (this s) → Forall taskWhole (tasks s) →
  step l s = Some s' →
  recordWhole (this s') ∧ Forall taskWhole (tasks s').
Proof.
  intros Hs Hts Hstep. destruct l as [a|i a|i|now|v]; simpl in Hstep.
  - destruct (run_whole (program a) None (setCalls (S (calls s)) s)
                (whole_program a) Hs Hts) as (Hs1 & Hts1 & Hr).
    destruct (run (program a) _) as [s1 r]. simpl in Hs1, Hts1, Hr.
    injection Hstep as <-.
    destruct r as [v|X e k]; split; simpl; auto.
    apply Forall_app. split; [exact Hts1|]. repeat constructor. exact Hr.
  - destruct (tasks s !! i) as [[t|]|] eqn:Hi; try discriminate.
    simpl in Hstep. eapply advance_whole; eauto.
  - destruct (tasks s !! i) as [[t|]|] eqn:Hi; try discriminate.
    simpl in Hstep. eapply advance_whole; eauto.
  - injection Hstep as <-. auto.
  - injection Hstep as <-. auto.
Qed.

(** In every state the process can reach, between two turns, the token
    and its expiry are both set or both [null]. *)
Lemma reachable_recordWhole s : reachable s → recordWhole (this s).
Proof.
  intros (env & now & ls & Hsteps).
  assert (H : ∀ ls s0, recordWhole (this s0) → Forall taskWhole (tasks s0) →
                steps ls s0 = Some s → recordWhole (this s)).
  { clear. induction ls as [|l ls IH]; intros s0 Hs Hts Hsteps; simpl in Hsteps.
    - injection Hsteps as <-. exact Hs.
    - destruct (step l s0) as [s1|] eqn:Hstep; [|discriminate]. simpl in Hsteps.
      destruct (step_whole l s0 s1 Hs Hts Hstep) as [Hs1 Hts1]. eauto. }
  apply (H ls (boot env now)); [reflexivity|constructor|exact Hsteps].
Qed.

(** C7.  A [doRefresh] that fails has assigned no field at all.  A
    [doRefresh] that succeeds with [tok] has assigned nothing until its very
    last steps, which assign the token and the expiry one after the other,
    with only the reading of the clock in between and no suspension point:
    no other call can see one of the two fields updated without the other.
    Accordingly, in every state the process can reach, between two turns of
    the event loop, the token and the expiry are both set or both [null]. *)
Theorem doRefresh_record_atomic :
  (∀ (π : list Obs) (r : Settled string),
     path doRefresh π r →
     match r with
     | Rejected _ => noWrites π
     | Fulfilled tok =>
         ∃ π0 now lifetime,
           π = π0 ++ recordWritten tok now lifetime ∧
           noWrites π0 ∧
           (lifetime = TOKEN_LIFETIME_MS ∨ lifetime = overrideLifetimeMs)
     end) ∧
  (∀ s, reachable s → recordWhole (this s)).
Proof.
  split; [|exact reachable_recordWhole].
  intros π r H.
  apply path_doRefresh in H
    as [(provided & now & Ht & -> & ->)|[(env & π1 & e & Henv & H1 & -> & ->)|
      [(env & π1 & oidcToken & π2 & e & Henv & H1 & H2 & -> & ->)|
       (env & π1 & oidcToken & π2 & appToken & now & Henv & H1 & H2 & -> & ->)]]].
  - exists [said LogRefreshing; Did EnvOverride (Some provided);
            said LogUsingProvided], now, overrideLifetimeMs.
    split; [reflexivity|]. split; [repeat constructor|auto].
  - apply noWrites_retry_getOidcToken in H1.
    repeat constructor. apply Forall_app. split; [exact H1|repeat constructor].
  - apply noWrites_retry_getOidcToken in H1.
    apply noWrites_retry_exchange in H2.
    repeat constructor. apply Forall_app. split; [exact H1|].
    constructor; [reflexivity|].
    apply Forall_app. split; [exact H2|repeat constructor].
  - apply noWrites_retry_getOidcToken in H1.
    apply noWrites_retry_exchange in H2.
    exists (said LogRefreshing :: Did EnvOverride env :: π1 ++
            said LogOidcObtained :: π2 ++ [said LogAppObtained]),
      now, TOKEN_LIFETIME_MS.
    split; [|split; [|auto]].
    + simpl. rewrite <- !app_assoc. simpl. rewrite <- !app_assoc. reflexivity.
    + repeat constructor. apply Forall_app. split; [exact H1|].
      constructor; [reflexivity|].
      apply Forall_app. split; [exact H2|repeat constructor].
Qed.

Lemma doRefresh_record_atomic_witness :
  (∃ π0 now lifetime,
     [said LogRefreshing; Did EnvOverride (Some "override-token");
      said LogUsingProvided;
      Did (WriteField FToken (Some "override-token")) tt;
      Did DateNow 1000;
      Did (WriteField FTokenExpiry (Some (1000 + overrideLifetimeMs))) tt]
     = π0 ++ recordWritten "override-token" now lifetime ∧
     noWrites π0 ∧
     (lifetime = TOKEN_LIFETIME_MS ∨ lifetime = overrideLifetimeMs)) ∧
  recordWhole (this warmState).
Proof.
  split.
  - apply (proj1 doRefresh_record_atomic _ (Fulfilled "override-token")).
    unfold doRefresh. simpl.
    eexists tt, _. split; [reflexivity|].
    eexists (Some "override-token"), _. split; [reflexivity|]. simpl.
    eexists tt, _. split; [reflexivity|].
    eexists tt, _. split; [reflexivity|].
    eexists 1000, _. split; [reflexivity|].
    eexists tt, _. split; [reflexivity|]. split; reflexivity.
  - apply (proj2 doRefresh_record_atomic warmState).
    exists None, 1000, fiveCallers. reflexivity.
Defined.

(** ** The identity token *)

Lemma path_getOidcToken π r :
  path getOidcToken π r ↔
    (∃ tok,
        π = [Got (GetIDToken oidcAudience) (Fulfilled tok)] ∧ r = Fulfilled tok) ∨
    (∃ e,
        π = [Got (GetIDToken oidcAudience) (Rejected e); said (LogOidcFailed e)] ∧
        r = Rejected (Err (newError oidcHint))).
Proof.
  unfold getOidcToken. simpl. split.
  - intros ([tok|e] & π' & -> & H); simpl in H.
    + destruct H as [-> ->]. left. eauto.
    + destruct H as ([] & π'' & -> & -> & ->). right. eauto.
  - intros [(tok & -> & ->)|(e & -> & ->)].
    + eexists _, _. split; [reflexivity|]. simpl. auto.
    + eexists _, _. split; [reflexivity|]. simpl.
      eexists tt, _. split; [reflexivity|]. auto.
Qed.

(** X1.  The executions of [getOidcToken] are exactly these two.  It asks
    the identity provider once, for the audience
    ["claude-code-github-action"].  When the provider answers, the token is
    returned as it is and nothing is logged.  When the provider fails, with
    whatever value, that value goes to the console only: what is thrown is
    always the same new [Error], whose message is the hint about the
    [id-token: write] permission and which has no [status]. *)
Theorem getOidcToken_outcomes (π : list Obs) (r : Settled string) :
  path getOidcToken π r ↔
    (∃ tok,
        π = [Got (GetIDToken "claude-code-github-action") (Fulfilled tok)] ∧
        r = Fulfilled tok) ∨
    (∃ e,
        π = [Got (GetIDToken "claude-code-github-action") (Rejected e);
             said (LogOidcFailed e)] ∧
        r = Rejected (Err (mkError "Error"
              "Could not fetch an OIDC token. Did you remember to add `id-token: write` to your workflow permissions?"
              None))).
Proof. exact (path_getOidcToken π r). Qed.

(** ** What the retry executor adds to the requests of its operation *)

Section RetryProjections.
Context {T : Type}.
Variables (max maxDelay factor : Z).

(** The executor sends nothing itself: a projection that ignores the
    console and the timers sees the requests of the attempts, in order. *)
Lemma omap_retryLayout {B} (g : Obs → option B) failed :
  (∀ l, g (said l) = None) → (∀ ms, g (slept ms) = None) →
  ∀ attempt delay last (lastr : Settled T),
    omap g (retryLayout max maxDelay factor attempt delay failed last lastr)
    = concat (map (fun f => omap g (fst f)) failed) ++ omap g last.
Proof.
  intros Hsaid Hslept.
  induction failed as [|[π e] failed IH]; intros attempt delay last lastr;
    cbn [retryLayout map concat fst].
  - cbn [omap list_omap]. rewrite Hsaid, omap_app.
    destruct lastr; cbn [omap list_omap]; rewrite ?Hsaid, ?app_nil_r; reflexivity.
  - cbn [omap list_omap]. rewrite Hsaid, omap_app. cbn [app omap list_omap].
    rewrite !Hsaid, Hslept, IH, app_assoc. reflexivity.
Qed.

(** The timers of the executor, when the operation sets none. *)
Lemma sleeps_retryLayout failed :
  ∀ attempt delay last (lastr : Settled T),
    Forall (fun f => sleeps (fst f) = []) failed → sleeps last = [] →
    sleeps (retryLayout max maxDelay factor attempt delay failed last lastr)
    = backoff maxDelay factor delay (length failed).
Proof.
  unfold sleeps.
  induction failed as [|[π e] failed IH]; intros attempt delay last lastr Hf Hl;
    cbn [retryLayout length backoff].
  - cbn [omap list_omap sleepOf said]. rewrite omap_app, Hl.
    destruct lastr; reflexivity.
  - apply Forall_cons in Hf as [Hπ Hf]. cbn [fst] in Hπ.
    cbn [omap list_omap sleepOf said]. rewrite omap_app, Hπ.
    cbn [app omap list_omap sleepOf said slept]. f_equal. apply IH; assumption.
Qed.
End RetryProjections.

Lemma concat_map_nil {A B} (h : A → list B) (l : list A) :
  Forall (fun a => h a = []) l → concat (map h l) = [].
Proof. induction 1 as [|a l Ha _ IH]; simpl; [reflexivity|]. rewrite Ha, IH. reflexivity. Qed.

Lemma concat_map_singleton {A B} (h : A → list B) (x : B) (l : list A) :
  Forall (fun a => h a = [x]) l → concat (map h l) = repeat x (length l).
Proof.
  induction 1 as [|a l Ha _ IH]; simpl; [reflexivity|]. rewrite Ha, IH. reflexivity.
Qed.

(** One attempt to get the identity token. *)
Lemma attempt_getOidcToken π r :
  path getOidcToken π r →
  idTokensAsked π = [oidcAudience] ∧ fetched π = [] ∧ sleeps π = [] ∧
  clockReads π = [] ∧
  match r with
  | Fulfilled tok => π = [Got (GetIDToken oidcAudience) (Fulfilled tok)]
  | Rejected e => e = Err (newError oidcHint)
  end.
Proof.
  intros [(tok & -> & ->)|(e & -> & ->)]%path_getOidcToken; repeat split.
Qed.

(** One attempt to exchange it. *)
Lemma attempt_exchange oidcToken π r :
  path (exchangeForAppToken oidcToken) π r →
  idTokensAsked π = [] ∧ fetched π = [exchangeRequest oidcToken] ∧
  sleeps π = [] ∧ clockReads π = [] ∧
  match r with
  | Fulfilled tok => truthy tok = true
  | Rejected _ => True
  end.
Proof.
  unfold exchangeForAppToken. fold (exchangeRequest oidcToken). simpl.
  intros ([resp|e] & π1 & -> & H); simpl in H.
  - destruct (ok resp); simpl in H; destruct H as ([body|e] & π2 & -> & H);
      simpl in H.
    + destruct (truthyOpt _) eqn:Ht; simpl in H; destruct H as [-> ->];
        repeat split.
      destruct (orElse _ _) as [t|]; simpl in *; [exact Ht|discriminate].
    + destruct H as [-> ->]. repeat split.
    + destruct H as ([] & π3 & -> & -> & ->). repeat split.
    + destruct H as [-> ->]. repeat split.
  - destruct H as [-> ->]. repeat split.
Qed.

(** The identity stage of a refresh: up to three attempts. *)
Lemma retry_getOidcToken_summary π r :
  path (retryWithBackoff getOidcToken noOptions) π r →
  ∃ n, (n ≤ 2)%nat ∧
    idTokensAsked π = repeat oidcAudience (S n) ∧ fetched π = [] ∧
    sleeps π = backoff 20000 2 5000 n ∧ clockReads π = [] ∧
    match r with
    | Fulfilled tok =>
        ∃ π0, π = π0 ++ [Got (GetIDToken oidcAudience) (Fulfilled tok)] ∧
              fetched π0 = []
    | Rejected e => n = 2%nat ∧ e = Err (newError oidcHint)
    end.
Proof.
  unfold retryWithBackoff. intros H.
  apply path_retryLoop in H
    as (failed & last & lastr & Hf & Hl & Hn & Hrej & -> & ->);
    [|simpl; lia|simpl; lia].
  cbn [noOptions maxAttempts initialDelayMs maxDelayMs backoffFactor orDefault]
    in *.
  exists (length failed).
  assert (Hfa : Forall (fun f => idTokensAsked (fst f) = [oidcAudience] ∧
                  fetched (fst f) = [] ∧ sleeps (fst f) = [] ∧
                  clockReads (fst f) = []) failed).
  { eapply Forall_impl; [exact Hf|]. intros [π e] Hp.
    apply attempt_getOidcToken in Hp. tauto. }
  destruct (attempt_getOidcToken _ _ Hl) as (Hl1 & Hl2 & Hl3 & Hl4 & Hl5).
  split; [lia|]. split; [|split; [|split; [|split]]].
  - unfold idTokensAsked. rewrite omap_retryLayout by reflexivity.
    rewrite (concat_map_singleton _ oidcAudience)
      by (eapply Forall_impl; [exact Hfa|]; cbn; tauto).
    fold (idTokensAsked last). rewrite Hl1.
    rewrite <- repeat_cons. reflexivity.
  - unfold fetched. rewrite omap_retryLayout by reflexivity.
    rewrite concat_map_nil
      by (eapply Forall_impl; [exact Hfa|]; cbn; tauto).
    exact Hl2.
  - apply sleeps_retryLayout; [|exact Hl3].
    eapply Forall_impl; [exact Hfa|]. cbn. tauto.
  - unfold clockReads. rewrite omap_retryLayout by reflexivity.
    rewrite concat_map_nil
      by (eapply Forall_impl; [exact Hfa|]; cbn; tauto).
    exact Hl4.
  - destruct lastr as [tok|e]; cbn [retryResult].
    + subst last.
      assert (Hshape : ∀ attempt delay,
                ∃ π0, retryLayout 3 20000 2 attempt delay failed
                        [Got (GetIDToken oidcAudience) (Fulfilled tok)]
                        (Fulfilled tok)
                      = π0 ++ [Got (GetIDToken oidcAudience) (Fulfilled tok)] ∧
                      fetched π0 = []).
      { clear -Hfa. induction failed as [|[π e] failed IH]; intros attempt delay.
        - exists [said (LogAttempt attempt 3)]. split; reflexivity.
        - apply Forall_cons in Hfa as [(_ & Hπ & _) Hfa]. cbn [fst] in Hπ.
          destruct (IH Hfa (attempt + 1) (nextDelay 20000 2 delay))
            as (π0 & Heq & H0).
          exists (said (LogAttempt attempt 3) :: π ++
                  [said (LogAttemptFailed attempt (message (asError e)));
                   said (LogRetrying delay); slept delay] ++ π0).
          split.
          + cbn [retryLayout app]. rewrite Heq, <- app_assoc. reflexivity.
          + unfold fetched in *. cbn [omap list_omap fetchOf said].
            rewrite !omap_app, Hπ, H0. reflexivity. }
      apply Hshape.
    + specialize (Hrej I). split; [lia|]. subst e. reflexivity.
Qed.

(** The exchange stage of a refresh: up to three attempts, all with the
    same identity token. *)
Lemma retry_exchange_summary oidcToken π r :
  path (retryWithBackoff (exchangeForAppToken oidcToken) noOptions) π r →
  ∃ n, (n ≤ 2)%nat ∧
    idTokensAsked π = [] ∧
    fetched π = repeat (exchangeRequest oidcToken) (S n) ∧
    sleeps π = backoff 20000 2 5000 n ∧ clockReads π = [] ∧
    match r with
    | Fulfilled tok => truthy tok = true
    | Rejected e =>
        n = 2%nat ∧
        ∃ π0 e0, path (exchangeForAppToken oidcToken) π0 (Rejected e0) ∧
                 e = Err (asError e0)
    end.
Proof.
  unfold retryWithBackoff. intros H.
  apply path_retryLoop in H
    as (failed & last & lastr & Hf & Hl & Hn & Hrej & -> & ->);
    [|simpl; lia|simpl; lia].
  cbn [noOptions maxAttempts initialDelayMs maxDelayMs backoffFactor orDefault]
    in *.
  exists (length failed).
  assert (Hfa : Forall (fun f => idTokensAsked (fst f) = [] ∧
                  fetched (fst f) = [exchangeRequest oidcToken] ∧
                  sleeps (fst f) = [] ∧ clockReads (fst f) = []) failed).
  { eapply Forall_impl; [exact Hf|]. intros [π e] Hp.
    apply attempt_exchange in Hp. tauto. }
  destruct (attempt_exchange _ _ _ Hl) as (Hl1 & Hl2 & Hl3 & Hl4 & Hl5).
  split; [lia|]. split; [|split; [|split; [|split]]].
  - unfold idTokensAsked. rewrite omap_retryLayout by reflexivity.
    rewrite concat_map_nil
      by (eapply Forall_impl; [exact Hfa|]; cbn; tauto).
    exact Hl1.
  - unfold fetched. rewrite omap_retryLayout by reflexivity.
    rewrite (concat_map_singleton _ (exchangeRequest oidcToken))
      by (eapply Forall_impl; [exact Hfa|]; cbn; tauto).
    fold (fetched last). rewrite Hl2.
    rewrite <- repeat_cons. reflexivity.
  - apply sleeps_retryLayout; [|exact Hl3].
    eapply Forall_impl; [exact Hfa|]. cbn. tauto.
  - unfold clockReads. rewrite omap_retryLayout by reflexivity.
    rewrite concat_map_nil
      by (eapply Forall_impl; [exact Hfa|]; cbn; tauto).
    exact Hl4.
  - destruct lastr as [tok|e]; cbn [retryResult].
    + exact Hl5.
    + specialize (Hrej I). split; [lia|]. eauto.
Qed.

(** ** A refresh, from outside *)

Ltac project :=
  unfold idTokensAsked, fetched, sleeps, clockReads, recordWritten, said, slept in *;
  repeat (cbn [omap list_omap idTokenOf fetchOf sleepOf clockOf app];
          rewrite ?omap_app).

Lemma backoff_default n :
  (n ≤ 2)%nat →
  backoff 20000 2 5000 n `prefix_of` [5000; 10000] ∧
  totalMs (backoff 20000 2 5000 n) ≤ 15000 ∧
  (n = 2%nat → backoff 20000 2 5000 n = [5000; 10000]).
Proof.
  intros Hn. destruct n as [|[|[|n]]]; [| | |lia].
  - split; [apply prefix_nil|]. split; [vm_compute; discriminate|lia].
  - split; [exists [10000]; reflexivity|]. split; [vm_compute; discriminate|lia].
  - split; [reflexivity|]. split; [vm_compute; discriminate|reflexivity].
Qed.

Lemma Forall_repeat {A} (P : A → Prop) (x : A) n : P x → Forall P (repeat x n).
Proof. intros H. induction n; simpl; constructor; assumption. Qed.

Lemma totalMs_app l1 l2 : totalMs (l1 ++ l2) = totalMs l1 + totalMs l2.
Proof. unfold totalMs. induction l1 as [|x l1 IH]; simpl; lia. Qed.

Lemma written_app π1 π2 m : written (π1 ++ π2) m = written π2 (written π1 m).
Proof.
  revert m. induction π1 as [|o π1 IH]; intros m; [reflexivity|].
  destruct o as [X e x|X e x|p]; simpl; apply IH.
Qed.

Lemma written_noWrites π m : noWrites π → written π m = m.
Proof.
  intros H. revert m. induction H as [|o π Ho _ IH]; intros m; [reflexivity|].
  destruct o as [X e x|X e x|p]; simpl; try apply IH.
  destruct e; try apply IH. discriminate Ho.
Qed.

Lemma path_deniedRefresh :
  path doRefresh deniedRefresh (Rejected (refreshFailed (Err (newError oidcHint)))).
Proof.
  unfold doRefresh. vm_compute.
  repeat (eexists; eexists; split; [reflexivity|]). split; reflexivity.
Qed.

Lemma path_exchangedRefresh :
  path doRefresh exchangedRefresh (Fulfilled "mock-app-token").
Proof.
  unfold doRefresh. vm_compute.
  repeat (eexists; eexists; split; [reflexivity|]). split; reflexivity.
Qed.

(** X3.  What one refresh can cost.  Whatever the outside world answers, a
    [doRefresh] asks the identity provider at most three times, always for
    the audience ["claude-code-github-action"], sends at most three requests
    to the exchange endpoint, and waits at most twice in either stage: 5000 ms,
    then 10000 ms.  In all, it never sleeps more than 30 seconds. *)
Theorem doRefresh_budget (π : list Obs) (r : Settled string) :
  path doRefresh π r →
  (length (idTokensAsked π) ≤ 3)%nat ∧
  Forall (fun audience => audience = "claude-code-github-action") (idTokensAsked π) ∧
  (length (fetched π) ≤ 3)%nat ∧
  (∃ a b, sleeps π = a ++ b ∧
          a `prefix_of` [5000; 10000] ∧ b `prefix_of` [5000; 10000]) ∧
  totalMs (sleeps π) ≤ 30000.
Proof.
  intros H. apply path_doRefresh in H
    as [(provided & now & Ht & -> & ->)|[(env & π1 & e & Henv & H1 & -> & ->)|
      [(env & π1 & oidcToken & π2 & e & Henv & H1 & H2 & -> & ->)|
       (env & π1 & oidcToken & π2 & appToken & now & Henv & H1 & H2 & -> & ->)]]].
  - split; [simpl; lia|]. split; [constructor|]. split; [simpl; lia|].
    split; [exists [], []; repeat split; apply prefix_nil|]. vm_compute. discriminate.
  - apply retry_getOidcToken_summary in H1
      as (n & Hn & Hid & Hf & Hs & _ & _).
    destruct (backoff_default n Hn) as (Hp & Ht & _).
    project. rewrite Hid, Hf, Hs.
    split; [rewrite app_nil_r, repeat_length; lia|].
    split; [rewrite app_nil_r; apply Forall_repeat; reflexivity|].
    split; [simpl; lia|].
    split; [exists (backoff 20000 2 5000 n), []; rewrite app_nil_r;
            repeat split; [exact Hp|apply prefix_nil]|].
    rewrite app_nil_r. lia.
  - apply retry_getOidcToken_summary in H1
      as (n1 & Hn1 & Hid1 & Hf1 & Hs1 & _ & _).
    apply retry_exchange_summary in H2
      as (n2 & Hn2 & Hid2 & Hf2 & Hs2 & _ & _).
    destruct (backoff_default n1 Hn1) as (Hp1 & Ht1 & _).
    destruct (backoff_default n2 Hn2) as (Hp2 & Ht2 & _).
    project. rewrite Hid1, Hf1, Hs1, Hid2, Hf2, Hs2.
    split; [rewrite !app_nil_r, repeat_length; lia|].
    split; [rewrite !app_nil_r; apply Forall_repeat; reflexivity|].
    split; [rewrite app_nil_r; cbn [app]; rewrite repeat_length; lia|].
    split; [exists (backoff 20000 2 5000 n1), (backoff 20000 2 5000 n2);
            rewrite app_nil_r; auto|].
    rewrite app_nil_r, totalMs_app. lia.
  - apply retry_getOidcToken_summary in H1
      as (n1 & Hn1 & Hid1 & Hf1 & Hs1 & _ & _).
    apply retry_exchange_summary in H2
      as (n2 & Hn2 & Hid2 & Hf2 & Hs2 & _ & _).
    destruct (backoff_default n1 Hn1) as (Hp1 & Ht1 & _).
    destruct (backoff_default n2 Hn2) as (Hp2 & Ht2 & _).
    project. rewrite Hid1, Hf1, Hs1, Hid2, Hf2, Hs2.
    split; [rewrite !app_nil_r, repeat_length; lia|].
    split; [rewrite !app_nil_r; apply Forall_repeat; reflexivity|].
    split; [rewrite app_nil_r; cbn [app]; rewrite repeat_length; lia|].
    split; [exists (backoff 20000 2 5000 n1), (backoff 20000 2 5000 n2);
            rewrite app_nil_r; auto|].
    rewrite app_nil_r, totalMs_app. lia.
Qed.

Lemma doRefresh_budget_witness :
  (length (idTokensAsked deniedRefresh) ≤ 3)%nat ∧
  Forall (fun audience => audience = "claude-code-github-action")
    (idTokensAsked deniedRefresh) ∧
  (length (fetched deniedRefresh) ≤ 3)%nat ∧
  (∃ a b, sleeps deniedRefresh = a ++ b ∧
          a `prefix_of` [5000; 10000] ∧ b `prefix_of` [5000; 10000]) ∧
  totalMs (sleeps deniedRefresh) ≤ 30000.
Proof.
  exact (doRefresh_budget deniedRefresh _ path_deniedRefresh).
Defined.

(** X4.  The two stages of a refresh, in order.  A [doRefresh] that sends
    anything to the exchange endpoint has first got an identity token; from
    then on it does not go back to the identity provider, and every request
    it sends to the endpoint, retries included (one to three in all), is the
    same [POST] to the fixed URL with that very token as [Bearer]
    authorization. *)
Theorem doRefresh_exchanges_identity_token (π : list Obs) (r : Settled string) :
  path doRefresh π r → fetched π ≠ [] →
  ∃ π1 oidcToken π2 n,
    π = π1 ++ Got (GetIDToken oidcAudience) (Fulfilled oidcToken) :: π2 ∧
    fetched π1 = [] ∧ idTokensAsked π2 = [] ∧ (1 ≤ n ≤ 3)%nat ∧
    fetched π2 =
      repeat (mkFetch "https://api.anthropic.com/api/github/github-app-token-exchange"
                "POST" ("Bearer " ++ oidcToken)) n.
Proof.
  intros H Hne. apply path_doRefresh in H
    as [(provided & now & Ht & -> & ->)|[(env & π1 & e & Henv & H1 & -> & ->)|
      [(env & π1 & oidcToken & π2 & e & Henv & H1 & H2 & -> & ->)|
       (env & π1 & oidcToken & π2 & appToken & now & Henv & H1 & H2 & -> & ->)]]].
  - exfalso. apply Hne. reflexivity.
  - exfalso. apply Hne.
    apply retry_getOidcToken_summary in H1 as (n & _ & _ & Hf & _).
    project. rewrite Hf. reflexivity.
  - apply retry_getOidcToken_summary in H1
      as (n1 & _ & _ & _ & _ & _ & π0 & -> & Hf0).
    apply retry_exchange_summary in H2
      as (n2 & Hn2 & Hid2 & Hf2 & _).
    exists (said LogRefreshing :: Did EnvOverride env :: π0), oidcToken,
      (said LogOidcObtained :: π2 ++ [said (LogRefreshFailed e)]), (S n2).
    split; [simpl; rewrite <- app_assoc; reflexivity|].
    project. rewrite Hf0, Hid2, Hf2.
    split; [reflexivity|]. split; [reflexivity|]. split; [lia|].
    rewrite app_nil_r. reflexivity.
  - apply retry_getOidcToken_summary in H1
      as (n1 & _ & _ & _ & _ & _ & π0 & -> & Hf0).
    apply retry_exchange_summary in H2
      as (n2 & Hn2 & Hid2 & Hf2 & _).
    exists (said LogRefreshing :: Did EnvOverride env :: π0), oidcToken,
      (said LogOidcObtained :: π2 ++
       said LogAppObtained :: recordWritten appToken now TOKEN_LIFETIME_MS), (S n2).
    split; [simpl; rewrite <- app_assoc; reflexivity|].
    project. rewrite Hf0, Hid2, Hf2.
    split; [reflexivity|]. split; [reflexivity|]. split; [lia|].
    rewrite app_nil_r. reflexivity.
Qed.

Lemma doRefresh_exchanges_identity_token_witness :
  ∃ π1 oidcToken π2 n,
    exchangedRefresh
    = π1 ++ Got (GetIDToken oidcAudience) (Fulfilled oidcToken) :: π2 ∧
    fetched π1 = [] ∧ idTokensAsked π2 = [] ∧ (1 ≤ n ≤ 3)%nat ∧
    fetched π2 =
      repeat (mkFetch "https://api.anthropic.com/api/github/github-app-token-exchange"
                "POST" ("Bearer " ++ oidcToken)) n.
Proof.
  apply (doRefresh_exchanges_identity_token exchangedRefresh
           (Fulfilled "mock-app-token") path_exchangedRefresh).
  discriminate.
Defined.


(** X5.  What a successful refresh leaves in the cache.  A [doRefresh] that
    returns [tok] returns a non-empty string; it has read the clock exactly
    once, at the very moment of writing, and whatever the fields held before,
    they now hold [tok] and that time plus the lifetime: one year when the
    override was adopted (nothing was asked of the outside world), 55 minutes
    when the token came from the exchange.  [refreshPromise] is not touched.
    Hence a later validity test at time [t] succeeds exactly when [t] is
    earlier than that time plus the lifetime minus five minutes: a token from
    the exchange is served from the cache for 50 minutes after the exchange
    has completed. *)
Theorem doRefresh_validity (π : list Obs) (tok : string) (m : Manager) :
  path doRefresh π (Fulfilled tok) →
  truthy tok = true ∧
  ∃ now lifetime,
    clockReads π = [now] ∧
    ((lifetime = 365 * 24 * 60 * 60 * 1000 ∧
      idTokensAsked π = [] ∧ fetched π = [] ∧ sleeps π = []) ∨
     (lifetime = 55 * 60 * 1000 ∧ fetched π ≠ [])) ∧
    written π m = mkManager (Some tok) (Some (now + lifetime)) (refreshPromise m) ∧
    ∀ t, tokenValid (written π m) t = (t <? now + lifetime - 5 * 60 * 1000).
Proof.
  intros H. apply path_doRefresh in H
    as [(provided & now & Ht & -> & Hr)|[(env & π1 & e' & Henv & H1 & _ & Hr)|
      [(env & π1 & oidcToken & π2 & e' & Henv & H1 & H2 & _ & Hr)|
       (env & π1 & oidcToken & π2 & appToken & now & Henv & H1 & H2 & -> & Hr)]]];
    try discriminate Hr; injection Hr as ->.
  - split; [exact Ht|]. exists now, (365 * 24 * 60 * 60 * 1000).
    split; [reflexivity|]. split; [left; repeat split|].
    split; [reflexivity|]. intros t. unfold tokenValid. simpl.
    rewrite Ht. reflexivity.
  - pose proof (noWrites_retry_getOidcToken _ _ H1) as Hw1.
    pose proof (noWrites_retry_exchange _ _ _ H2) as Hw2.
    apply retry_getOidcToken_summary in H1
      as (n1 & Hn1 & Hid1 & Hf1 & Hs1 & Hc1 & _).
    apply retry_exchange_summary in H2
      as (n2 & Hn2 & Hid2 & Hf2 & Hs2 & Hc2 & Ht).
    split; [exact Ht|]. exists now, (55 * 60 * 1000).
    assert (Hwritten :
      written (said LogRefreshing :: Did EnvOverride env :: π1 ++
               said LogOidcObtained :: π2 ++
               said LogAppObtained :: recordWritten appToken now TOKEN_LIFETIME_MS) m
      = mkManager (Some appToken) (Some (now + 55 * 60 * 1000)) (refreshPromise m)).
    { simpl. rewrite written_app, (written_noWrites π1) by exact Hw1.
      simpl. rewrite written_app, (written_noWrites π2) by exact Hw2.
      reflexivity. }
    split; [|split; [|split; [exact Hwritten|]]].
    + project. rewrite Hc1, Hc2. reflexivity.
    + right. split; [reflexivity|]. project. rewrite Hf1, Hf2. discriminate.
    + intros t. rewrite Hwritten. unfold tokenValid. simpl.
      rewrite Ht. reflexivity.
Qed.


Lemma doRefresh_validity_witness :
  let m := mkManager (Some "stale") (Some 0) (Some 0%nat) in
  truthy "mock-app-token" = true ∧
  ∃ now lifetime,
    clockReads exchangedRefresh = [now] ∧
    ((lifetime = 365 * 24 * 60 * 60 * 1000 ∧
      idTokensAsked exchangedRefresh = [] ∧ fetched exchangedRefresh = [] ∧
      sleeps exchangedRefresh = []) ∨
     (lifetime = 55 * 60 * 1000 ∧ fetched exchangedRefresh ≠ [])) ∧
    written exchangedRefresh m
      = mkManager (Some "mock-app-token") (Some (now + lifetime)) (refreshPromise m) ∧
    ∀ t, tokenValid (written exchangedRefresh m) t
         = (t <? now + lifetime - 5 * 60 * 1000).
Proof.
  exact (doRefresh_validity exchangedRefresh "mock-app-token"
           (mkManager (Some "stale") (Some 0) (Some 0%nat)) path_exchangedRefresh).
Defined.

(** ** The waits of the retry executor, in closed form *)

Lemma backoff_length maxDelay factor n : ∀ delay,
  length (backoff maxDelay factor delay n) = n.
Proof. induction n as [|n IH]; intros delay; simpl; [reflexivity|]. rewrite IH. reflexivity. Qed.

Lemma nextDelay_pow maxDelay factor delay k :
  1 ≤ factor → 0 ≤ maxDelay →
  Z.min (nextDelay maxDelay factor delay * factor ^ Z.of_nat (S k)) maxDelay
  = Z.min (delay * factor ^ Z.of_nat (S (S k))) maxDelay.
Proof.
  intros Hf Hm. unfold nextDelay.
  replace (Z.of_nat (S (S k))) with (Z.succ (Z.of_nat (S k))) by lia.
  rewrite Z.pow_succ_r by lia.
  assert (Hp : 1 ≤ factor ^ Z.of_nat (S k)).
  { pose proof (Z.pow_le_mono_l 1 factor (Z.of_nat (S k)) ltac:(lia)) as Hf'.
    rewrite Z.pow_1_l in Hf' by lia. exact Hf'. }
  set (p := factor ^ Z.of_nat (S k)) in *.
  rewrite Z.mul_assoc.
  destruct (Z.le_ge_cases (delay * factor) maxDelay) as [Hle|Hge].
  - rewrite (Z.min_l (delay * factor) maxDelay) by exact Hle. reflexivity.
  - rewrite (Z.min_r (delay * factor) maxDelay) by exact Hge.
    assert (maxDelay ≤ maxDelay * p) by nia.
    assert (maxDelay * p ≤ delay * factor * p) by nia.
    rewrite !Z.min_r by lia. reflexivity.
Qed.

Lemma backoff_lookup maxDelay factor :
  1 ≤ factor → 0 ≤ maxDelay →
  ∀ n delay k d,
    backoff maxDelay factor delay n !! k = Some d →
    d = match k with
        | O => delay
        | S _ => Z.min (delay * factor ^ Z.of_nat k) maxDelay
        end.
Proof.
  intros Hf Hm. induction n as [|n IH]; intros delay k d Hk; [discriminate|].
  destruct k as [|k]; simpl in Hk; [congruence|].
  apply IH in Hk. subst d. destruct k as [|k].
  - unfold nextDelay. change (Z.of_nat 1) with 1. rewrite Z.pow_1_r. reflexivity.
  - apply nextDelay_pow; assumption.
Qed.

(** X6.  For an operation that sets no timer itself, a policy with at least
    one attempt, a factor of at least 1 and a non-negative cap: the executor
    waits at most [maxAttempts - 1] times, exactly that often when it gives
    up, and its [k]-th wait (from 0) lasts [initialDelayMs] for [k = 0] and
    [min (initialDelayMs * backoffFactor ^ k) maxDelayMs] afterwards.  The cap
    applies from the second wait on: the first wait is [initialDelayMs] even
    when this exceeds [maxDelayMs]. *)
Theorem retryWithBackoff_delays {T} (operation : Async T) (options : RetryOptions)
    (π : list Obs) (r : Settled T) :
  neverSleeps operation →
  1 ≤ orDefault (maxAttempts options) 3 →
  1 ≤ orDefault (backoffFactor options) 2 →
  0 ≤ orDefault (maxDelayMs options) 20000 →
  path (retryWithBackoff operation options) π r →
  Z.of_nat (length (sleeps π)) ≤ orDefault (maxAttempts options) 3 - 1 ∧
  (isRejected r →
   Z.of_nat (length (sleeps π)) = orDefault (maxAttempts options) 3 - 1) ∧
  ∀ k d, sleeps π !! k = Some d →
    d = match k with
        | O => orDefault (initialDelayMs options) 5000
        | S _ => Z.min (orDefault (initialDelayMs options) 5000 *
                        orDefault (backoffFactor options) 2 ^ Z.of_nat k)
                   (orDefault (maxDelayMs options) 20000)
        end.
Proof.
  intros Hop Hmax Hfactor Hcap H. unfold retryWithBackoff in H.
  apply path_retryLoop in H
    as (failed & last & lastr & Hf & Hl & Hn & Hrej & -> & ->); [|lia|lia].
  rewrite sleeps_retryLayout;
    [|eapply Forall_impl; [exact Hf|]; intros [π' e'] Hp; exact (Hop _ _ Hp)
     |exact (Hop _ _ Hl)].
  rewrite backoff_length. split; [lia|]. split.
  - intros Hr. destruct lastr; [destruct Hr|]. specialize (Hrej I). lia.
  - intros k d. apply backoff_lookup; assumption.
Qed.

Lemma neverSleeps_getOidcToken : neverSleeps getOidcToken.
Proof. intros π r H. apply attempt_getOidcToken in H. tauto. Qed.

Lemma retryWithBackoff_delays_witness :
  let options := mkRetryOptions (Some 4) (Some 30000) (Some 20000) (Some 3) in
  let π := [said (LogAttempt 1 4);
            Got (GetIDToken oidcAudience) (Rejected oidcDenied);
            said (LogOidcFailed oidcDenied);
            said (LogAttemptFailed 1 oidcHint); said (LogRetrying 30000);
            slept 30000;
            said (LogAttempt 2 4);
            Got (GetIDToken oidcAudience) (Rejected oidcDenied);
            said (LogOidcFailed oidcDenied);
            said (LogAttemptFailed 2 oidcHint); said (LogRetrying 20000);
            slept 20000;
            said (LogAttempt 3 4);
            Got (GetIDToken oidcAudience) (Fulfilled "mock-oidc-token")] in
  Z.of_nat (length (sleeps π)) ≤ orDefault (maxAttempts options) 3 - 1 ∧
  (isRejected (Fulfilled "mock-oidc-token") →
   Z.of_nat (length (sleeps π)) = orDefault (maxAttempts options) 3 - 1) ∧
  ∀ k d, sleeps π !! k = Some d →
    d = match k with
        | O => orDefault (initialDelayMs options) 5000
        | S _ => Z.min (orDefault (initialDelayMs options) 5000 *
                        orDefault (backoffFactor options) 2 ^ Z.of_nat k)
                   (orDefault (maxDelayMs options) 20000)
        end.
Proof.
  apply (retryWithBackoff_delays getOidcToken
           (mkRetryOptions (Some 4) (Some 30000) (Some 20000) (Some 3))).
  - exact neverSleeps_getOidcToken.
  - simpl. lia.
  - simpl. lia.
  - simpl. lia.
  - vm_compute.
    repeat (eexists; eexists; split; [reflexivity|]). split; reflexivity.
Defined.

(** ** The clients *)

(** X7.  [createOctokit] is one [getToken] followed by the construction of
    the two clients: it does what that [getToken] does and nothing more,
    fails exactly when it fails, with the same error, and otherwise returns
    the REST client authenticated with the token and the GraphQL client whose
    [authorization] header is ["token "] followed by the same token.  On a
    valid cache it completes within the turn, with the cached token, and
    leaves the state as it was. *)
Theorem createOctokit_outcomes :
  (∀ (π : list Obs) (r : Settled Octokits),
     path createOctokit π r ↔
       ∃ r0, path getToken π r0 ∧
             r = match r0 with
                 | Fulfilled tok => Fulfilled (mkOctokits tok ("token " ++ tok))
                 | Rejected e => Rejected e
                 end) ∧
  (∀ s, tokenValid (this s) (clock s) = true →
     ∃ tok, token (this s) = Some tok ∧
            run createOctokit s
            = (s, Finished (Fulfilled (mkOctokits tok ("token " ++ tok))))).
Proof.
  split.
  - intros π r. unfold createOctokit. rewrite path_bind. split.
    + intros [(e & H & ->)|(tok & π1 & π2 & H & [-> ->] & ->)].
      * exists (Rejected e). auto.
      * exists (Fulfilled tok). rewrite app_nil_r. auto.
    + intros ([tok|e] & H & ->).
      * right. exists tok, π, []. rewrite app_nil_r. simpl. auto.
      * left. eauto.
  - intros s Hv. destruct (run_getToken_valid s Hv) as (tok & Ht & Hrun).
    exists tok. split; [exact Ht|].
    unfold createOctokit. rewrite run_bind, Hrun. reflexivity.
Qed.

Lemma createOctokit_outcomes_witness :
  ∃ tok, token (this warmState) = Some tok ∧
         run createOctokit warmState
         = (warmState, Finished (Fulfilled (mkOctokits tok ("token " ++ tok)))).
Proof.
  apply (proj2 createOctokit_outcomes warmState). reflexivity.
Defined.

(** ** The singleton *)

Lemma classRun_instance ops : ∀ c ref,
  instance c = Some ref →
  Forall (eq ref) (classRun ops c).2 ∧
  instance (classRun ops c).1 = Some ref ∧
  length (objects (classRun ops c).1) = length (objects c).
Proof.
  induction ops as [|[|ref' m] ops IH]; intros c ref Hc; cbn [classRun].
  - repeat split; [constructor|exact Hc].
  - unfold getInstance. rewrite Hc.
    destruct (IH c ref Hc) as (Hrefs & Hinst & Hlen).
    destruct (classRun ops c) as [c2 refs]. simpl in *.
    split; [constructor; [reflexivity|exact Hrefs]|auto].
  - destruct (IH (mkClass (instance c) (<[ref' := m]> (objects c))) ref Hc)
      as (Hrefs & Hinst & Hlen).
    simpl in Hlen. rewrite length_insert in Hlen. auto.
Qed.

(** X8.  The manager is a singleton.  Start from the class as the module
    defines it, call [getInstance] any number of times, and let the methods
    of the objects assign their fields in between in any way: every call
    returns one and the same reference, the one the module exports as
    [tokenManager]; [new TokenManager()] has run at most once, exactly once
    if there was a call; and a call that finds the instance in place
    constructs nothing and changes nothing, so that what the manager has
    cached survives it. *)
Theorem getInstance_singleton (ops : list ClassOp) :
  Forall (eq tokenManager) (classRun ops classLoaded).2 ∧
  (length (objects (classRun ops classLoaded).1) ≤ 1)%nat ∧
  ((classRun ops classLoaded).2 ≠ [] →
   instance (classRun ops classLoaded).1 = Some tokenManager ∧
   length (objects (classRun ops classLoaded).1) = 1%nat) ∧
  (∀ c ref, instance c = Some ref → getInstance c = (c, ref)).
Proof.
  assert (H : ∀ ops c, instance c = None → objects c = [] →
            let res := classRun ops c in
            Forall (eq 0%nat) res.2 ∧ (length (objects res.1) ≤ 1)%nat ∧
            (res.2 ≠ [] → instance res.1 = Some 0%nat ∧
                          length (objects res.1) = 1%nat)).
  { clear. induction ops as [|[|ref m] ops IH]; intros c Hi Ho; cbn [classRun].
    - simpl. rewrite Ho. repeat split; [constructor|simpl; lia|congruence|congruence].
    - unfold getInstance. rewrite Hi, Ho. cbn [length app].
      destruct (classRun_instance ops (mkClass (Some 0%nat) [newTokenManager]) 0%nat
                  eq_refl) as (Hrefs & Hinst & Hlen).
      destruct (classRun ops _) as [c2 refs]. simpl in *.
      split; [constructor; [reflexivity|exact Hrefs]|].
      split; [lia|]. intros _. auto.
    - apply IH; simpl; [exact Hi|]. rewrite Ho. reflexivity. }
  split; [|split; [|split]]; try apply (H ops classLoaded); try reflexivity.
  intros c ref Hc. unfold getInstance. rewrite Hc. reflexivity.
Qed.

Lemma getInstance_singleton_witness :
  let ops := [OpGetInstance;
              OpAssign 0 (mkManager (Some "mock-app-token") (Some 3301000) None);
              OpGetInstance] in
  instance (classRun ops classLoaded).1 = Some tokenManager ∧
  length (objects (classRun ops classLoaded).1) = 1%nat.
Proof.
  apply (proj1 (proj2 (proj2 (getInstance_singleton
           [OpGetInstance;
            OpAssign 0 (mkManager (Some "mock-app-token") (Some 3301000) None);
            OpGetInstance])))).
  discriminate.
Defined.

Lemma steps_cons l ls s s1 :
  step l s = Some s1 → steps (l :: ls) s = steps ls s1.
Proof. intros H. cbn [steps]. rewrite H. reflexivity. Qed.

Lemma lookup2_fst {A} (l : list A) a b : ((l ++ [a]) ++ [b]) !! length l = Some a.
Proof. rewrite <- app_assoc. apply list_lookup_middle. reflexivity. Qed.

Lemma lookup2_snd {A} (l : list A) a b : ((l ++ [a]) ++ [b]) !! S (length l) = Some b.
Proof. apply list_lookup_middle. rewrite length_app. simpl. lia. Qed.

Lemma insert2_fst {A} (l : list A) a b x :
  <[length l := x]> ((l ++ [a]) ++ [b]) = (l ++ [x]) ++ [b].
Proof.
  rewrite <- !app_assoc.
  rewrite (insert_app_r_alt l _ (length l)) by lia.
  rewrite Nat.sub_diag. reflexivity.
Qed.

Lemma insert2_snd {A} (l : list A) a b x :
  <[S (length l) := x]> ((l ++ [a]) ++ [b]) = (l ++ [a]) ++ [x].
Proof.
  rewrite (insert_app_r_alt (l ++ [a]) _ (S (length l)))
    by (rewrite length_app; simpl; lia).
  rewrite length_app. simpl. replace (S (length l) - (length l + 1))%nat with 0%nat by lia.
  reflexivity.
Qed.

Lemma lookup1 {A} (l : list A) a : (l ++ [a]) !! length l = Some a.
Proof. apply list_lookup_middle. reflexivity. Qed.

Lemma insert1 {A} (l : list A) a x : <[length l := x]> (l ++ [a]) = l ++ [x].
Proof.
  rewrite (insert_app_r_alt l _ (length l)) by lia.
  rewrite Nat.sub_diag. reflexivity.
Qed.

Ltac lists :=
  cbn [tasks promises park setTasks emit setThis setPromises setCalls
       setTask setClock setOverride settle record setResults];
  rewrite ?insert2_fst, ?insert2_snd, ?insert1, ?lookup2_fst, ?lookup2_snd, ?lookup1.

Ltac expose :=
  cbn [step]; lists;
  cbn [mjoin option_join mbind option_bind option_ret mret advance external internal];
  lists;
  cbn [mjoin option_join mbind option_bind option_ret mret].

Ltac turn :=
  cbn [run tryCatch tryFinally bind performSync perform log sleep await
       this_get this_set getField setField
       this override clock promises tasks calls results trace
       setThis setCalls setClock setOverride setPromises setTasks setResults
       emit park settle record setTask
       retryLoop retryExhausted
       negb truthyOpt Z.leb Z.ltb Z.compare Pos.compare Pos.compare_cont
       Z.add Pos.add Pos.succ].

(** X9.  A first token, end to end.  On a manager without a valid token
    and with no refresh in flight, and without an override: [getToken] asks
    the identity provider; when the provider answers [oidcToken], one [POST]
    goes to the exchange endpoint with [Bearer oidcToken]; when the endpoint
    answers with a success status and a body whose first non-empty field of
    [token] and [app_token] is [tok], the caller gets exactly [tok].  The
    cache then holds [tok] with an expiry 55 minutes after the time at which
    the body was read (not after the time of the call), the promise of the
    refresh is fulfilled with [tok], [refreshPromise] is [null] again and
    nothing is left suspended.  No attempt is repeated and no timer is set. *)
Theorem getToken_exchange_end_to_end (s : State) (oidcToken : string)
    (resp : Response) (body : JsonBody) (tok : string) (now : Z) :
  idle s → tokenValid (this s) (clock s) = false →
  truthyOpt (override s) = false →
  ok resp = true → json resp = Fulfilled body → firstNonEmpty body = Some tok →
  ∃ s',
    steps [Call GetToken;
           Resume (length (tasks s)) (IdToken (Fulfilled oidcToken));
           Resume (length (tasks s)) (Fetched (Fulfilled resp));
           Tick now;
           Wake (length (tasks s));
           Wake (S (length (tasks s)))] s = Some s' ∧
    results s' = results s ++ [(calls s, Fulfilled (VToken tok))] ∧
    this s' = mkManager (Some tok) (Some (now + 55 * 60 * 1000)) None ∧
    promises s' = promises s ++ [Some (Fulfilled tok)] ∧
    tasks s' = tasks s ++ [None; None] ∧
    trace s' = trace s ++
      [Logged LogRefreshing; Logged (LogAttempt 1 3);
       Awaited (GetIDToken "claude-code-github-action");
       Awaited (Promise (length (promises s)));
       Logged LogOidcObtained; Logged (LogAttempt 1 3);
       Awaited (Fetch (mkFetch exchangeUrl "POST" ("Bearer " ++ oidcToken)));
       Awaited (ResponseJson resp);
       Logged LogAppObtained].
Proof.
  intros Hidle Hv Henv Hok Hjson Htok.
  pose proof (firstNonEmpty_orElse body) as Hfirst. rewrite Htok in Hfirst.
  cbn zeta in Hfirst. destruct Hfirst as [Hfirst1 Hfirst2].
  eexists. split.
  { erewrite steps_cons.
    2:{ cbn [step program].
        rewrite run_bind, run_getToken_invalid by exact Hv.
        unfold refreshToken, doRefresh, retryWithBackoff, getOidcToken.
        cbn [noOptions maxAttempts initialDelayMs maxDelayMs backoffFactor
             orDefault].
        change (Z.to_nat 3) with 3%nat.
        turn. rewrite Hidle. turn. rewrite Henv. turn. reflexivity. }
    erewrite steps_cons.
    2:{ expose. unfold exchangeForAppToken. turn. reflexivity. }
    erewrite steps_cons.
    2:{ expose. turn. rewrite Hok. turn. reflexivity. }
    erewrite steps_cons by reflexivity.
    erewrite steps_cons.
    2:{ expose. rewrite Hjson. turn. rewrite Hfirst1, Hfirst2. turn.
        reflexivity. }
    erewrite steps_cons.
    2:{ expose. turn. reflexivity. }
    reflexivity. }
  cbn [results this promises tasks trace park setTasks emit setThis setPromises
       setCalls setTask setClock setOverride settle record setResults
       setField token tokenExpiry refreshPromise].
  rewrite ?insert2_fst, ?insert2_snd, ?insert1, <- !app_assoc.
  repeat split.
Qed.

Lemma getToken_exchange_end_to_end_witness :
  ∃ s',
    steps [Call GetToken;
           Resume 0 (IdToken (Fulfilled "mock-oidc-token"));
           Resume 0 (Fetched (Fulfilled mockResponse));
           Tick 61000;
           Wake 0;
           Wake 1] (boot None 1000) = Some s' ∧
    results s' = [(0%nat, Fulfilled (VToken "mock-app-token"))] ∧
    this s' = mkManager (Some "mock-app-token") (Some (61000 + 55 * 60 * 1000)) None ∧
    promises s' = [Some (Fulfilled "mock-app-token")] ∧
    tasks s' = [None; None] ∧
    trace s' =
      [Logged LogRefreshing; Logged (LogAttempt 1 3);
       Awaited (GetIDToken "claude-code-github-action");
       Awaited (Promise 0%nat);
       Logged LogOidcObtained; Logged (LogAttempt 1 3);
       Awaited (Fetch (mkFetch exchangeUrl "POST" ("Bearer " ++ "mock-oidc-token")));
       Awaited (ResponseJson mockResponse);
       Logged LogAppObtained].
Proof.
  apply (getToken_exchange_end_to_end (boot None 1000) "mock-oidc-token"
           mockResponse (mkBody None (Some "mock-app-token") None)
           "mock-app-token" 61000); reflexivity.
Defined.

(** X10.  A refresh that fails, end to end.  Same start, but the identity
    provider fails three times, with whatever values.  [getToken] waits 5000
    and then 10000 ms between the attempts, sends nothing to the exchange
    endpoint, and fails with the [Error] ["Token refresh failed: Error: Could
    not fetch an OIDC token. ..."]; the values the provider threw appear in
    the console only.  The cache is exactly what it was, [refreshPromise] is
    [null] again and nothing is left suspended: the failure is not kept, and
    the next [getToken] starts a new refresh with a new promise.  Given this
    failure, [setupGitHubToken] sets no output: it reports the message below
    with [core.setFailed] and ends the process with exit code 1. *)
Theorem getToken_identity_denied_end_to_end (s : State) (e1 e2 e3 : Thrown) :
  idle s → tokenValid (this s) (clock s) = false →
  truthyOpt (override s) = false →
  let failure :=
    Err (mkError "Error"
      "Token refresh failed: Error: Could not fetch an OIDC token. Did you remember to add `id-token: write` to your workflow permissions?"
      None) in
  ∃ s',
    steps [Call GetToken;
           Resume (length (tasks s)) (IdToken (Rejected e1));
           Resume (length (tasks s)) Fired;
           Resume (length (tasks s)) (IdToken (Rejected e2));
           Resume (length (tasks s)) Fired;
           Resume (length (tasks s)) (IdToken (Rejected e3));
           Wake (S (length (tasks s)))] s = Some s' ∧
    results s' = results s ++ [(calls s, Rejected failure)] ∧
    this s' = mkManager (token (this s)) (tokenExpiry (this s)) None ∧
    promises s' = promises s ++ [Some (Rejected failure)] ∧
    tasks s' = tasks s ++ [None; None] ∧
    trace s' = trace s ++
      [Logged LogRefreshing; Logged (LogAttempt 1 3);
       Awaited (GetIDToken "claude-code-github-action");
       Awaited (Promise (length (promises s)));
       Logged (LogOidcFailed e1); Logged (LogAttemptFailed 1 oidcHint);
       Logged (LogRetrying 5000); Awaited (SetTimeout 5000);
       Logged (LogAttempt 2 3);
       Awaited (GetIDToken "claude-code-github-action");
       Logged (LogOidcFailed e2); Logged (LogAttemptFailed 2 oidcHint);
       Logged (LogRetrying 10000); Awaited (SetTimeout 10000);
       Logged (LogAttempt 3 3);
       Awaited (GetIDToken "claude-code-github-action");
       Logged (LogOidcFailed e3); Logged (LogAttemptFailed 3 oidcHint);
       Logged (LogOperationFailed 3);
       Logged (LogRefreshFailed (Err (newError oidcHint)))] ∧
    (∃ s'', step (Call GetToken) s' = Some s'' ∧
            length (promises s'') = S (length (promises s')) ∧
            refreshPromise (this s'') = Some (length (promises s'))) ∧
    execute setupGitHubToken (Rejected failure) =
      ([Hosted (SetFailed
          ("Failed to setup GitHub token: Error: Token refresh failed: Error: Could not fetch an OIDC token. Did you remember to add `id-token: write` to your workflow permissions?."
           ++ newline ++ newline ++
           "If you instead wish to use this action with a custom GitHub token or custom GitHub app, provide a `github_token` in the `uses` section of the app in your workflow yml file."));
        Hosted (ProcessExit 1)],
       Exited 1).
Proof.
  intros Hidle Hv Henv failure.
  eexists. split.
  { erewrite steps_cons.
    2:{ cbn [step program].
        rewrite run_bind, run_getToken_invalid by exact Hv.
        unfold refreshToken, doRefresh, retryWithBackoff, getOidcToken.
        cbn [noOptions maxAttempts initialDelayMs maxDelayMs backoffFactor
             orDefault].
        change (Z.to_nat 3) with 3%nat.
        turn. rewrite Hidle. turn. rewrite Henv. turn. reflexivity. }
    erewrite steps_cons. 2:{ expose. turn. reflexivity. }
    erewrite steps_cons. 2:{ expose. turn. reflexivity. }
    erewrite steps_cons. 2:{ expose. turn. reflexivity. }
    erewrite steps_cons. 2:{ expose. turn. reflexivity. }
    erewrite steps_cons. 2:{ expose. turn. reflexivity. }
    erewrite steps_cons. 2:{ expose. turn. reflexivity. }
    reflexivity. }
  split; [|split; [|split; [|split; [|split; [|split]]]]];
    try (cbn [results this promises tasks trace park setTasks emit setThis
              setPromises setCalls setTask setClock setOverride settle record
              setResults setField token tokenExpiry refreshPromise];
         rewrite ?insert2_fst, ?insert2_snd, ?insert1, <- ?app_assoc;
         reflexivity).
  apply step_getToken_starts; [reflexivity|exact Hv].
Qed.

Lemma getToken_identity_denied_end_to_end_witness :
  let failure :=
    Err (mkError "Error"
      "Token refresh failed: Error: Could not fetch an OIDC token. Did you remember to add `id-token: write` to your workflow permissions?"
      None) in
  ∃ s',
    steps [Call GetToken;
           Resume 0 (IdToken (Rejected oidcDenied));
           Resume 0 Fired;
           Resume 0 (IdToken (Rejected oidcDenied));
           Resume 0 Fired;
           Resume 0 (IdToken (Rejected oidcDenied));
           Wake 1] (boot None 1000) = Some s' ∧
    results s' = [(0%nat, Rejected failure)] ∧
    this s' = mkManager None None None.
Proof.
  destruct (getToken_identity_denied_end_to_end (boot None 1000)
              oidcDenied oidcDenied oidcDenied eq_refl eq_refl eq_refl)
    as (s' & Hsteps & Hres & Hthis & _).
  exists s'. auto.
Defined.

(** ** Reset while a refresh is in flight *)

(** What the first turn of a [getToken] that starts a refresh leaves of
    the promises and of the suspended calls that were there. *)
Lemma step_getToken_starts_frame s :
  idle s → tokenValid (this s) (clock s) = false →
  ∃ s1,
    step (Call GetToken) s = Some s1 ∧
    length (promises s1) = S (length (promises s)) ∧
    refreshPromise (this s1) = Some (length (promises s)) ∧
    (∀ p, (p < length (promises s))%nat → promises s1 !! p = promises s !! p) ∧
    (∀ i, (i < length (tasks s))%nat → tasks s1 !! i = tasks s !! i) ∧
    (truthyOpt (override s) = false →
     promises s1 !! length (promises s) = Some None).
Proof.
  intros Hidle Hv. destruct (truthyOpt (override s)) eqn:Henv.
  - destruct (override s) as [provided|] eqn:Ho; [|discriminate]. simpl in Henv.
    eexists. split.
    { cbn [step program]. rewrite run_bind, run_getToken_invalid by exact Hv.
      rewrite (run_refreshToken_override _ provided) by assumption.
      reflexivity. }
    simpl. rewrite length_insert, length_app. simpl.
    split; [lia|]. split; [reflexivity|]. split; [|split; [|discriminate]].
    + intros p Hp. rewrite list_lookup_insert_ne by lia.
      apply lookup_app_l. exact Hp.
    + intros i Hi. apply lookup_app_l. exact Hi.
  - destruct (run_refreshToken_exchange (setCalls (S (calls s)) s) Hidle Henv)
      as (k0 & Hw & Hrun).
    eexists. split.
    { cbn [step program]. rewrite run_bind, run_getToken_invalid by exact Hv.
      rewrite Hrun. reflexivity. }
    simpl. rewrite length_app. simpl.
    split; [lia|]. split; [reflexivity|]. split; [|split].
    + intros p Hp. apply lookup_app_l. exact Hp.
    + intros i Hi. rewrite <- app_assoc. apply lookup_app_l. exact Hi.
    + intros _. apply lookup1.
Qed.

(** X11.  [resetInstance] cancels nothing.  Whatever state the manager is
    in, a reset followed by a [getToken] starts a new [doRefresh] with a new
    promise and publishes it; the promises that were there and the suspended
    calls are as they were.  So when a refresh was in flight before the reset
    (and no override is set), two refreshes are in flight afterwards, the old
    one and the new one: the reset has broken the single flight. *)
Theorem resetInstance_then_getToken (s : State) :
  ∃ s2,
    steps [Call ResetInstance; Call GetToken] s = Some s2 ∧
    length (promises s2) = S (length (promises s)) ∧
    refreshPromise (this s2) = Some (length (promises s)) ∧
    (∀ p, (p < length (promises s))%nat → promises s2 !! p = promises s !! p) ∧
    (∀ i, (i < length (tasks s))%nat → tasks s2 !! i = tasks s !! i) ∧
    (truthyOpt (override s) = false →
     promises s2 !! length (promises s) = Some None ∧
     ∀ p, promises s !! p = Some None →
          p ≠ length (promises s) ∧ promises s2 !! p = Some None).
Proof.
  assert (H1 : ∃ s1, step (Call ResetInstance) s = Some s1 ∧
                this s1 = mkManager None None None ∧
                promises s1 = promises s ∧ tasks s1 = tasks s ∧
                override s1 = override s).
  { eexists. split; [reflexivity|]. repeat split. }
  destruct H1 as (s1 & H1 & Hthis & Hps & Hts & Hov).
  destruct (step_getToken_starts_frame s1) as (s2 & H2 & Hlen & Hrp & Hold & Htasks & Hnew).
  { unfold idle. rewrite Hthis. reflexivity. }
  { unfold tokenValid. rewrite Hthis. reflexivity. }
  rewrite Hps in Hlen, Hrp, Hold, Hnew. rewrite Hts in Htasks. rewrite Hov in Hnew.
  exists s2. split; [rewrite (steps_cons _ _ _ _ H1); cbn [steps]; rewrite H2; reflexivity|].
  split; [exact Hlen|]. split; [exact Hrp|].
  split; [exact Hold|]. split; [exact Htasks|].
  intros Henv. split; [exact (Hnew Henv)|].
  intros p Hp. pose proof (lookup_lt_Some _ _ _ Hp) as Hlt.
  split; [lia|]. rewrite Hold by exact Hlt. exact Hp.
Qed.

Lemma resetInstance_then_getToken_witness :
  ∃ s2,
    steps [Call ResetInstance; Call GetToken] refreshing = Some s2 ∧
    promises refreshing !! 0%nat = Some None ∧
    promises s2 !! 0%nat = Some None ∧ promises s2 !! 1%nat = Some None.
Proof.
  destruct (resetInstance_then_getToken refreshing)
    as (s2 & Hsteps & _ & _ & _ & _ & Hp).
  exists s2. split; [exact Hsteps|]. split; [reflexivity|].
  destruct (Hp eq_refl) as [Hnew Hold]. split; [|exact Hnew].
  apply (Hold 0%nat). reflexivity.
Defined.

(** ** Where the outcome of a refresh comes from *)

Lemma doRefresh_outcome π out : path doRefresh π out → goodOutcome out.
Proof.
  intros H. apply path_doRefresh in H
    as [(provided & now & Ht & _ & ->)|[(env & π1 & e & Henv & H1 & _ & ->)|
      [(env & π1 & oidcToken & π2 & e & Henv & H1 & H2 & _ & ->)|
       (env & π1 & oidcToken & π2 & appToken & now & Henv & H1 & H2 & _ & ->)]]];
    simpl.
  - exact Ht.
  - apply retry_getOidcToken_summary in H1 as (n & _ & _ & _ & _ & _ & _ & ->).
    eauto.
  - apply retry_exchange_summary in H2
      as (n & _ & _ & _ & _ & _ & _ & π0 & e0 & _ & ->).
    eauto.
  - apply retry_exchange_summary in H2 as (n & _ & _ & _ & _ & _ & Ht).
    exact Ht.
Qed.

Lemma traced_mono {A} (t : Async A) (Q Q' : Settled A → Prop) :
  (∀ r, Q r → Q' r) → traced t Q → traced t Q'.
Proof.
  revert Q Q'. induction t as [A a|A e|A X e k IH|A X e k IH|A body _ k IH];
    intros Q Q' HQ; simpl.
  - apply HQ.
  - apply HQ.
  - intros Hk x. eapply IH; eauto.
  - intros Hk x Hx. eapply IH; eauto.
  - intros [Hb Hk]. split; [exact Hb|]. intros p. eapply IH; eauto.
Qed.

Lemma traced_bind {A B} (t : Async A) (f : A → Async B) (Q : Settled B → Prop) :
  traced t (fun r => match r with
                     | Fulfilled a => traced (f a) Q
                     | Rejected e => Q (Rejected e)
                     end) →
  traced (bind t f) Q.
Proof.
  revert B f Q. induction t as [A a|A e|A X e k IH|A X e k IH|A body _ k IH];
    intros B f Q; simpl.
  - auto.
  - auto.
  - intros Hk x. apply IH, Hk.
  - intros Hk x Hx. apply IH, Hk, Hx.
  - intros [Hb Hk]. split; [exact Hb|]. intros p. apply IH, Hk.
Qed.

Lemma traced_tryCatch {A} (t : Async A) (h : Thrown → Async A)
    (Q : Settled A → Prop) :
  traced t (fun r => match r with
                     | Fulfilled a => Q (Fulfilled a)
                     | Rejected e => traced (h e) Q
                     end) →
  traced (tryCatch t h) Q.
Proof.
  revert h Q. induction t as [A a|A e|A X e k IH|A X e k IH|A body _ k IH];
    intros h Q; simpl.
  - auto.
  - auto.
  - intros Hk x. apply IH, Hk.
  - intros Hk x Hx. apply IH, Hk, Hx.
  - intros [Hb Hk]. split; [exact Hb|]. intros p. apply IH, Hk.
Qed.

(** [refreshToken] returns the outcome of a refresh. *)
Lemma traced_refreshToken (Q : Settled string → Prop) :
  (∀ out, refreshOutcome out → Q out) → traced refreshToken Q.
Proof.
  intros HQ. unfold refreshToken. cbn [this_get perform bind traced].
  intros [p|].
  - simpl. intros _ [x|e] Hx; simpl; apply HQ, Hx.
  - cbn [traced]. split; [reflexivity|]. intros p. simpl.
    intros _ [x|e] Hx; simpl; intros _; apply HQ, Hx.
Qed.

Lemma traced_isTokenValid (Q : Settled bool → Prop) :
  (∀ b, Q (Fulfilled b)) → traced isTokenValid Q.
Proof.
  intros HQ. unfold isTokenValid. simpl. intros tok.
  destruct (negb (truthyOpt tok)); simpl; [apply HQ|].
  intros [expiry|]; simpl; auto.
Qed.

Lemma traced_getToken : traced getToken (fun _ => True).
Proof.
  unfold getToken. apply traced_bind, traced_isTokenValid.
  intros [|]; [simpl; auto|]. apply traced_refreshToken. auto.
Qed.

Lemma traced_hook client options : traced (hook client options) (fun _ => True).
Proof.
  unfold hook. apply traced_tryCatch. cbn [await traced].
  intros [x|e] _; cbn [traced]; [exact I|].
  destruct (statusOf e) as [st|]; [|simpl; auto].
  destruct (isAuthStatus st); [|simpl; auto].
  cbn [log perform bind traced]. intros _.
  apply traced_bind. apply traced_refreshToken.
  intros [newToken|e'] _; [|exact I]. simpl. intros [x|e'] _; simpl; auto.
Qed.

Lemma traced_clientRequest client options :
  traced (clientRequest client options) (fun _ => True).
Proof.
  destruct client; [|apply traced_hook]. simpl. intros [x|e] _; simpl; auto.
Qed.

Lemma traced_program a : traced (program a) (fun _ => True).
Proof.
  destruct a as [| |client options|]; cbn [program].
  - apply traced_bind. eapply traced_mono; [|apply traced_getToken].
    intros [?|?] _; simpl; auto.
  - apply traced_bind. unfold createOctokit. apply traced_bind.
    eapply traced_mono; [|apply traced_getToken].
    intros [?|?] _; simpl; auto.
  - apply traced_bind. eapply traced_mono; [|apply traced_clientRequest].
    intros [?|?] _; simpl; auto.
  - simpl. auto.
Qed.

Lemma taskTraced_mono Qof Qof' n n' t :
  (n ≤ n')%nat → (∀ c r, (c < n)%nat → Qof c r → Qof' c r) →
  taskTraced Qof n t → taskTraced Qof' n' t.
Proof.
  intros Hn HQ. destruct t as [[p X e k|c X e k]|]; simpl; auto.
  intros [Hc Hk]. split; [lia|]. intros x Hx.
  eapply traced_mono; [|apply Hk, Hx]. intros r. apply HQ, Hc.
Qed.

(** A turn keeps the promises and the suspended calls traced. *)
Lemma run_traced {A} (t : Async A) :
  ∀ (Q : Settled A → Prop) Qof n s,
    traced t Q →
    (∀ p out, promises s !! p = Some (Some out) → refreshOutcome out) →
    Forall (taskTraced Qof n) (tasks s) →
    (∀ p out, promises (run t s).1 !! p = Some (Some out) → refreshOutcome out) ∧
    Forall (taskTraced Qof n) (tasks (run t s).1) ∧
    results (run t s).1 = results s ∧ calls (run t s).1 = calls s ∧
    match (run t s).2 with
    | Finished r => Q r
    | Waiting e k => ∀ x, delivered e x → traced (k x) Q
    end.
Proof.
  induction t as [A a|A e|A X e k IH|A X e k IH|A body _ k IH];
    intros Q Qof n s Ht Hps Hts; simpl in *.
  - auto.
  - auto.
  - assert (Hsame : promises (performSync e s).1 = promises s ∧
                    tasks (performSync e s).1 = tasks s ∧
                    results (performSync e s).1 = results s ∧
                    calls (performSync e s).1 = calls s).
    { destruct e; repeat split. }
    destruct (performSync e s) as [s1 x]. simpl in Hsame.
    destruct Hsame as (Hp1 & Ht1 & Hr1 & Hc1).
    rewrite <- Hr1, <- Hc1. apply IH; [apply Ht|rewrite Hp1|rewrite Ht1]; assumption.
  - auto.
  - destruct Ht as [-> Hk].
    pose (s0 := setPromises (promises s ++ [None]) s).
    destruct (run_worker doRefresh worker_doRefresh s0)
      as [(Hp1 & Ht1 & Hr1 & Hc1 & _) Hw].
    destruct (run_path doRefresh worker_doRefresh s0) as (π0 & _ & _ & Hpath).
    fold s0. destruct (run doRefresh s0) as [s1 r]. simpl in Hp1, Ht1, Hr1, Hc1, Hw, Hpath.
    assert (Hold : ∀ p out, (promises s ++ [None]) !! p = Some (Some out) →
                            refreshOutcome out).
    { intros p out Hp. apply lookup_app_Some in Hp as [Hp|[_ Hp]]; [eauto|].
      destruct (p - length (promises s))%nat; simpl in Hp; discriminate. }
    match goal with
    | |- context [run (k ?p) ?s2] =>
        assert (Hr2 : results s2 = results s ∧ calls s2 = calls s)
          by (destruct r; simpl; split; congruence);
        destruct Hr2 as [Hr2 Hc2]; rewrite <- Hr2, <- Hc2
    end.
    apply IH; [apply Hk| |].
    + intros p out. destruct r as [v|X e k']; simpl; rewrite Hp1; simpl.
      * intros [(_ & Heq & _)|(_ & Hp)]%list_lookup_insert_Some; [|eauto].
        injection Heq as <-. exists π0. exact Hpath.
      * apply Hold.
    + destruct r as [v|X e k']; simpl; rewrite Ht1; simpl; [exact Hts|].
      apply Forall_app. split; [exact Hts|]. repeat constructor.
      * exact Hw.
      * exists π0. exact Hpath.
Qed.

Lemma advance_traced Qof (deliver : ∀ X, AwaitE X → option X) i t s s' :
  Traced Qof s →
  (∀ X (e : AwaitE X) x, deliver X e = Some x → delivered e x) →
  tasks s !! i = Some (Some t) →
  advance deliver i t s = Some s' →
  Traced Qof s' ∧ calls s' = calls s.
Proof.
  intros (Hps & Hts & Hrs) Hdel Hi Hadv.
  assert (Ht : taskTraced Qof (calls s) (Some t))
    by (eapply Forall_lookup_1 in Hts; eauto).
  destruct t as [p X e k|c X e k]; simpl in Hadv, Ht;
    destruct (deliver _ e) as [x|] eqn:Hx; try discriminate; simpl in Hadv.
  - destruct Ht as [Hw (π0 & Hπ0)].
    destruct (run_worker (k x) (Hw x) s) as [(Hp1 & Ht1 & Hr1 & Hc1 & _) Hw'].
    destruct (run_path (k x) (Hw x) s) as (π1 & _ & _ & Hpath).
    destruct (run (k x) s) as [s1 r]. simpl in Hp1, Ht1, Hr1, Hc1, Hw', Hpath.
    injection Hadv as <-.
    destruct r as [v|X' e' k']; (split; [|simpl; congruence]); split; simpl;
      rewrite ?Hp1, ?Ht1, ?Hr1, ?Hc1.
    + intros q out [(_ & Heq & _)|(_ & Hq)]%list_lookup_insert_Some; [|eauto].
      injection Heq as <-. eexists. apply Hπ0, Hpath.
    + split; [|exact Hrs]. apply Forall_insert; [exact Hts|exact I].
    + exact Hps.
    + split; [|exact Hrs]. apply Forall_insert; [exact Hts|].
      split; [exact Hw'|].
      exists (π0 ++ Got e x :: π1). intros x' π r Hr.
      rewrite <- app_assoc. simpl. apply Hπ0, Hpath, Hr.
  - destruct Ht as [Hc Hk].
    destruct (run_traced (k x) (Qof c) Qof (calls s) s
                (Hk x (Hdel _ e x Hx)) Hps Hts)
      as (Hps1 & Hts1 & Hr1 & Hc1 & Hres).
    destruct (run (k x) s) as [s1 r]. simpl in Hps1, Hts1, Hr1, Hc1, Hres.
    injection Hadv as <-.
    destruct r as [v|X' e' k']; (split; [|simpl; congruence]); split; simpl;
      rewrite ?Hr1, ?Hc1; try exact Hps1.
    + split; [apply Forall_insert; [exact Hts1|exact I]|].
      intros c' r' [Hin|Heq%list_elem_of_singleton]%elem_of_app; [eauto|].
      injection Heq as -> ->. auto.
    + split; [|exact Hrs]. apply Forall_insert; [exact Hts1|].
      split; [exact Hc|exact Hres].
Qed.

(** A call of the interface whose body is [t]. *)
Lemma call_traced Qof (t : Async Value) (s s' : State) :
  Traced Qof s →
  traced t (Qof (calls s)) →
  (let '(s1, r) := run t (setCalls (S (calls s)) s) in
   Some match r with
        | Finished v => record (calls s) v s1
        | Waiting e k => park (TaskOfCaller (calls s) e k) s1
        end) = Some s' →
  Traced Qof s' ∧ calls s' = S (calls s).
Proof.
  intros (Hps & Hts & Hrs) Ht Hstep.
  assert (Hts0 : Forall (taskTraced Qof (S (calls s))) (tasks s)).
  { eapply Forall_impl; [exact Hts|]. intros t0.
    apply taskTraced_mono; [lia|auto]. }
  destruct (run_traced t (Qof (calls s)) Qof (S (calls s))
              (setCalls (S (calls s)) s) Ht Hps Hts0)
    as (Hps1 & Hts1 & Hr1 & Hc1 & Hres).
  destruct (run t _) as [s1 r]. simpl in Hps1, Hts1, Hr1, Hc1, Hres.
  injection Hstep as <-.
  destruct r as [v|X e k]; (split; [|simpl; congruence]); split; simpl;
    rewrite ?Hr1, ?Hc1; try exact Hps1.
  - split; [exact Hts1|].
    intros c' r' [Hin|Heq%list_elem_of_singleton]%elem_of_app.
    + destruct (Hrs c' r' Hin). split; [lia|assumption].
    + injection Heq as -> ->. split; [lia|exact Hres].
  - split.
    + apply Forall_app. split; [exact Hts1|].
      constructor; [split; [lia|exact Hres]|constructor].
    + intros c' r' Hin. destruct (Hrs c' r' Hin). split; [lia|assumption].
Qed.

Lemma external_delivered a X (e : AwaitE X) x :
  external e a = Some x → delivered e x.
Proof. destruct e; simpl; auto. discriminate. Qed.

Lemma internal_delivered ps X (e : AwaitE X) x :
  (∀ p out, ps !! p = Some (Some out) → refreshOutcome out) →
  internal ps e = Some x → delivered e x.
Proof.
  intros Hps. destruct e; simpl; auto.
  destruct (ps !! p) as [[out|]|] eqn:Hp; simpl; try discriminate.
  intros Heq. injection Heq as <-. eauto.
Qed.

Lemma step_traced Qof l s s' :
  Traced Qof s →
  (∀ a, l = Call a → traced (program a) (Qof (calls s))) →
  step l s = Some s' →
  Traced Qof s' ∧ (calls s ≤ calls s')%nat.
Proof.
  intros Hs Hl Hstep. destruct l as [a|i a|i|now|v]; simpl in Hstep.
  - destruct (call_traced Qof (program a) s s' Hs (Hl a eq_refl) Hstep) as [Hs' Hc].
    split; [exact Hs'|lia].
  - destruct (tasks s !! i) as [[t|]|] eqn:Hi; try discriminate. simpl in Hstep.
    destruct (advance_traced Qof _ i t s s' Hs
                (fun X e x => external_delivered a X e x) Hi Hstep) as [Hs' Hc].
    split; [exact Hs'|lia].
  - destruct (tasks s !! i) as [[t|]|] eqn:Hi; try discriminate. simpl in Hstep.
    destruct (advance_traced Qof _ i t s s' Hs
                (fun X e x => internal_delivered (promises s) X e x (proj1 Hs))
                Hi Hstep) as [Hs' Hc].
    split; [exact Hs'|lia].
  - injection Hstep as <-. split; [exact Hs|reflexivity].
  - injection Hstep as <-. split; [exact Hs|reflexivity].
Qed.

Lemma steps_traced Qof ls : ∀ s s',
  Traced Qof s →
  (∀ c a, (calls s ≤ c)%nat → traced (program a) (Qof c)) →
  steps ls s = Some s' →
  Traced Qof s' ∧ (calls s ≤ calls s')%nat.
Proof.
  induction ls as [|l ls IH]; intros s s' Hs HQ Hsteps; simpl in Hsteps.
  - injection Hsteps as <-. auto.
  - destruct (step l s) as [s1|] eqn:Hstep; [|discriminate]. simpl in Hsteps.
    destruct (step_traced Qof l s s1 Hs) as [Hs1 Hc1]; [|exact Hstep|].
    { intros a _. apply HQ. reflexivity. }
    destruct (IH s1 s' Hs1) as [Hs' Hc']; [|exact Hsteps|].
    { intros c a Hc. apply HQ. lia. }
    split; [exact Hs'|lia].
Qed.

Lemma reachable_traced s : reachable s → Traced (fun _ _ => True) s.
Proof.
  intros (env & now & ls & Hsteps).
  apply (steps_traced (fun _ _ => True) ls (boot env now) s); [| |exact Hsteps].
  - split; [intros p out Hp; discriminate Hp|].
    split; [constructor|]. intros c r Hin. inversion Hin.
  - intros c a _. apply traced_program.
Qed.

(** A call of [getToken]: a cache hit, or the outcome of a refresh. *)
Lemma call_getToken_traced Qof s s' :
  Traced Qof s →
  (∀ r, tokenResult r → Qof (calls s) r) →
  step (Call GetToken) s = Some s' →
  Traced Qof s' ∧ calls s' = S (calls s).
Proof.
  intros Hs HQ Hstep. cbn [step program] in Hstep.
  destruct (tokenValid (this s) (clock s)) eqn:Hv.
  - destruct (tokenValid_token _ _ Hv) as (t & Ht & Htruthy).
    destruct (run_getToken_valid (setCalls (S (calls s)) s) Hv) as (t' & Ht' & Hrun).
    simpl in Ht'. rewrite Ht in Ht'. injection Ht' as <-.
    apply (call_traced Qof (Ret (VToken t)) s s' Hs).
    + simpl. apply HQ. exists (Fulfilled t). split; [reflexivity|exact Htruthy].
    + rewrite run_bind, Hrun in Hstep. exact Hstep.
  - apply (call_traced Qof (let! tok := refreshToken in Ret (VToken tok)) s s' Hs).
    + apply traced_bind, traced_refreshToken.
      intros out Hout. destruct Hout as (π & Hπ).
      pose proof (doRefresh_outcome π out Hπ) as Hgood.
      destruct out as [tok|e]; simpl; apply HQ; eexists; (split; [|exact Hgood]);
        reflexivity.
    + rewrite run_bind. rewrite run_bind, run_getToken_invalid in Hstep by exact Hv.
      exact Hstep.
Qed.

(** Whatever happens before and after, a call of [getToken] settles, if it
    does, to a non-empty token or to the error of a failed refresh. *)
Lemma getToken_settles s s1 ls s2 r :
  reachable s →
  step (Call GetToken) s = Some s1 → steps ls s1 = Some s2 →
  (calls s, r) ∈ results s2 →
  tokenResult r.
Proof.
  intros Hreach Hstep Hsteps Hin.
  pose (Qof := fun (c : nat) (r : Settled Value) => c = calls s → tokenResult r).
  assert (Hs : Traced Qof s).
  { destruct (reachable_traced s Hreach) as (Hps & Hts & Hrs).
    split; [exact Hps|]. split.
    - eapply Forall_impl; [exact Hts|]. intros t.
      apply taskTraced_mono; [lia|]. intros c r0 Hc _ Heq. lia.
    - intros c r0 Hc. destruct (Hrs c r0 Hc) as [Hlt _].
      split; [exact Hlt|]. intros Heq. lia. }
  destruct (call_getToken_traced Qof s s1 Hs) as [Hs1 Hc1]; [|exact Hstep|].
  { intros r0 Hr0 _. exact Hr0. }
  destruct (steps_traced Qof ls s1 s2 Hs1) as [(_ & _ & Hrs2) _]; [|exact Hsteps|].
  { intros c a Hc. eapply traced_mono; [|apply traced_program].
    intros r0 _ Heq. lia. }
  destruct (Hrs2 _ _ Hin) as [_ Hr]. apply Hr. reflexivity.
Qed.

(** X12.  Every promise of the store that has settled, in any state the
    process can reach, whatever the callers and the outside world have done
    (resets included), holds the outcome of one complete execution of
    [doRefresh]: a non-empty token, or an [Error] without [status] whose
    message is ["Token refresh failed: "] followed by the rendering of the
    [Error] that caused it. *)
Theorem refresh_promise_provenance (s : State) (p : pid) (out : Settled string) :
  reachable s → promises s !! p = Some (Some out) →
  (∃ π, path doRefresh π out) ∧
  match out with
  | Fulfilled tok => truthy tok = true
  | Rejected e =>
      ∃ cause : JsError,
        e = Err (mkError "Error"
                   ("Token refresh failed: " ++ errorToString cause) None)
  end.
Proof.
  intros Hreach Hp.
  destruct (reachable_traced s Hreach) as (Hps & _).
  destruct (Hps p out Hp) as (π & Hπ).
  split; [exists π; exact Hπ|].
  pose proof (doRefresh_outcome π out Hπ) as Hgood.
  destruct out as [tok|e]; [exact Hgood|].
  destruct Hgood as (cause & ->). exists cause. reflexivity.
Qed.

Lemma refresh_promise_provenance_witness :
  (∃ π, path doRefresh π (Fulfilled "mock-app-token")) ∧
  truthy "mock-app-token" = true.
Proof.
  apply (refresh_promise_provenance warmState 0%nat (Fulfilled "mock-app-token")).
  - exists None, 1000, fiveCallers. reflexivity.
  - reflexivity.
Defined.

(** X13.  What [getToken] can give its caller.  Take any state the process
    can reach, call [getToken], and let anything happen afterwards, in any
    order (answers of the outside world, other calls, resets, changes of the
    clock and of the override): if the call settles, it settles to a token
    that is a non-empty string, or it fails with an [Error] without [status]
    whose message is ["Token refresh failed: "] followed by the rendering of
    the [Error] that caused the failure.  It never returns an empty token and
    never fails with anything else. *)
Theorem getToken_result (s s1 s2 : State) (ls : list Label) (r : Settled Value) :
  reachable s →
  step (Call GetToken) s = Some s1 → steps ls s1 = Some s2 →
  (calls s, r) ∈ results s2 →
  (∃ tok, r = Fulfilled (VToken tok) ∧ truthy tok = true) ∨
  (∃ cause : JsError,
     r = Rejected (Err (mkError "Error"
           ("Token refresh failed: " ++ errorToString cause) None))).
Proof.
  intros Hreach Hstep Hsteps Hin.
  destruct (getToken_settles s s1 ls s2 r Hreach Hstep Hsteps Hin)
    as ([tok|e] & -> & Hgood); simpl in Hgood.
  - left. eauto.
  - right. destruct Hgood as (cause & ->). exists cause. reflexivity.
Qed.

Lemma getToken_result_witness :
  (∃ tok, Fulfilled (VToken "mock-app-token") = Fulfilled (VToken tok) ∧
          truthy tok = true) ∨
  (∃ cause : JsError,
     Fulfilled (VToken "mock-app-token") =
       Rejected (Err (mkError "Error"
           ("Token refresh failed: " ++ errorToString cause) None))).
Proof.
  apply (getToken_result (boot None 0) refreshing refreshed exchangeAnswers
           (Fulfilled (VToken "mock-app-token"))).
  - exists None, 0, []. reflexivity.
  - reflexivity.
  - reflexivity.
  - simpl. left.
Defined.

(** X14.  What [setupGitHubToken] does with it.  Under the same
    conditions, run on what its call of [getToken] has settled to, the entry
    point never throws.  When the call has returned [tok], a non-empty
    string, it logs its success, sets the output [GITHUB_TOKEN] to [tok] and
    returns [tok]; it does not call [core.setFailed] and does not exit.
    Otherwise it sets no output: it calls [core.setFailed] once, with the
    message ["Failed to setup GitHub token: Error: Token refresh failed: "],
    the rendering of the cause, a full stop, an empty line and the advice to
    provide a [github_token], and then ends the process with exit code 1. *)
Theorem setupGitHubToken_outcome (s s1 s2 : State) (ls : list Label)
    (r : Settled Value) :
  reachable s →
  step (Call GetToken) s = Some s1 → steps ls s1 = Some s2 →
  (calls s, r) ∈ results s2 →
  ∃ answer,
    r = mapSettled VToken answer ∧
    match answer with
    | Fulfilled tok =>
        truthy tok = true ∧
        execute setupGitHubToken answer =
          ([Hosted (ConsoleLog "GitHub token successfully obtained");
            Hosted (SetOutput "GITHUB_TOKEN" tok)],
           Returned tok)
    | Rejected _ =>
        ∃ cause : JsError,
          execute setupGitHubToken answer =
            ([Hosted (SetFailed
                ("Failed to setup GitHub token: Error: Token refresh failed: "
                 ++ errorToString cause ++ "." ++ newline ++ newline ++
                 "If you instead wish to use this action with a custom GitHub token or custom GitHub app, provide a `github_token` in the `uses` section of the app in your workflow yml file."));
              Hosted (ProcessExit 1)],
             Exited 1)
    end.
Proof.
  intros Hreach Hstep Hsteps Hin.
  destruct (getToken_settles s s1 ls s2 r Hreach Hstep Hsteps Hin)
    as (answer & -> & Hgood).
  exists answer. split; [reflexivity|].
  destruct answer as [tok|e]; simpl in Hgood.
  - split; [exact Hgood|reflexivity].
  - destruct Hgood as (cause & ->). exists cause. reflexivity.
Qed.

Lemma setupGitHubToken_outcome_witness :
  ∃ answer,
    Fulfilled (VToken "mock-app-token") = mapSettled VToken answer ∧
    match answer with
    | Fulfilled tok =>
        truthy tok = true ∧
        execute setupGitHubToken answer =
          ([Hosted (ConsoleLog "GitHub token successfully obtained");
            Hosted (SetOutput "GITHUB_TOKEN" tok)],
           Returned tok)
    | Rejected _ =>
        ∃ cause : JsError,
          execute setupGitHubToken answer =
            ([Hosted (SetFailed
                ("Failed to setup GitHub token: Error: Token refresh failed: "
                 ++ errorToString cause ++ "." ++ newline ++ newline ++
                 "If you instead wish to use this action with a custom GitHub token or custom GitHub app, provide a `github_token` in the `uses` section of the app in your workflow yml file."));
              Hosted (ProcessExit 1)],
             Exited 1)
    end.
Proof.
  apply (setupGitHubToken_outcome (boot None 0) refreshing refreshed
           exchangeAnswers (Fulfilled (VToken "mock-app-token"))).
  - exists None, 0, []. reflexivity.
  - reflexivity.
  - reflexivity.
  - simpl. left.
Defined.

(** ** One refresh, one exchange: the work of the window *)






Section AccountLemmas.
Variables (p : pid) (lo w : nat) (base : list (nat * Settled Value))
          (tr0 : list Event).







End AccountLemmas.


(** ** Counting the work *)











